(** * maesh: the TCP port mapping and the mesh controller

    A shallow embedding of [pkg/k8s/tcpportmapping.go] (the ConfigMap-backed
    port allocator) and of the controller ([Controller.Run],
    [createMeshServices], [createMeshService], [updateMeshService],
    [getTCPPort], the [deploy*] family), followed by the properties
    established about them.

    Conventions.
    - A Go [int32] is a [Z]; the only place where the source can overflow
      ([maxPort+1] in [Add], the conversions [int32(_)]) is written with
      [Go.wrap32].
    - A Go [string] is a [string]; a Go [map] is a [gmap]; the order in which
      [for ... range] visits a map is left to the runtime and is a parameter
      of the development (class [Go.MapRange]).
    - A Go [(T, error)] is a [Go.result].
    - What a goroutine of [deployToPods] does is the list of its effects
      ([controller.Task]); the goroutines of one [errgroup] run interleaved,
      in an order chosen by the runtime ([Go.interleave]).
    - The mutexes of [TCPPortMapping] are not modelled: every function of
      [tcpportmapping.go] below is one sequential execution of its body. *)

From Stdlib Require Import ZArith Lia Ascii String List Bool.
From stdpp Require Import base decidable option list gmap strings.

Local Open Scope Z_scope.

(** ** Go primitives used by the sources *)

Module Go.

Inductive result (E A : Type) : Type :=
| Ok (a : A)
| Err (e : E).
Arguments Ok {E A} a.
Arguments Err {E A} e.

Definition is_ok {E A} (r : result E A) : bool :=
  match r with Ok _ => true | Err _ => false end.

Definition int32_min : Z := -2147483648.
Definition int32_max : Z := 2147483647.

Definition in_int32 (z : Z) : Prop := int32_min <= z <= int32_max.

(** Two's complement truncation to 32 bits: [int32(x)], and the result of
    every [int32] addition. *)
Definition wrap32 (z : Z) : Z := (z + 2147483648) mod 4294967296 - 2147483648.

(** The order in which [range] enumerates a map: some enumeration of its
    entries, chosen by the runtime. An instance fixes one enumeration for
    each map; what depends on the order is stated for every instance, and
    for two of them where two loops over the same map are compared. *)
Class MapRange : Type := {
  range_of : forall (K : Type) `{Countable K} (V : Type), gmap K V -> list (K * V);
  range_of_perm : forall (K : Type) `{Countable K} (V : Type) (m : gmap K V),
      range_of K V m ≡ₚ map_to_list m
}.
Arguments range_of {_ K _ _ V} m.

(** [strings.Split(s, sep)] for a separator of one byte: the pieces between
    the occurrences of [sep], never an empty slice. *)
Fixpoint Split (sep : ascii) (s : string) : list string :=
  match s with
  | EmptyString => [EmptyString]
  | String c rest =>
      if Ascii.eqb c sep then EmptyString :: Split sep rest
      else match Split sep rest with
           | [] => [String c EmptyString]
           | piece :: pieces => String c piece :: pieces
           end
  end.

(** Whether the byte [c] occurs in [s]. *)
Fixpoint contains_char (c : ascii) (s : string) : bool :=
  match s with
  | EmptyString => false
  | String c' rest => Ascii.eqb c' c || contains_char c rest
  end.

Fixpoint all_chars (p : ascii -> bool) (s : string) : bool :=
  match s with
  | EmptyString => true
  | String c rest => p c && all_chars p rest
  end.

Inductive NumError : Type := ErrSyntax | ErrRange.

Definition digit_of (c : ascii) : option Z :=
  let n := Z.of_N (N_of_ascii c) in
  if (48 <=? n) && (n <=? 57) then Some (n - 48) else None.

(** The digit loop of [strconv.ParseUint(s, 10, 32)]: a byte that is not a
    decimal digit is a syntax error; a digit that takes the number past
    [1<<32 - 1] ends the loop at once with that maximum and a range error,
    whatever follows it. ([n] never exceeds the maximum, so the test
    [n >= cutoff] on [n*base] overflowing 64 bits never fires.) *)
Fixpoint parse_uint (n : Z) (s : string) : Z * option NumError :=
  match s with
  | EmptyString => (n, None)
  | String c rest =>
      match digit_of c with
      | None => (0, Some ErrSyntax)
      | Some d =>
          let n1 := n * 10 + d in
          if 4294967295 <? n1 then (4294967295, Some ErrRange) else parse_uint n1 rest
      end
  end.

Definition ParseUint (s : string) : Z * option NumError :=
  match s with
  | EmptyString => (0, Some ErrSyntax)
  | _ => parse_uint 0 s
  end.

(** [strconv.ParseInt(s, 10, 32)]: an optional sign, then [ParseUint]; its
    syntax error is returned, its range error is not: the value is then
    compared with [1<<31], as it is when [ParseUint] succeeds. *)
Definition ParseInt (s : string) : result NumError Z :=
  match s with
  | EmptyString => Err ErrSyntax
  | String c rest =>
      let '(neg, body) :=
        if Ascii.eqb c "+" then (false, rest)
        else if Ascii.eqb c "-" then (true, rest)
        else (false, s) in
      match ParseUint body with
      | (_, Some ErrSyntax) => Err ErrSyntax
      | (un, _) =>
          if neg then (if 2147483648 <? un then Err ErrRange else Ok (- un))
          else (if 2147483648 <=? un then Err ErrRange else Ok un)
      end
  end.

Definition digit_char (d : Z) : ascii := ascii_of_N (Z.to_N (48 + d)).

(** The digit loop of [strconv.FormatInt]: least significant digit first,
    written in front of what is already there. [fuel] bounds the number of
    digits. *)
Fixpoint format_digits (fuel : nat) (n : Z) (acc : string) : string :=
  match fuel with
  | O => acc
  | S fuel' =>
      let acc' := String (digit_char (n mod 10)) acc in
      if n / 10 =? 0 then acc' else format_digits fuel' (n / 10) acc'
  end.

Definition digits_fuel (n : Z) : nat := S (Z.to_nat (Z.log2 n)).

(** [strconv.Itoa] and the verb [%d]. *)
Definition Itoa (z : Z) : string :=
  if z <? 0 then String "-" (format_digits (digits_fuel (- z)) (- z) EmptyString)
  else format_digits (digits_fuel z) z EmptyString.

(** The process-wide logrus logger: what was logged, oldest entry first. *)
Inductive Level : Type := DebugLevel | InfoLevel | WarnLevel | ErrorLevel.

Record LogEntry : Type := { level : Level; text : string }.

(** [encoding/json] on the values of a type: the bytes that [json.Marshal]
    gives, or the text of its error. *)
Class JSON (T : Type) : Type := Marshal : T -> result string string.

(** [net/url]: the error of [url.Parse] on the addresses it rejects. *)
Class URL : Type := url_Parse : string -> option string.

(** [net/http]. A request as [http.NewRequest] builds it, which fails when
    the address does not parse. *)
Record Request : Type := { req_Method : string; req_URL : string; req_Body : string }.

Definition NewRequest `{URL} (method url body : string) : result string Request :=
  match url_Parse url with
  | Some e => Err e
  | None => Ok {| req_Method := method; req_URL := url; req_Body := body |}
  end.

(** A response: its status code, and the error of [ioutil.ReadAll] on its
    body when reading it fails. *)
Record Response : Type := { StatusCode : Z; bodyErr : option string }.

(** What [client.Do] returns: a response or none, an error or none. *)
Record Exchange : Type := { do_resp : option Response; do_err : option string }.

Definition StatusOK : Z := 200.

(** Goroutines. [running] holds what each goroutine started so far has
    left to do; [step k] lets the goroutine of index [k] do its next
    effect. *)
Fixpoint step {A : Type} (k : nat) (running : list (list A)) {struct running}
  : option (A * list (list A)) :=
  match running with
  | [] => None
  | g :: others =>
      match k with
      | O => match g with
             | [] => None
             | a :: g' => Some (a, g' :: others)
             end
      | S k' => match step k' others with
                | Some (a, others') => Some (a, g :: others')
                | None => None
                end
      end
  end.

(** A loop that starts one goroutine per element, each after an effect of
    the loop itself, and then waits for all of them ([errgroup.Group]'s [Go]
    and [Wait]): [todo] pairs the effect the loop has before it starts a
    goroutine with what that goroutine does. The runtime chooses who runs
    next: in [schedule], [0] is a turn of the loop and [S k] one of the
    goroutine of index [k]; a turn given to a goroutine that is not started
    or is over is lost, and when the schedule is used up everything left
    runs in turn, the goroutines first and then the rest of the loop, each
    goroutine it starts running to its end. The result is the effects in
    the order they take place. *)
Fixpoint interleave {A : Type} (schedule : list nat) (todo : list (A * list A))
    (running : list (list A)) : list A :=
  match schedule with
  | [] => concat running ++ flat_map (fun '(a, g) => a :: g) todo
  | O :: schedule' =>
      match todo with
      | [] => interleave schedule' [] running
      | (a, g) :: todo' => a :: interleave schedule' todo' (running ++ [g])
      end
  | S k :: schedule' =>
      match step k running with
      | Some (a, running') => a :: interleave schedule' todo running'
      | None => interleave schedule' todo running
      end
  end.

End Go.

(** ** The Kubernetes objects the controller reads and writes *)

Module corev1.

Definition ProtocolTCP : string := "TCP".

(** [corev1.ServicePort]; [TargetPort] is an [intstr.IntOrString] that the
    controller only ever fills with [intstr.FromInt]. *)
Record ServicePort : Type := {
  sp_Name : string;
  sp_Protocol : string;
  sp_Port : Z;
  sp_TargetPort : Z
}.

(** [corev1.Service]: the metadata and the part of the spec that the
    controller touches. *)
Record Service : Type := {
  svc_Name : string;
  svc_Namespace : string;
  svc_Labels : gmap string string;
  svc_Annotations : gmap string string;
  svc_Ports : list ServicePort;
  svc_Selector : gmap string string
}.

(** [corev1.Pod]: [pod_ContainerStatuses] holds the [Ready] flag of each
    container status. *)
Record Pod : Type := {
  pod_Name : string;
  pod_PodIP : string;
  pod_ContainerStatuses : list bool
}.

End corev1.

(** ** Package k8s: [tcpportmapping.go] *)

Module k8s.
Import Go.

(** [metav1.NamespaceDefault] *)
Definition NamespaceDefault : string := "default".

(** Modelled from the spec: the constants [ServiceTypeTCP],
    [AnnotationServiceType] and [ConfigMessageChanForce] of package k8s are
    declared outside the sources at hand; the spec gives the mode [tcp],
    the annotation [maesh.containo.us/traffic-type] and the tag [force]. *)
Definition ServiceTypeTCP : string := "tcp".
Definition AnnotationServiceType : string := "maesh.containo.us/traffic-type".
Definition ConfigMessageChanForce : string := "force".

Record ServiceWithPort : Type := {
  Namespace : string;
  Name : string;
  Port : Z
}.

(** [k8s.IgnoreWrapper] is declared outside the sources at hand. It is
    kept abstract: what the two methods that the controller calls answer,
    [IsIgnored] on a service and [LabelSelector] (its error, if it has
    one). *)
Record IgnoreWrapper : Type := {
  IsIgnored : corev1.Service -> bool;
  LabelSelector : option string
}.

(** What the process acts on besides its own memory: the ConfigMap as the
    lister returns it ([None]: [Get] fails), the outcomes of the coming
    [Update] calls of the client ([true]: the call fails, after its
    retries), the names of the services of the mesh namespace that the
    service lister holds, the names for which its [Get] fails otherwise
    than with a not-found error, the outcomes of the coming [CreateService]
    calls and the services created so far, the requests sent to the pods so
    far, and the log. *)
Record World : Type := {
  configMap : option (gmap string string);
  updateErrs : list bool;
  meshServices : gset string;
  getErrs : gset string;
  createErrs : list bool;
  created : list corev1.Service;
  requests : list Request;
  logs : list LogEntry
}.

Definition with_configMap (cm : option (gmap string string)) (errs : list bool)
    (w : World) : World :=
  {| configMap := cm; updateErrs := errs; meshServices := meshServices w;
     getErrs := getErrs w; createErrs := createErrs w; created := created w;
     requests := requests w; logs := logs w |}.

Definition logf (l : Level) (msg : string) (w : World) : World :=
  {| configMap := configMap w; updateErrs := updateErrs w;
     meshServices := meshServices w; getErrs := getErrs w;
     createErrs := createErrs w; created := created w; requests := requests w;
     logs := logs w ++ [ {| level := l; text := msg |} ] |}.

Definition with_requests (reqs : list Request) (w : World) : World :=
  {| configMap := configMap w; updateErrs := updateErrs w;
     meshServices := meshServices w; getErrs := getErrs w;
     createErrs := createErrs w; created := created w; requests := reqs;
     logs := logs w |}.

Record TCPPortMapping : Type := {
  table : gmap Z ServiceWithPort;
  minPort : Z;
  maxPort : Z
}.

Definition with_table (t : gmap Z ServiceWithPort) (m : TCPPortMapping) : TCPPortMapping :=
  {| table := t; minPort := minPort m; maxPort := maxPort m |}.

Inductive ParseError : Type :=
| ErrNameAndPort
| ErrPort (e : NumError).

Definition parseServiceNamePort (value : string) : result ParseError ServiceWithPort :=
  match Split ":" value with
  | s0 :: s1 :: _ =>
      match ParseInt s1 with
      | Err e => Err (ErrPort e)
      | Ok port64 =>
          match Split "/" s0 with
          | [only] =>
              Ok {| Name := only; Namespace := NamespaceDefault; Port := wrap32 port64 |}
          | sub0 :: sub1 :: _ =>
              Ok {| Name := sub1; Namespace := sub0; Port := wrap32 port64 |}
          | [] => Err ErrNameAndPort
          end
      end
  | _ => Err ErrNameAndPort
  end.

Definition formatServiceNamePort (name namespace : string) (port : Z) : string :=
  namespace +:+ "/" +:+ name +:+ ":" +:+ Itoa port.

(** The comparison in the body of [Find]. *)
Definition same_service (v svc : ServiceWithPort) : bool :=
  String.eqb (Name v) (Name svc) && String.eqb (Namespace v) (Namespace svc)
  && (Port v =? Port svc).

Definition Find `{MapRange} (m : TCPPortMapping) (svc : ServiceWithPort) : Z * bool :=
  match List.find (fun kv => same_service (snd kv) svc) (range_of (table m)) with
  | Some (port, _) => (port, true)
  | None => (0, false)
  end.

Definition Get (m : TCPPortMapping) (srcPort : Z) : option ServiceWithPort :=
  table m !! srcPort.

Inductive SaveError : Type := ErrGetConfigMap | ErrUpdateConfigMap.

(** The body of the closure given to [retry.RetryOnConflict]: every entry
    of the table is written over the data of the ConfigMap. *)
Definition upsert `{MapRange} (t : gmap Z ServiceWithPort) (data : gmap string string)
  : gmap string string :=
  fold_left
    (fun cpy kv =>
       <[ Itoa (fst kv) :=
            formatServiceNamePort (Name (snd kv)) (Namespace (snd kv)) (Port (snd kv)) ]> cpy)
    (range_of t) data.

Definition saveState `{MapRange} (m : TCPPortMapping) (w : World) : option SaveError * World :=
  match configMap w with
  | None => (Some ErrGetConfigMap, w)
  | Some data =>
      match updateErrs w with
      | true :: rest =>
          (Some ErrUpdateConfigMap, with_configMap (Some data) rest w)
      | _ =>
          (None, with_configMap (Some (upsert (table m) data)) (tail (updateErrs w)) w)
      end
  end.

(** The loop of [Add]: [i] runs from [minPort] while [i < maxPort+1]; [n]
    is the number of values of [i] left to visit. *)
Fixpoint firstFree (t : gmap Z ServiceWithPort) (n : nat) (i : Z) : option Z :=
  match n with
  | O => None
  | S n' =>
      match t !! i with
      | Some _ => firstFree t n' (i + 1)
      | None => Some i
      end
  end.

Inductive AddError : Type :=
| ErrSaveState (e : SaveError)
| ErrNoPort.

Definition Add `{MapRange} (m : TCPPortMapping) (svc : ServiceWithPort) (w : World)
  : result AddError Z * TCPPortMapping * World :=
  match firstFree (table m) (Z.to_nat (wrap32 (maxPort m + 1) - minPort m)) (minPort m) with
  | Some i =>
      let m' := with_table (<[ i := svc ]> (table m)) m in
      match saveState m' w with
      | (Some e, w') => (Err (ErrSaveState e), m', w')
      | (None, w') => (Ok i, m', w')
      end
  | None => (Err ErrNoPort, m, w)
  end.

(** One iteration of the loop of [loadState]. *)
Definition loadEntry (t : gmap Z ServiceWithPort) (kv : string * string)
  : gmap Z ServiceWithPort :=
  match ParseInt (fst kv) with
  | Err _ => t
  | Ok port =>
      match parseServiceNamePort (snd kv) with
      | Err _ => t
      | Ok svc => <[ wrap32 port := svc ]> t
      end
  end.

Inductive LoadError : Type := ErrLoadState.

Definition loadState `{MapRange} (m : TCPPortMapping) (w : World)
  : result LoadError TCPPortMapping * World :=
  match configMap w with
  | None => (Err ErrLoadState, w)
  | Some data => (Ok (with_table (fold_left loadEntry (range_of data) (table m)) m), w)
  end.

Definition NewTCPPortMapping `{MapRange} (w : World) (minPort maxPort : Z)
  : result LoadError TCPPortMapping * World :=
  loadState {| table := ∅; minPort := minPort; maxPort := maxPort |} w.

End k8s.

Import Go k8s.

(** The enumeration that [map_to_list] gives is one possible order. *)
#[export] Instance canonical_range : MapRange :=
  {| range_of := fun K _ _ V m => map_to_list m;
     range_of_perm := fun K _ _ V m => reflexivity (map_to_list m) |}.

(** ** Package controller *)

Module controller.
Import corev1.

(** What [safe.Safe.Get] returns: an [interface{}] that is [nil] until the
    first [Set], and afterwards holds a [*dynamic.Configuration] (which may
    itself be a nil pointer). *)
Inductive Interface (Configuration : Type) : Type :=
| NilInterface
| ConfigurationPtr (conf : option Configuration).
Arguments NilInterface {Configuration}.
Arguments ConfigurationPtr {Configuration} conf.

(** An entry of the deploy log, without its time stamp. *)
Record DeployRecord : Type := {
  dr_Name : string;
  dr_IP : string;
  dr_Success : bool;
  dr_Message : string
}.

(** Modelled from the spec: [DeployLog] is declared outside the sources at
    hand; the spec describes a bounded buffer that drops its oldest record
    when full, built with capacity 1000 in [Init]. *)
Definition LogDeploy (capacity : nat) (log : list DeployRecord) (r : DeployRecord)
  : list DeployRecord :=
  let l := log ++ [r] in drop (length l - capacity)%nat l.

(** The errors of the deploy functions, one for each message of the
    source. *)
Inductive DeployError : Type :=
| ErrListPods
| ErrNoPods
| ErrNoNameOrIP
| ErrMarshal (e : string)
| ErrNewRequest (e : string)
| ErrReadBody (e : string)
| ErrStatus (code : Z)
| ErrDo (e : string)
| ErrDeploying (e : DeployError).

Inductive BuildError : Type := ErrBuildConfig.

Inductive RunError : Type :=
| ErrNewTCPPortMapping (e : LoadError)
| ErrBuild (e : BuildError).

Inductive GetError : Type := ErrNotFound | ErrGet.

Inductive CreateError : Type :=
| ErrLabelSelector
| ErrListServices
| ErrCheckMeshService
| ErrCreateMeshService (e : CreateError)
| ErrGetMeshService
| ErrCreateService.

Inductive Outcome : Type :=
| Returned (err : option RunError)
| Panicked
| Selecting.

(** What a goroutine of [deployToPods] does to what it shares with the
    others: an entry in the log, a request sent with [client.Do], a record
    in the deploy log, and at its end the error it returns to the
    [errgroup]. *)
Inductive Effect : Type :=
| Logged (entry : LogEntry)
| Sent (req : Request)
| Recorded (r : DeployRecord)
| Finished (err : option DeployError).

(** A computation of a goroutine: its effects in order, and its result. *)
Definition Task (A : Type) : Type := list Effect * A.

#[export] Instance task_ret : MRet Task := fun A a => ([], a).

#[export] Instance task_bind : MBind Task :=
  fun A B f m => (m.1 ++ (f m.2).1, (f m.2).2).

Definition emit (e : Effect) : Task unit := ([e], tt).

(** [backoff.Retry(operation, b)]: the operation is run until it returns
    no error or the back-off says stop, and the result is that of its last
    run. [n] is the number of runs made before, [retries] the number of
    times that the back-off lets a failed run be followed by another. *)
Fixpoint Retry {E : Type} (operation : nat -> Task (option E)) (n retries : nat)
  : Task (option E) :=
  err ← operation n;
  match err with
  | None => mret None
  | Some e =>
      match retries with
      | O => mret (Some e)
      | S retries' => Retry operation (S n) retries'
      end
  end.

(** What is not in the hands of the controller during a fan-out: what
    [client.Do] returns at each attempt on a pod ([answers pod n] at the
    attempt of number [n], counted from 0), how many times the back-off of
    that pod's goroutine lets a failed attempt be followed by another one
    before its fifteen seconds are over, and the order in which the
    goroutines run. *)
Record Environment : Type := {
  answers : Pod -> nat -> Exchange;
  retries : Pod -> nat;
  schedule : list nat
}.

Section WithConfiguration.
Context `{MapRange} `{URL} {Configuration : Type} `{EqDecision Configuration}
  `{JSON (option Configuration)}.

(** The fields of [Controller] that the functions below read or write.
    [readiness] is the flag behind [c.api]. *)
Record Controller : Type := {
  defaultMode : string;
  meshNamespace : string;
  ignored : IgnoreWrapper;
  tcpStateTable : TCPPortMapping;
  lastConfiguration : Interface Configuration;
  readiness : bool;
  deployLog : list DeployRecord
}.

Definition with_tcpStateTable (m : TCPPortMapping) (c : Controller) : Controller :=
  {| defaultMode := defaultMode c; meshNamespace := meshNamespace c;
     ignored := ignored c; tcpStateTable := m;
     lastConfiguration := lastConfiguration c; readiness := readiness c;
     deployLog := deployLog c |}.

Definition with_lastConfiguration (i : Interface Configuration) (c : Controller)
  : Controller :=
  {| defaultMode := defaultMode c; meshNamespace := meshNamespace c;
     ignored := ignored c; tcpStateTable := tcpStateTable c;
     lastConfiguration := i; readiness := readiness c;
     deployLog := deployLog c |}.

Definition with_deployLog (l : list DeployRecord) (c : Controller) : Controller :=
  {| defaultMode := defaultMode c; meshNamespace := meshNamespace c;
     ignored := ignored c; tcpStateTable := tcpStateTable c;
     lastConfiguration := lastConfiguration c; readiness := readiness c;
     deployLog := l |}.

(** Modelled from the spec: [API.EnableReadiness] is declared outside the
    sources at hand; the spec has a readiness flag that is set once a
    deploy succeeded and never cleared. *)
Definition EnableReadiness (c : Controller) : Controller :=
  {| defaultMode := defaultMode c; meshNamespace := meshNamespace c;
     ignored := ignored c; tcpStateTable := tcpStateTable c;
     lastConfiguration := lastConfiguration c; readiness := true;
     deployLog := deployLog c |}.

(** What [NewMeshController] builds: nothing stored in
    [lastConfiguration], readiness off, an empty deploy log. *)
Definition NewMeshController (defaultMode meshNamespace : string)
    (ignored : IgnoreWrapper) : Controller :=
  {| defaultMode := defaultMode; meshNamespace := meshNamespace;
     ignored := ignored;
     tcpStateTable := {| table := ∅; minPort := 0; maxPort := 0 |};
     lastConfiguration := NilInterface; readiness := false; deployLog := [] |}.

Definition userServiceToMeshServiceName (c : Controller) (serviceName namespace : string)
  : string :=
  meshNamespace c +:+ "-" +:+ serviceName +:+ "-6d61657368-" +:+ namespace.

Definition getTCPPort (c : Controller) (serviceName serviceNamespace : string)
    (servicePort : Z) (w : World) : result AddError Z * Controller * World :=
  let svc := {| Namespace := serviceNamespace; Name := serviceName; Port := servicePort |} in
  match Find (tcpStateTable c) svc with
  | (port, true) => (Ok port, c, w)
  | (_, false) =>
      let w := logf DebugLevel
                 ("No match found for " +:+ serviceName +:+ "/" +:+ serviceNamespace
                  +:+ " " +:+ Itoa servicePort +:+ " - Add a new port") w in
      match Add (tcpStateTable c) svc w with
      | (Err e, m, w) => (Err e, with_tcpStateTable m c, w)
      | (Ok port, m, w) =>
          (Ok port, with_tcpStateTable m c,
           logf DebugLevel
             ("Service " +:+ serviceName +:+ "/" +:+ serviceNamespace +:+ " "
              +:+ Itoa servicePort +:+ " as been assigned port " +:+ Itoa port) w)
      end
  end.

Definition meshPort (sp : ServicePort) (targetPort : Z) : ServicePort :=
  {| sp_Name := sp_Name sp; sp_Protocol := ""; sp_Port := sp_Port sp;
     sp_TargetPort := targetPort |}.

(** The loop [for id, sp := range service.Spec.Ports] of
    [createMeshService]: [sps] is what is left of the slice, [id] the
    index of its head, [ports] the slice built so far. *)
Fixpoint meshPorts (serviceMode : string) (service : Service) (id : nat)
    (sps : list ServicePort) (ports : list ServicePort) (c : Controller) (w : World)
  : list ServicePort * Controller * World :=
  match sps with
  | [] => (ports, c, w)
  | sp :: rest =>
      if negb (String.eqb (sp_Protocol sp) ProtocolTCP) then
        meshPorts serviceMode service (S id) rest ports c
          (logf WarnLevel
             ("Unsupported port type: " +:+ sp_Protocol sp +:+ ", skipping port "
              +:+ sp_Name sp +:+ " on service " +:+ svc_Namespace service +:+ "/"
              +:+ svc_Name service) w)
      else if String.eqb serviceMode ServiceTypeTCP then
        match getTCPPort c (svc_Name service) (svc_Namespace service) (sp_Port sp) w with
        | (Err _, c, w) =>
            meshPorts serviceMode service (S id) rest ports c
              (logf ErrorLevel
                 ("Unable to find available TCP port, skipping port " +:+ sp_Name sp
                  +:+ " on service " +:+ svc_Namespace service +:+ "/"
                  +:+ svc_Name service) w)
        | (Ok port, c, w) =>
            meshPorts serviceMode service (S id) rest (ports ++ [meshPort sp port]) c w
        end
      else
        meshPorts serviceMode service (S id) rest
          (ports ++ [meshPort sp (wrap32 (5000 + Z.of_nat id))]) c w
  end.

Definition serviceModeOf (c : Controller) (service : Service) : string :=
  let serviceMode := default "" (svc_Annotations service !! AnnotationServiceType) in
  if String.eqb serviceMode "" then defaultMode c else serviceMode.

(** [c.ServiceLister.Services(c.meshNamespace).Get(name)], without the
    service it returns: the lister serves the mesh namespace from the cache
    of the informer, which is taken not to change during a call of the
    functions below. *)
Definition GetService (w : World) (name : string) : option GetError :=
  if decide (name ∈ meshServices w) then None
  else if decide (name ∈ getErrs w) then Some ErrGet
  else Some ErrNotFound.

(** [c.clients.CreateService]. *)
Definition CreateService (svc : Service) (w : World) : option CreateError * World :=
  match createErrs w with
  | true :: rest =>
      (Some ErrCreateService,
       {| configMap := configMap w; updateErrs := updateErrs w;
          meshServices := meshServices w; getErrs := getErrs w; createErrs := rest;
          created := created w; requests := requests w; logs := logs w |})
  | _ =>
      (None,
       {| configMap := configMap w; updateErrs := updateErrs w;
          meshServices := meshServices w; getErrs := getErrs w;
          createErrs := tail (createErrs w);
          created := created w ++ [svc]; requests := requests w; logs := logs w |})
  end.

Definition createMeshService (c : Controller) (service : Service) (w : World)
  : option CreateError * Controller * World :=
  let meshServiceName :=
    userServiceToMeshServiceName c (svc_Name service) (svc_Namespace service) in
  let w := logf DebugLevel ("Creating mesh service: " +:+ meshServiceName) w in
  match GetService w meshServiceName with
  | Some ErrNotFound =>
      let serviceMode := serviceModeOf c service in
      let '(ports, c, w) := meshPorts serviceMode service 0 (svc_Ports service) [] c w in
      let svc :=
        {| svc_Name := meshServiceName; svc_Namespace := meshNamespace c;
           svc_Labels := {[ "app" := "maesh" ]}; svc_Annotations := ∅;
           svc_Ports := ports; svc_Selector := {[ "component" := "maesh-mesh" ]} |} in
      let '(err, w) := CreateService svc w in
      (err, c, w)
  | Some ErrGet => (Some ErrGetMeshService, c, w)
  | None => (None, c, w)
  end.

(** The loop [for _, service := range svcs] of [createMeshServices]. *)
Fixpoint createEach (c : Controller) (svcs : list Service) (w : World)
  : option CreateError * Controller * World :=
  match svcs with
  | [] => (None, c, w)
  | service :: rest =>
      if IsIgnored (ignored c) service then createEach c rest w
      else
        let w := logf DebugLevel ("Creating mesh for service: " +:+ svc_Name service) w in
        let meshServiceName :=
          userServiceToMeshServiceName c (svc_Name service) (svc_Namespace service) in
        match GetService w meshServiceName with
        | None => createEach c rest w
        | Some ErrGet => (Some ErrCheckMeshService, c, w)
        | Some ErrNotFound =>
            let w := logf InfoLevel
                       ("Creating associated mesh service: " +:+ meshServiceName) w in
            match createMeshService c service w with
            | (Some e, c, w) => (Some (ErrCreateMeshService e), c, w)
            | (None, c, w) => createEach c rest w
            end
        end
  end.

(** [createMeshServices]: [listed] is what [c.ServiceLister.List(sel)]
    returns. *)
Definition createMeshServices (c : Controller) (listed : result unit (list Service))
    (w : World) : option CreateError * Controller * World :=
  match LabelSelector (ignored c) with
  | Some _ => (Some ErrLabelSelector, c, w)
  | None =>
      match listed with
      | Err _ => (Some ErrListServices, c, w)
      | Ok svcs => createEach c svcs w
      end
  end.

(** How [c.clients.UpdateService] ends. *)
Inductive UpdateOutcome : Type := UpdateOK | UpdateConflict | UpdateFailed.

Inductive UpdateError : Type := ErrGetService | ErrConflict | ErrUpdateService.

(** The loop [for id, sp := range newUserService.Spec.Ports] of
    [updateMeshService]: the loop of [createMeshService] again, a failed
    [getTCPPort] being logged as a warning. *)
Fixpoint updatePorts (serviceMode : string) (service : Service) (id : nat)
    (sps : list ServicePort) (ports : list ServicePort) (c : Controller) (w : World)
  : list ServicePort * Controller * World :=
  match sps with
  | [] => (ports, c, w)
  | sp :: rest =>
      if negb (String.eqb (sp_Protocol sp) ProtocolTCP) then
        updatePorts serviceMode service (S id) rest ports c
          (logf WarnLevel
             ("Unsupported port type: " +:+ sp_Protocol sp +:+ ", skipping port "
              +:+ sp_Name sp +:+ " on service " +:+ svc_Namespace service +:+ "/"
              +:+ svc_Name service) w)
      else if String.eqb serviceMode ServiceTypeTCP then
        match getTCPPort c (svc_Name service) (svc_Namespace service) (sp_Port sp) w with
        | (Err _, c, w) =>
            updatePorts serviceMode service (S id) rest ports c
              (logf WarnLevel
                 ("Unable to find available TCP port, skipping port " +:+ sp_Name sp
                  +:+ " on service " +:+ svc_Namespace service +:+ "/"
                  +:+ svc_Name service) w)
        | (Ok port, c, w) =>
            updatePorts serviceMode service (S id) rest (ports ++ [meshPort sp port]) c w
        end
      else
        updatePorts serviceMode service (S id) rest
          (ports ++ [meshPort sp (wrap32 (5000 + Z.of_nat id))]) c w
  end.

Definition with_Ports (ports : list ServicePort) (svc : Service) : Service :=
  {| svc_Name := svc_Name svc; svc_Namespace := svc_Namespace svc;
     svc_Labels := svc_Labels svc; svc_Annotations := svc_Annotations svc;
     svc_Ports := ports; svc_Selector := svc_Selector svc |}.

(** The closure that [updateMeshService] gives to [retry.RetryOnConflict],
    which runs it until it ends otherwise than on a conflict, [steps] times
    at most ([retry.DefaultRetry] has five steps). [current] is the mesh
    service as the lister holds it, [outcomes] how the coming
    [UpdateService] calls end. *)
Fixpoint updateAttempts (steps : nat) (c : Controller) (meshServiceName : string)
    (current newUserService : Service) (outcomes : list UpdateOutcome) (w : World)
  : result UpdateError Service * Controller * World :=
  match steps with
  | O => (Err ErrConflict, c, w)
  | S steps' =>
      match GetService w meshServiceName with
      | Some _ => (Err ErrGetService, c, w)
      | None =>
          let serviceMode := serviceModeOf c newUserService in
          let '(ports, c, w) :=
            updatePorts serviceMode newUserService 0 (svc_Ports newUserService) [] c w in
          let newService := with_Ports ports current in
          match outcomes with
          | UpdateConflict :: later =>
              updateAttempts steps' c meshServiceName current newUserService later w
          | UpdateFailed :: _ => (Err ErrUpdateService, c, w)
          | _ => (Ok newService, c, w)
          end
      end
  end.

Definition updateMeshService (c : Controller) (current oldUserService newUserService : Service)
    (outcomes : list UpdateOutcome) (w : World)
  : result UpdateError Service * Controller * World :=
  let meshServiceName :=
    userServiceToMeshServiceName c (svc_Name oldUserService) (svc_Namespace oldUserService) in
  match updateAttempts 5 c meshServiceName current newUserService outcomes w with
  | (Err e, c, w) => (Err e, c, w)
  | (Ok updatedSvc, c, w) =>
      (Ok updatedSvc, c,
       logf DebugLevel ("Updated service: " +:+ meshNamespace c +:+ "/" +:+ meshServiceName) w)
  end.

(** [deployToPod], one attempt: [answer] is what [client.Do] returns. The
    record that [c.deployLog.LogDeploy] takes is an effect, as are the
    request and the log entry. *)
Definition deployToPod (name ip : string) (config : option Configuration) (answer : Exchange)
  : Task (option DeployError) :=
  if String.eqb name "" || String.eqb ip "" then mret (Some ErrNoNameOrIP)
  else
    match Marshal config with
    | Err e => mret (Some (ErrMarshal e))
    | Ok b =>
        let url := "http://" +:+ ip +:+ ":8080/api/providers/rest" in
        match NewRequest "PUT" url b with
        | Err e => mret (Some (ErrNewRequest e))
        | Ok req =>
            let record success msg :=
              emit (Recorded {| dr_Name := name; dr_IP := ip; dr_Success := success;
                                dr_Message := msg |}) in
            let checkErr : Task (option DeployError) :=
              match do_err answer with
              | Some e =>
                  record false ("unable to deploy configuration: " +:+ e);;
                  mret (Some (ErrDo e))
              | None =>
                  record true "";;
                  emit (Logged {| level := DebugLevel;
                                  text := "Successfully deployed configuration to pod ("
                                          +:+ name +:+ ":" +:+ ip +:+ ")" |});;
                  mret None
              end in
            emit (Sent req);;
            match do_resp answer with
            | Some resp =>
                match bodyErr resp with
                | Some e =>
                    record false ("unable to read response body: " +:+ e);;
                    mret (Some (ErrReadBody e))
                | None =>
                    if negb (StatusCode resp =? StatusOK) then
                      record false
                        ("received non-ok response code: " +:+ Itoa (StatusCode resp));;
                      mret (Some (ErrStatus (StatusCode resp)))
                    else checkErr
                end
            | None => checkErr
            end
        end
    end.

(** The goroutine that [deployToPods] starts for a pod: [deployToPod] under
    [backoff.Retry], and the error that goes to the group. *)
Definition goroutine (pod : Pod) (config : option Configuration) (env : Environment)
  : list Effect :=
  let '(effects, err) :=
    Retry (fun n => deployToPod (pod_Name pod) (pod_PodIP pod) config (answers env pod n))
      0 (retries env pod) in
  effects ++ [Finished err].

(** An effect takes place. The first component is the error of the
    [errgroup], which keeps the first one that a goroutine returns. *)
Definition perform (st : option DeployError * Controller * World) (e : Effect)
  : option DeployError * Controller * World :=
  let '(err, c, w) := st in
  match e with
  | Logged entry => (err, c, logf (level entry) (text entry) w)
  | Sent req => (err, c, with_requests (requests w ++ [req]) w)
  | Recorded r => (err, with_deployLog (LogDeploy 1000 (deployLog c) r) c, w)
  | Finished err' => (match err with Some _ => err | None => err' end, c, w)
  end.

(** [deployToPods]: the loop logs and starts a goroutine for each pod, and
    [errg.Wait()] returns the error of the group once all are over. *)
Definition deployToPods (c : Controller) (pods : list Pod) (config : option Configuration)
    (env : Environment) (w : World) : option DeployError * Controller * World :=
  let start (pod : Pod) :=
    (Logged {| level := DebugLevel;
               text := "Deploying to pod " +:+ pod_Name pod +:+ " with IP "
                       +:+ pod_PodIP pod |},
     goroutine pod config env) in
  fold_left perform (interleave (schedule env) (start <$> pods) []) (None, c, w).

(** [deployConfiguration]: [podList] is what the pod lister returns for the
    selector [component=maesh-mesh], which [labels.NewRequirement] always
    builds from these constants. *)
Definition deployConfiguration (c : Controller) (config : option Configuration)
    (podList : result unit (list Pod)) (env : Environment) (w : World)
  : option DeployError * Controller * World :=
  match podList with
  | Err _ => (Some ErrListPods, c, w)
  | Ok [] => (Some ErrNoPods, c, w)
  | Ok pods =>
      match deployToPods c pods config env w with
      | (Some e, c, w) => (Some (ErrDeploying e), c, w)
      | (None, c, w) => (None, c, w)
      end
  end.

Definition unready (pod : Pod) : bool :=
  existsb negb (pod_ContainerStatuses pod).

Definition deployConfigurationToUnreadyNodes (c : Controller)
    (config : option Configuration) (podList : result unit (list Pod))
    (env : Environment) (w : World) : option DeployError * Controller * World :=
  match podList with
  | Err _ => (Some ErrListPods, c, w)
  | Ok [] => (Some ErrNoPods, c, w)
  | Ok pods =>
      match deployToPods c (List.filter unready pods) config env w with
      | (Some e, c, w) => (Some (ErrDeploying e), c, w)
      | (None, c, w) => (None, c, w)
      end
  end.

(** What [select] receives in one turn of the loop of [Run], with what
    comes from outside during that turn: the result of
    [provider.BuildConfig], the pods that the lister returns, and the
    environment of the fan-out. *)
Inductive Event : Type :=
| Stop
| Refresh (message : string) (build : result BuildError (option Configuration))
    (podList : result unit (list Pod)) (env : Environment)
| Tick (podList : result unit (list Pod)) (env : Environment).

(** [reflect.DeepEqual(c.lastConfiguration.Get(), conf)] *)
Definition DeepEqual (last : Interface Configuration) (conf : option Configuration) : bool :=
  match last with
  | NilInterface => false
  | ConfigurationPtr p => bool_decide (p = conf)
  end.

(** One turn of the [for] loop of [Run]: [inl] when the loop goes on,
    [inr] when [Run] is left. *)
Definition turn (c : Controller) (w : World) (ev : Event)
  : (Controller * World) + (Outcome * Controller * World) :=
  match ev with
  | Stop => inr (Returned None, c, logf InfoLevel "Shutting down workers" w)
  | Refresh message build podList env =>
      match build with
      | Err confErr => inr (Returned (Some (ErrBuild confErr)), c, w)
      | Ok conf =>
          if String.eqb message ConfigMessageChanForce
             || negb (DeepEqual (lastConfiguration c) conf)
          then
            let c := with_lastConfiguration (ConfigurationPtr conf) c in
            match deployConfiguration c conf podList env w with
            | (Some _, c, w) => inl (c, w)
            | (None, c, w) => inl (EnableReadiness c, w)
            end
          else inl (c, w)
      end
  | Tick podList env =>
      let w := logf DebugLevel "Deploying configuration to unready nodes" w in
      match lastConfiguration c with
      | NilInterface => inr (Panicked, c, w)
      | ConfigurationPtr conf =>
          match deployConfigurationToUnreadyNodes c conf podList env w with
          | (Some _, c, w) => inl (c, w)
          | (None, c, w) => inl (EnableReadiness c, w)
          end
      end
  end.

(** The loop of [Run] over the events that arrive; when they are used up
    the loop is waiting in [select]. *)
Fixpoint loop (c : Controller) (w : World) (events : list Event)
  : Outcome * Controller * World :=
  match events with
  | [] => (Selecting, c, w)
  | ev :: rest =>
      match turn c w ev with
      | inl (c, w) => loop c w rest
      | inr out => out
      end
  end.

(** [startInformers]: the factories are started and their caches awaited;
    a cache that is late is only logged, which is left out here. *)
Definition startInformers (w : World) : World :=
  logf DebugLevel "Starting Informers" w.

(** [Run]: [listed] is what the service lister returns for
    [createMeshServices]. *)
Definition Run (c : Controller) (w : World) (listed : result unit (list Service))
    (events : list Event) : Outcome * Controller * World :=
  let w := logf DebugLevel "Initializing Mesh controller" w in
  let w := startInformers w in
  match NewTCPPortMapping w 10000 10100 with
  | (Err e, w) => (Returned (Some (ErrNewTCPPortMapping e)), c, w)
  | (Ok m, w) =>
      let c := with_tcpStateTable m c in
      let w := logf InfoLevel "Creating initial mesh services" w in
      let '(err, c, w) := createMeshServices c listed w in
      let w := match err with
               | Some _ => logf ErrorLevel "could not create mesh services" w
               | None => w
               end in
      loop c w events
  end.

End WithConfiguration.

Arguments Controller Configuration : clear implicits.
Arguments Event Configuration : clear implicits.

End controller.

Import corev1 controller.

(** The enumeration in the opposite order is another one. *)
Definition reversed_range : MapRange :=
  {| range_of := fun K _ _ V m => reverse (map_to_list m);
     range_of_perm := fun K _ _ V m => reverse_Permutation (map_to_list m) |}.

Definition world0 (data : list (string * string)) : World :=
  {| configMap := Some (list_to_map data); updateErrs := []; meshServices := ∅;
     getErrs := ∅; createErrs := []; created := []; requests := []; logs := [] |}.

(** ** Vocabulary of the properties *)

Definition is_digit (c : ascii) : bool :=
  match digit_of c with Some _ => true | None => false end.

(** The number that a run of decimal digits writes, after [acc]. *)
Fixpoint parse_digits (acc : Z) (s : string) : option Z :=
  match s with
  | EmptyString => Some acc
  | String c rest =>
      match digit_of c with
      | Some d => parse_digits (acc * 10 + d) rest
      | None => None
      end
  end.

(** The two invariants of a port assignment. *)
Definition in_range (m : TCPPortMapping) : Prop :=
  forall p svc, table m !! p = Some svc -> minPort m <= p <= maxPort m.

Definition injective (m : TCPPortMapping) : Prop :=
  forall p q svc, table m !! p = Some svc -> table m !! q = Some svc -> p = q.

Definition PortAssignment (m : TCPPortMapping) : Prop := in_range m /\ injective m.

(** [p] is the lowest port of the range that the table does not hold. *)
Definition lowest_free (m : TCPPortMapping) (p : Z) : Prop :=
  minPort m <= p <= maxPort m /\ table m !! p = None
  /\ forall q, minPort m <= q < p -> is_Some (table m !! q).

(** Every port of the range is assigned. *)
Definition range_full (m : TCPPortMapping) : Prop :=
  forall q, minPort m <= q <= maxPort m -> is_Some (table m !! q).

(** The entries of a ConfigMap that [loadState] can read. *)
Definition readable (data : gmap string string) (p : Z) (svc : ServiceWithPort) : Prop :=
  exists k v port, data !! k = Some v /\ ParseInt k = Ok port /\ wrap32 port = p
                   /\ parseServiceNamePort v = Ok svc.

Definition parseable (kv : string * string) : bool :=
  is_ok (ParseInt (fst kv)) && is_ok (parseServiceNamePort (snd kv)).

Definition db : ServiceWithPort := {| Namespace := "default"; Name := "db"; Port := 5432 |}.

Definition mapping0 : TCPPortMapping := {| table := ∅; minPort := 10000; maxPort := 10100 |}.

Definition isTCP (sp : ServicePort) : bool := String.eqb (sp_Protocol sp) ProtocolTCP.

(** The ref that [getTCPPort] looks up for the port [sp] of [service]. *)
Definition ref_of (service : Service) (sp : ServicePort) : ServiceWithPort :=
  {| Namespace := svc_Namespace service; Name := svc_Name service; Port := sp_Port sp |}.

(** The ports of a service whose mode is not [tcp], written from the
    positions: the entry of the TCP port at index [id] targets [5000 + id]. *)
Definition positional_ports (sps : list ServicePort) : list ServicePort :=
  omap (fun '(id, sp) => if isTCP sp then Some (meshPort sp (5000 + Z.of_nat id)) else None)
       (imap pair sps).

(** The log entries of the non-TCP ports. *)
Definition unsupported_entries (service : Service) (sps : list ServicePort) : list LogEntry :=
  omap (fun sp =>
          if isTCP sp then None
          else Some {| level := WarnLevel;
                       text := "Unsupported port type: " +:+ sp_Protocol sp
                               +:+ ", skipping port " +:+ sp_Name sp +:+ " on service "
                               +:+ svc_Namespace service +:+ "/" +:+ svc_Name service |})
       sps.

Definition add_logs (es : list LogEntry) (w : World) : World :=
  {| configMap := configMap w; updateErrs := updateErrs w;
     meshServices := meshServices w; getErrs := getErrs w;
     createErrs := createErrs w; created := created w; requests := requests w;
     logs := logs w ++ es |}.

Definition port_key (sp : ServicePort) : string * Z := (sp_Name sp, sp_Port sp).




Definition no_error {E} (e : option E) : bool :=
  match e with None => true | Some _ => false end.

(** *** The fan-out *)

(** [deployToPod] takes what [client.Do] returned for a success: a
    response, if there is one, whose body can be read and whose status is
    200, and no error. *)
Definition accepted (a : Exchange) : bool :=
  match do_resp a with
  | Some resp =>
      match bodyErr resp with
      | Some _ => false
      | None => StatusCode resp =? 200
      end
  | None => true
  end
  && match do_err a with Some _ => false | None => true end.

(** The message of the record that an attempt leaves. *)
Definition message_of (a : Exchange) : string :=
  let of_err :=
    match do_err a with
    | Some e => "unable to deploy configuration: " +:+ e
    | None => ""
    end in
  match do_resp a with
  | Some resp =>
      match bodyErr resp with
      | Some e => "unable to read response body: " +:+ e
      | None =>
          if StatusCode resp =? 200 then of_err
          else "received non-ok response code: " +:+ Itoa (StatusCode resp)
      end
  | None => of_err
  end.

Definition record_of (pod : Pod) (a : Exchange) : DeployRecord :=
  {| dr_Name := pod_Name pod; dr_IP := pod_PodIP pod; dr_Success := accepted a;
     dr_Message := message_of a |}.

(** The answers to the attempts that the back-off allows on a pod, and to
    those that are made: the attempts stop at the first answer that is
    accepted. *)
Definition allowed (env : Environment) (pod : Pod) : list Exchange :=
  answers env pod <$> seq 0 (S (retries env pod)).

Definition upto_accepted (l : list Exchange) : list Exchange :=
  match list_find (fun a => accepted a = true) l with
  | Some (i, _) => take (S i) l
  | None => l
  end.

Definition attempts (env : Environment) (pod : Pod) : list Exchange :=
  upto_accepted (allowed env pod).

Definition deploying_entry (pod : Pod) : LogEntry :=
  {| level := DebugLevel;
     text := "Deploying to pod " +:+ pod_Name pod +:+ " with IP " +:+ pod_PodIP pod |}.

Definition deployed_entry (pod : Pod) : LogEntry :=
  {| level := DebugLevel;
     text := "Successfully deployed configuration to pod (" +:+ pod_Name pod +:+ ":"
             +:+ pod_PodIP pod +:+ ")" |}.

Definition sent_of (e : Effect) : option Request :=
  match e with Sent req => Some req | _ => None end.

Definition recorded_of (e : Effect) : option DeployRecord :=
  match e with Recorded r => Some r | _ => None end.

Definition logged_of (e : Effect) : option LogEntry :=
  match e with Logged entry => Some entry | _ => None end.

Definition failure_of (e : Effect) : option DeployError :=
  match e with Finished (Some err) => Some err | _ => None end.

Section FanOutDefinitions.
Context `{URL} {Configuration : Type} `{JSON (option Configuration)}.

(** The request of a push to a pod, when one can be made: the pod has a
    name and an address, the configuration has a JSON form and the address
    of the pod parses. *)
Definition push_request (conf : option Configuration) (pod : Pod) : option Request :=
  if String.eqb (pod_Name pod) "" || String.eqb (pod_PodIP pod) "" then None
  else
    match Marshal conf with
    | Err _ => None
    | Ok b =>
        let url := "http://" +:+ pod_PodIP pod +:+ ":8080/api/providers/rest" in
        match url_Parse url with
        | Some _ => None
        | None => Some {| req_Method := "PUT"; req_URL := url; req_Body := b |}
        end
    end.

(** The pod took the configuration: a push can be made, and one of the
    attempts that the back-off allows is accepted. *)
Definition delivered (conf : option Configuration) (env : Environment) (pod : Pod) : bool :=
  match push_request conf pod with
  | Some _ => existsb accepted (allowed env pod)
  | None => false
  end.

(** What the goroutine of a pod sends, records and logs: one request and
    one record for each attempt made, in their order, and an entry for the
    attempt that is accepted. *)
Definition pushes (conf : option Configuration) (env : Environment) (pod : Pod)
  : list Request :=
  match push_request conf pod with
  | Some req => (fun _ => req) <$> attempts env pod
  | None => []
  end.

Definition records_of (conf : option Configuration) (env : Environment) (pod : Pod)
  : list DeployRecord :=
  match push_request conf pod with
  | Some _ => record_of pod <$> attempts env pod
  | None => []
  end.

(** What a fan-out on a pod adds to the log. *)
Definition entries_of (conf : option Configuration) (env : Environment) (pod : Pod)
  : list LogEntry :=
  deploying_entry pod :: if delivered conf env pod then [deployed_entry pod] else [].

(** The effects of one attempt that sends [req], in their order. *)
Definition attempt_effects (pod : Pod) (req : Request) (a : Exchange) : list Effect :=
  Sent req :: Recorded (record_of pod a)
  :: if accepted a then [Logged (deployed_entry pod)] else [].

(** The deploy call of a refresh, and that of a tick, return no error:
    pods are listed, and each of them, for the tick each unready one, took
    the configuration. *)
Definition fan_out_ok (conf : option Configuration) (env : Environment)
    (podList : result unit (list Pod)) : bool :=
  match podList with
  | Ok (pod :: pods) => forallb (delivered conf env) (pod :: pods)
  | _ => false
  end.

Definition laggards_ok (conf : option Configuration) (env : Environment)
    (podList : result unit (list Pod)) : bool :=
  match podList with
  | Ok (pod :: pods) => forallb (delivered conf env) (List.filter unready (pod :: pods))
  | _ => false
  end.

End FanOutDefinitions.

(** The pods that a deploy call has to push to. *)
Definition pods_of (podList : result unit (list Pod)) : list Pod :=
  match podList with
  | Ok pods => pods
  | Err _ => []
  end.

Definition laggards (podList : result unit (list Pod)) : list Pod :=
  List.filter unready (pods_of podList).

(** The two worlds differ by their logs and by the requests sent at
    most. *)
Definition same_cluster (w w' : World) : Prop :=
  configMap w' = configMap w /\ updateErrs w' = updateErrs w
  /\ meshServices w' = meshServices w /\ createErrs w' = createErrs w
  /\ created w' = created w /\ getErrs w' = getErrs w.

Section LoopDefinitions.
Context `{MapRange} `{URL} {Configuration : Type} `{EqDecision Configuration}
  `{JSON (option Configuration)}.

(** A refresh that built [conf] goes on to deploy it. *)
Definition deploys (c : Controller Configuration) (message : string)
    (conf : option Configuration) : bool :=
  String.eqb message ConfigMessageChanForce || negb (DeepEqual (lastConfiguration c) conf).

(** The turn on [ev] calls a deploy function and that call returns no
    error. *)
Definition deploy_succeeds (c : Controller Configuration) (ev : Event Configuration) : bool :=
  match ev with
  | Stop => false
  | Refresh message (Err _) _ _ => false
  | Refresh message (Ok conf) podList env => deploys c message conf && fan_out_ok conf env podList
  | Tick podList env =>
      match lastConfiguration c with
      | NilInterface => false
      | ConfigurationPtr conf => laggards_ok conf env podList
      end
  end.

(** The state in which the loop waits once it went through [events], if it
    is still running. *)
Fixpoint after (c : Controller Configuration) (w : World) (events : list (Event Configuration))
  : option (Controller Configuration * World) :=
  match events with
  | [] => Some (c, w)
  | ev :: rest =>
      match turn c w ev with
      | inl (c, w) => after c w rest
      | inr _ => None
      end
  end.

(** The fields of the controller other than the deploy log are the same. *)
Definition same_but_deployLog (c c' : Controller Configuration) : Prop :=
  readiness c' = readiness c /\ lastConfiguration c' = lastConfiguration c
  /\ tcpStateTable c' = tcpStateTable c /\ defaultMode c' = defaultMode c
  /\ meshNamespace c' = meshNamespace c /\ ignored c' = ignored c.

(** Only the port mapping differs. *)
Definition same_but_table (c c' : Controller Configuration) : Prop :=
  readiness c' = readiness c /\ lastConfiguration c' = lastConfiguration c
  /\ deployLog c' = deployLog c /\ defaultMode c' = defaultMode c
  /\ meshNamespace c' = meshNamespace c /\ ignored c' = ignored c.

(** [c'] and [w'] are [c] and [w] after a fan-out of [conf] to [pods]:
    the deploy log took the records of the attempts made on the pods, the
    pods were sent their requests and the log took its entries, in an order
    that keeps that of each pod's attempts and that of the loop over the
    pods; nothing else changed. *)
Definition fanned_out (conf : option Configuration) (env : Environment) (pods : list Pod)
    (c : Controller Configuration) (w : World) (c' : Controller Configuration) (w' : World)
  : Prop :=
  same_but_deployLog c c' /\ same_cluster w w'
  /\ (exists records,
        deployLog c' = fold_left (LogDeploy 1000) records (deployLog c)
        /\ records ≡ₚ concat (records_of conf env <$> pods)
        /\ Forall (fun pod => records_of conf env pod `sublist_of` records) pods)
  /\ (exists sent,
        requests w' = requests w ++ sent
        /\ sent ≡ₚ concat (pushes conf env <$> pods))
  /\ (exists entries,
        logs w' = logs w ++ entries
        /\ entries ≡ₚ concat (entries_of conf env <$> pods)
        /\ (deploying_entry <$> pods) `sublist_of` entries).

(** What a turn keeps, whether the loop goes on after it or not. *)
Definition turn_keeps (c : Controller Configuration) (w : World)
    (c' : Controller Configuration) (w' : World) : Prop :=
  tcpStateTable c' = tcpStateTable c /\ same_cluster w w'
  /\ (readiness c = true -> readiness c' = true)
  /\ (lastConfiguration c <> NilInterface -> lastConfiguration c' <> NilInterface).

End LoopDefinitions.

(** A ref that the persistence format can carry: no [:] and no [/] in its
    namespace and name, a port of type [int32]. *)
Definition valid_ref (svc : ServiceWithPort) : Prop :=
  contains_char ":" (Namespace svc) = false /\ contains_char "/" (Namespace svc) = false
  /\ contains_char ":" (Name svc) = false /\ contains_char "/" (Name svc) = false
  /\ in_int32 (Port svc).

(** Every key of the data that reads as a number is written the way [Itoa]
    writes that number. *)
Definition canonical_keys (data : gmap string string) : Prop :=
  forall k v port, data !! k = Some v -> ParseInt k = Ok port -> k = Itoa port.

(** The second world has the mesh services, the created services and the
    coming [CreateService] outcomes of the first. *)
Definition keeps_services (w w' : World) : Prop :=
  meshServices w' = meshServices w /\ createErrs w' = createErrs w
  /\ created w' = created w /\ getErrs w' = getErrs w.

(** The user services for which [createMeshServices] has a mesh service to
    create: not ignored, and without a mesh service in the lister. *)
Definition wanted {Configuration : Type} (c : Controller Configuration) (w : World)
    (u : Service) : bool :=
  negb (IsIgnored (ignored c) u)
  && negb (bool_decide (userServiceToMeshServiceName c (svc_Name u) (svc_Namespace u)
                        ∈ meshServices w)).

(** [s] has the name, namespace, label and selector of the mesh service of
    the user service [u]. *)
Definition mesh_service_of {Configuration : Type} (c : Controller Configuration)
    (u s : Service) : Prop :=
  svc_Name s = userServiceToMeshServiceName c (svc_Name u) (svc_Namespace u)
  /\ svc_Namespace s = meshNamespace c
  /\ svc_Labels s = {[ "app" := "maesh" ]}
  /\ svc_Selector s = {[ "component" := "maesh-mesh" ]}.

(** ** Concrete states used in examples *)

(** In the examples every address parses and a configuration has no
    content. *)
#[export] Instance any_url : URL := fun _ => None.

#[export] Instance unit_json : JSON (option unit) := fun _ => Ok "{}".

Definition nothing_ignored : IgnoreWrapper :=
  {| IsIgnored := fun _ => false; LabelSelector := None |}.

Definition controller0 : Controller unit :=
  with_tcpStateTable mapping0 (NewMeshController "http" "maesh" nothing_ignored).

(** A world in which the next [Update] of the ConfigMap fails. *)
Definition world_update_fails : World :=
  {| configMap := Some ∅; updateErrs := [true]; meshServices := ∅; getErrs := ∅;
     createErrs := []; created := []; requests := []; logs := [] |}.

Definition podA : Pod :=
  {| pod_Name := "maesh-mesh-a"; pod_PodIP := "10.0.0.1"; pod_ContainerStatuses := [true] |}.

(** The pod answers every request with the status 200. *)
Definition ok_answer : Exchange :=
  {| do_resp := Some {| StatusCode := 200; bodyErr := None |}; do_err := None |}.

(** The connection is refused. *)
Definition refused : Exchange :=
  {| do_resp := None; do_err := Some "connection refused" |}.

(** Every pod accepts at once, and the goroutines run one after the
    other. *)
Definition all_accept : Environment :=
  {| answers := fun _ _ => ok_answer; retries := fun _ => 7%nat; schedule := [] |}.

(** No pod can be reached; the back-off lets each goroutine make eight
    attempts. *)
Definition unreachable : Environment :=
  {| answers := fun _ _ => refused; retries := fun _ => 7%nat; schedule := [] |}.

(** * Properties *)

(** ** The definitions on concrete values *)

Example parse_new_form :
  parseServiceNamePort "default/db:5432"
  = Ok {| Namespace := "default"; Name := "db"; Port := 5432 |}.
Proof. reflexivity. Qed.

Example format_db : formatServiceNamePort "db" "default" 5432 = "default/db:5432".
Proof. reflexivity. Qed.

Example itoa_neg : Itoa (-120) = "-120".
Proof. reflexivity. Qed.

Example add_first :
  (Add {| table := ∅; minPort := 10000; maxPort := 10100 |}
       {| Namespace := "default"; Name := "db"; Port := 5432 |} (world0 [])).1.1
  = Ok 10000.
Proof. vm_compute. reflexivity. Qed.

Example add_persists :
  configMap (Add {| table := ∅; minPort := 10000; maxPort := 10100 |}
       {| Namespace := "default"; Name := "db"; Port := 5432 |} (world0 [])).2
  = Some {[ "10000" := "default/db:5432" ]}.
Proof. vm_compute. reflexivity. Qed.

(** After a restart the port mapping is read back from what [Add] saved. *)
Example restart_keeps_port :
  let saved := (Add mapping0 db (world0 [])).2 in
  match NewTCPPortMapping saved 10000 10100 with
  | (Ok m, _) => Find m db = (10000, true)
  | (Err _, _) => False
  end.
Proof. vm_compute. reflexivity. Qed.

(** ** Integers and strings *)

Section GoFacts.

Lemma wrap32_id z : in_int32 z -> wrap32 z = z.
Proof.
  unfold in_int32, int32_min, int32_max, wrap32. intros Hz.
  rewrite Z.mod_small by lia. lia.
Qed.

Lemma append_empty_r s : s +:+ "" = s.
Proof. induction s as [|c s IH]; [done |]. change (String c (s +:+ "") = String c s). by rewrite IH. Qed.

Lemma append_assoc s1 s2 s3 : (s1 +:+ s2) +:+ s3 = s1 +:+ (s2 +:+ s3).
Proof.
  induction s1 as [|c s1 IH]; [done |].
  change (String c ((s1 +:+ s2) +:+ s3) = String c (s1 +:+ (s2 +:+ s3))). by rewrite IH.
Qed.

Lemma contains_char_app c s1 s2 :
  contains_char c (s1 +:+ s2) = contains_char c s1 || contains_char c s2.
Proof.
  induction s1 as [|c' s1 IH]; simpl; [done |].
  rewrite IH. by rewrite orb_assoc.
Qed.

Lemma all_chars_app p s1 s2 :
  all_chars p (s1 +:+ s2) = all_chars p s1 && all_chars p s2.
Proof.
  induction s1 as [|c' s1 IH]; simpl; [done |].
  rewrite IH. by rewrite andb_assoc.
Qed.

Lemma all_chars_contains p c s :
  all_chars p s = true -> p c = false -> contains_char c s = false.
Proof.
  intros Hall Hc. induction s as [|c' s IH]; simpl in *; [done |].
  apply andb_true_iff in Hall as [Hc' Hs].
  rewrite (IH Hs), orb_false_r.
  destruct (Ascii.eqb_spec c' c) as [->|]; [congruence | done].
Qed.

Lemma Split_nonempty sep s : Split sep s <> [].
Proof.
  destruct s as [|c s]; simpl; [done |].
  destruct (Ascii.eqb c sep); [done |]. by destruct (Split sep s).
Qed.

(** Without the separator there is one piece: the string itself. *)
Lemma Split_absent sep s : contains_char sep s = false -> Split sep s = [s].
Proof.
  induction s as [|c s IH]; simpl; [done |].
  intros [Hc Hs]%orb_false_iff. rewrite Hc, (IH Hs). done.
Qed.

(** The first piece ends at the first separator. *)
Lemma Split_first sep a b :
  contains_char sep a = false ->
  Split sep (a +:+ String sep b) = a :: Split sep b.
Proof.
  induction a as [|c a IH]; simpl.
  - intros _. by rewrite Ascii.eqb_refl.
  - intros [Hc Ha]%orb_false_iff. rewrite Hc, (IH Ha). done.
Qed.

Lemma digit_of_digit_char d : 0 <= d <= 9 -> digit_of (digit_char d) = Some d.
Proof.
  intros Hd.
  assert (d = 0 \/ d = 1 \/ d = 2 \/ d = 3 \/ d = 4 \/ d = 5 \/ d = 6 \/ d = 7
          \/ d = 8 \/ d = 9) as Hcases by lia.
  repeat (destruct Hcases as [-> | Hcases]; [reflexivity |]). by subst.
Qed.

Lemma parse_digits_app s1 s2 acc :
  parse_digits acc (s1 +:+ s2)
  = match parse_digits acc s1 with Some v => parse_digits v s2 | None => None end.
Proof.
  revert acc. induction s1 as [|c s1 IH]; intros acc; simpl; [done |].
  destruct (digit_of c); [apply IH | done].
Qed.

(** The digit loop writes a non-empty run of digits in front of [acc];
    read back, the run is [n]. *)
Lemma format_digits_spec fuel : forall n acc,
  0 <= n < 2 ^ Z.of_nat (S fuel) ->
  exists ds, format_digits (S fuel) n acc = ds +:+ acc
             /\ ds <> "" /\ all_chars is_digit ds = true
             /\ parse_digits 0 ds = Some n.
Proof.
  assert (Hlast : forall n, 0 <= n -> n / 10 = 0 ->
            all_chars is_digit (String (digit_char (n mod 10)) "") = true
            /\ parse_digits 0 (String (digit_char (n mod 10)) "") = Some n).
  { intros n Hn Hq. assert (n < 10) by (apply Z.div_small_iff in Hq; lia).
    simpl. unfold is_digit. rewrite digit_of_digit_char by (rewrite Z.mod_small; lia).
    rewrite Z.mod_small by lia. done. }
  induction fuel as [|fuel IH]; intros n acc Hn.
  - assert (n / 10 = 0) as Hq by (apply Z.div_small; simpl in Hn; lia).
    simpl. rewrite Hq. simpl.
    exists (String (digit_char (n mod 10)) ""). destruct (Hlast n) as [? ?]; [lia | done |].
    done.
  - change (format_digits (S (S fuel)) n acc)
      with (if n / 10 =? 0 then String (digit_char (n mod 10)) acc
            else format_digits (S fuel) (n / 10) (String (digit_char (n mod 10)) acc)).
    destruct (Z.eqb_spec (n / 10) 0) as [Hq|Hq].
    + exists (String (digit_char (n mod 10)) ""). destruct (Hlast n) as [? ?]; [lia | done |].
      done.
    + destruct (IH (n / 10) (String (digit_char (n mod 10)) acc)) as (ds & Heq & Hne & Hall & Hval).
      { split; [apply Z.div_pos; lia |].
        apply Z.div_lt_upper_bound; [lia |].
        rewrite (Nat2Z.inj_succ (S fuel)), Z.pow_succ_r in Hn by lia. lia. }
      exists (ds +:+ String (digit_char (n mod 10)) "").
      rewrite Heq, append_assoc. simpl. split; [done |]. split.
      { by destruct ds. }
      split.
      * rewrite all_chars_app, Hall. simpl. unfold is_digit.
        rewrite digit_of_digit_char by (pose proof (Z.mod_pos_bound n 10); lia). done.
      * rewrite parse_digits_app, Hval. simpl.
        rewrite digit_of_digit_char by (pose proof (Z.mod_pos_bound n 10); lia).
        f_equal. pose proof (Z.div_mod n 10). lia.
Qed.

Lemma digits_fuel_enough n : 0 <= n -> 0 <= n < 2 ^ Z.of_nat (digits_fuel n).
Proof.
  intros Hn. split; [done |]. unfold digits_fuel.
  rewrite Nat2Z.inj_succ, Z2Nat.id by apply Z.log2_nonneg.
  destruct (Z.eq_dec n 0) as [->|]; [done |].
  apply Z.log2_spec. lia.
Qed.

(** [Itoa z] is an optional minus sign followed by digits. *)
Lemma Itoa_spec z :
  exists ds, ds <> "" /\ all_chars is_digit ds = true
             /\ parse_digits 0 ds = Some (Z.abs z)
             /\ Itoa z = if z <? 0 then String "-" ds else ds.
Proof.
  unfold Itoa. destruct (Z.ltb_spec z 0) as [Hz|Hz].
  - destruct (format_digits_spec (Z.to_nat (Z.log2 (- z))) (- z) "")
      as (ds & Heq & Hne & Hall & Hval); [apply digits_fuel_enough; lia |].
    exists ds. fold (digits_fuel (- z)) in Heq. rewrite Heq, append_empty_r.
    rewrite Z.abs_neq by lia. done.
  - destruct (format_digits_spec (Z.to_nat (Z.log2 z)) z "")
      as (ds & Heq & Hne & Hall & Hval); [apply digits_fuel_enough; lia |].
    exists ds. fold (digits_fuel z) in Heq. rewrite Heq, append_empty_r.
    rewrite Z.abs_eq by lia. done.
Qed.

Lemma Itoa_no_char c z :
  is_digit c = false -> c <> "-"%char -> contains_char c (Itoa z) = false.
Proof.
  intros Hc Hminus. destruct (Itoa_spec z) as (ds & _ & Hall & _ & ->).
  pose proof (all_chars_contains _ _ _ Hall Hc) as Hds.
  destruct (z <? 0); [| done].
  change (Ascii.eqb "-" c || contains_char c ds = false).
  rewrite Hds, orb_false_r. apply Ascii.eqb_neq. congruence.
Qed.

Lemma digit_of_bounds c d : digit_of c = Some d -> 0 <= d <= 9.
Proof.
  unfold digit_of. destruct (_ && _) eqn:Hd; [| done].
  apply andb_true_iff in Hd as [?%Z.leb_le ?%Z.leb_le]. intros [= <-]. lia.
Qed.

Lemma parse_digits_ge s : forall acc v, 0 <= acc -> parse_digits acc s = Some v -> acc <= v.
Proof.
  induction s as [|c s IH]; simpl; intros acc v Hacc.
  - intros [= <-]. lia.
  - destruct (digit_of c) as [d|] eqn:Hd; [| done].
    apply digit_of_bounds in Hd. intros Hv%IH; lia.
Qed.

(** On a run of digits that writes a number of 32 bits, the loop of
    [ParseUint] reads that number. *)
Lemma parse_uint_digits s : forall acc v,
  0 <= acc -> parse_digits acc s = Some v -> v <= 4294967295 ->
  parse_uint acc s = (v, None).
Proof.
  induction s as [|c s IH]; simpl; intros acc v Hacc.
  - by intros [= <-].
  - destruct (digit_of c) as [d|] eqn:Hd; [| done].
    apply digit_of_bounds in Hd. intros Hv Hmax.
    assert (acc * 10 + d <= v) by (apply (parse_digits_ge s); [lia | done]).
    destruct (Z.ltb_spec 4294967295 (acc * 10 + d)); [lia |].
    apply IH; [lia | done..].
Qed.

Lemma parse_uint_nonneg s : forall acc, 0 <= acc -> 0 <= (parse_uint acc s).1.
Proof.
  induction s as [|c s IH]; simpl; intros acc Hacc; [done |].
  destruct (digit_of c) as [d|] eqn:Hd; [| done].
  apply digit_of_bounds in Hd.
  destruct (Z.ltb_spec 4294967295 (acc * 10 + d)); [done |]. apply IH. lia.
Qed.

Lemma ParseUint_digits ds v :
  ds <> "" -> parse_digits 0 ds = Some v -> v <= 4294967295 -> ParseUint ds = (v, None).
Proof.
  intros Hne Hv Hmax. unfold ParseUint. destruct ds as [|d ds]; [done |].
  by apply parse_uint_digits.
Qed.

(** Reading back what [Itoa] wrote. *)
Lemma ParseInt_Itoa z : in_int32 z -> ParseInt (Itoa z) = Ok z.
Proof.
  unfold in_int32, int32_min, int32_max. intros Hz.
  destruct (Itoa_spec z) as (ds & Hne & Hall & Hval & ->).
  destruct (Z.ltb_spec z 0) as [Hneg|Hpos].
  - unfold ParseInt.
    change (Ascii.eqb "-" "+") with false. change (Ascii.eqb "-" "-") with true.
    cbv iota beta. rewrite (ParseUint_digits ds (Z.abs z)) by (done || lia).
    rewrite Z.abs_neq by lia.
    destruct (Z.ltb_spec 2147483648 (- z)); [lia |]. f_equal. lia.
  - destruct ds as [|d ds]; [done |].
    unfold ParseInt.
    assert (is_digit d = true) as Hd by (simpl in Hall; by apply andb_true_iff in Hall as [? _]).
    destruct (Ascii.eqb_spec d "+") as [->|_]; [done |].
    destruct (Ascii.eqb_spec d "-") as [->|_]; [done |].
    rewrite (ParseUint_digits (String d ds) (Z.abs z)) by (done || lia).
    rewrite Z.abs_eq by lia.
    destruct (Z.leb_spec 2147483648 z); [lia | done].
Qed.

End GoFacts.

(** ** The port mapping *)

Section ParseFacts.

Lemma ParseInt_in_int32 s z : ParseInt s = Ok z -> in_int32 z.
Proof.
  unfold ParseInt, in_int32, int32_min, int32_max. destruct s as [|c s]; [done |].
  destruct (if Ascii.eqb c "+" then _ else _) as [neg body].
  assert (0 <= (ParseUint body).1) as Hun.
  { unfold ParseUint. destruct body; [done |]. by apply parse_uint_nonneg. }
  destruct (ParseUint body) as [un [[|]|]]; simpl in Hun; [done | |].
  - destruct neg.
    + destruct (Z.ltb_spec 2147483648 un); [done |]. intros [= <-]. lia.
    + destruct (Z.leb_spec 2147483648 un); [done |]. intros [= <-]. lia.
  - destruct neg.
    + destruct (Z.ltb_spec 2147483648 un); [done |]. intros [= <-]. lia.
    + destruct (Z.leb_spec 2147483648 un); [done |]. intros [= <-]. lia.
Qed.

Lemma parse_with_namespace ns name port :
  contains_char ":" ns = false -> contains_char "/" ns = false ->
  contains_char ":" name = false -> contains_char "/" name = false ->
  in_int32 port ->
  parseServiceNamePort (ns +:+ "/" +:+ name +:+ ":" +:+ Itoa port)
  = Ok {| Namespace := ns; Name := name; Port := port |}.
Proof.
  intros Hns1 Hns2 Hname1 Hname2 Hport. unfold parseServiceNamePort.
  replace (ns +:+ "/" +:+ name +:+ ":" +:+ Itoa port)
    with ((ns +:+ "/" +:+ name) +:+ String ":" (Itoa port))
    by (rewrite !append_assoc; done).
  rewrite Split_first; last first.
  { rewrite !contains_char_app, Hns1, Hname1. done. }
  rewrite Split_absent by (by apply Itoa_no_char).
  rewrite ParseInt_Itoa by done.
  change (ns +:+ "/" +:+ name) with (ns +:+ String "/" name).
  rewrite Split_first by done. rewrite Split_absent by done.
  by rewrite wrap32_id.
Qed.

Lemma parse_legacy name port :
  contains_char ":" name = false -> contains_char "/" name = false ->
  in_int32 port ->
  parseServiceNamePort (name +:+ ":" +:+ Itoa port)
  = Ok {| Namespace := NamespaceDefault; Name := name; Port := port |}.
Proof.
  intros Hname1 Hname2 Hport. unfold parseServiceNamePort.
  change (name +:+ ":" +:+ Itoa port) with (name +:+ String ":" (Itoa port)).
  rewrite Split_first by done.
  rewrite Split_absent by (by apply Itoa_no_char).
  rewrite ParseInt_Itoa by done.
  rewrite Split_absent by done.
  by rewrite wrap32_id.
Qed.

End ParseFacts.

(** C8. For a namespace and a name without [:] and [/] and a port of type
    [int32], parsing the formatted entry gives back the namespace, the name
    and the port. *)
Theorem C8_parse_format_roundtrip (ns name : string) (port : Z) :
  contains_char ":" ns = false -> contains_char "/" ns = false ->
  contains_char ":" name = false -> contains_char "/" name = false ->
  in_int32 port ->
  parseServiceNamePort (formatServiceNamePort name ns port)
  = Ok {| Namespace := ns; Name := name; Port := port |}.
Proof. unfold formatServiceNamePort. apply parse_with_namespace. Qed.

Lemma C8_witness :
  parseServiceNamePort (formatServiceNamePort "db" "default" 5432)
  = Ok {| Namespace := "default"; Name := "db"; Port := 5432 |}.
Proof.
  apply (C8_parse_format_roundtrip "default" "db" 5432);
    try reflexivity; unfold in_int32, int32_min, int32_max; lia.
Defined.

Section PortMapFacts.
Context `{MapRange}.

Lemma same_service_true v svc : same_service v svc = true <-> v = svc.
Proof.
  destruct v as [ns1 n1 p1], svc as [ns2 n2 p2]. unfold same_service. simpl.
  rewrite !andb_true_iff, !String.eqb_eq, Z.eqb_eq. split.
  - intros [[-> ->] ->]. done.
  - intros [= -> -> ->]. done.
Qed.

Lemma range_of_lookup {K V} `{Countable K} (m : gmap K V) k v :
  (k, v) ∈ range_of m <-> m !! k = Some v.
Proof. rewrite (range_of_perm K V m). apply elem_of_map_to_list. Qed.

Lemma Find_true m svc p : Find m svc = (p, true) -> table m !! p = Some svc.
Proof.
  unfold Find. destruct (List.find _ _) as [[q v]|] eqn:Hfind; [| done].
  intros [= ->]. apply find_some in Hfind as [Hin Hsame].
  apply same_service_true in Hsame. simpl in Hsame. subst v.
  by apply range_of_lookup, list_elem_of_In.
Qed.

Lemma Find_false m svc p :
  Find m svc = (p, false) -> p = 0 /\ forall q, table m !! q <> Some svc.
Proof.
  unfold Find. destruct (List.find _ _) as [[q v]|] eqn:Hfind; [done |].
  intros [= <-]. split; [done |]. intros q Hq.
  apply range_of_lookup, list_elem_of_In in Hq.
  pose proof (find_none _ _ Hfind _ Hq) as Hsame. simpl in Hsame.
  assert (same_service svc svc = true) by by apply same_service_true.
  congruence.
Qed.

(** [Find] finds a ref exactly when the table holds it. *)
Lemma Find_assigned m svc q :
  table m !! q = Some svc -> exists p, Find m svc = (p, true) /\ table m !! p = Some svc.
Proof.
  intros Hq. destruct (Find m svc) as [p [|]] eqn:Hfind.
  - exists p. split; [done |]. by apply Find_true.
  - apply Find_false in Hfind as [_ Hnone]. by destruct (Hnone q).
Qed.

Lemma firstFree_Some t n i p :
  firstFree t n i = Some p ->
  i <= p < i + Z.of_nat n /\ t !! p = None /\ forall q, i <= q < p -> is_Some (t !! q).
Proof.
  revert i. induction n as [|n IH]; intros i; simpl; [done |].
  destruct (t !! i) as [v|] eqn:Hi.
  - intros Hp. apply IH in Hp as (Hbound & Hfree & Hbelow).
    split; [lia |]. split; [done |]. intros q Hq.
    destruct (decide (q = i)) as [->|]; [by rewrite Hi | apply Hbelow; lia].
  - intros [= <-]. split; [lia |]. split; [done |]. intros q Hq. lia.
Qed.

Lemma firstFree_None t n i :
  firstFree t n i = None -> forall q, i <= q < i + Z.of_nat n -> is_Some (t !! q).
Proof.
  revert i. induction n as [|n IH]; intros i; simpl; [intros _ q Hq; lia |].
  destruct (t !! i) as [v|] eqn:Hi; [| done].
  intros Hnone q Hq.
  destruct (decide (q = i)) as [->|]; [by rewrite Hi | apply (IH _ Hnone); lia].
Qed.

Lemma firstFree_lowest m p :
  lowest_free m p ->
  firstFree (table m) (Z.to_nat (maxPort m + 1 - minPort m)) (minPort m) = Some p.
Proof.
  intros (Hrange & Hfree & Hbelow).
  destruct (firstFree _ _ _) as [p'|] eqn:Hscan.
  - apply firstFree_Some in Hscan as (Hbound & Hfree' & Hbelow'). f_equal.
    destruct (Z.lt_trichotomy p p') as [Hlt | [-> | Hgt]]; [| done |].
    + destruct (Hbelow' p) as [? ?]; [lia | congruence].
    + destruct (Hbelow p') as [? ?]; [lia | congruence].
  - destruct (firstFree_None _ _ _ Hscan p) as [? ?]; [lia | congruence].
Qed.

Lemma lowest_free_exists m q :
  minPort m <= q <= maxPort m -> table m !! q = None -> exists p, lowest_free m p.
Proof.
  intros Hq Hfree.
  destruct (firstFree (table m) (Z.to_nat (maxPort m + 1 - minPort m)) (minPort m))
    as [p|] eqn:Hscan.
  - apply firstFree_Some in Hscan as (Hbound & Hfree' & Hbelow).
    exists p. split; [lia | done].
  - destruct (firstFree_None _ _ _ Hscan q) as [? ?]; [lia | congruence].
Qed.

Lemma lowest_free_not_full m p : lowest_free m p -> ~ range_full m.
Proof. intros (Hrange & Hfree & _) Hfull. destruct (Hfull p Hrange). congruence. Qed.

(** What [Add] does on a state that has a free port: the lowest one is
    claimed in the table, then the table is saved, and the result is the
    port or the error of the save. *)
Lemma Add_lowest m svc w p :
  in_int32 (maxPort m + 1) -> lowest_free m p ->
  let m' := with_table (<[ p := svc ]> (table m)) m in
  Add m svc w
  = (match (saveState m' w).1 with
     | None => Ok p
     | Some e => Err (ErrSaveState e)
     end, m', (saveState m' w).2).
Proof.
  intros Hmax Hlow. unfold Add. rewrite wrap32_id by done.
  rewrite (firstFree_lowest m p Hlow). simpl.
  by destruct (saveState _ w) as [[e|] w'].
Qed.

Lemma Add_full m svc w :
  in_int32 (minPort m) -> in_int32 (maxPort m) -> range_full m ->
  Add m svc w = (Err ErrNoPort, m, w).
Proof.
  intros Hmin Hmax Hfull. unfold Add.
  destruct (firstFree _ _ _) as [p|] eqn:Hscan; [| done].
  apply firstFree_Some in Hscan as (Hbound & Hfree & _).
  assert (wrap32 (maxPort m + 1) <= maxPort m + 1) as Hwrap.
  { unfold in_int32, int32_min, int32_max in *.
    destruct (decide (maxPort m = 2147483647)) as [->|]; [done |].
    rewrite wrap32_id; [lia |]. unfold in_int32, int32_min, int32_max. lia. }
  destruct (Hfull p) as [? ?]; [lia | congruence].
Qed.

(** Whatever the save does, [Add] leaves the bounds alone and only ever
    adds one entry, at a port that was free. *)
Lemma Add_table m svc w :
  (Add m svc w).1.2 = m
  \/ exists p, table m !! p = None
               /\ minPort m <= p < wrap32 (maxPort m + 1)
               /\ (Add m svc w).1.2 = with_table (<[ p := svc ]> (table m)) m.
Proof.
  unfold Add. destruct (firstFree _ _ _) as [p|] eqn:Hscan; [| by left].
  right. apply firstFree_Some in Hscan as (Hbound & Hfree & _).
  exists p. split; [done |]. split; [lia |].
  by destruct (saveState _ w) as [[e|] w'].
Qed.

Lemma saveState_logs m w : logs (saveState m w).2 = logs w.
Proof.
  unfold saveState. destruct (configMap w); [| done].
  by destruct (updateErrs w) as [|[|] ?].
Qed.

End PortMapFacts.

Section InvariantFacts.
Context `{MapRange}.

Lemma wrap32_succ_le z : in_int32 z -> wrap32 (z + 1) <= z + 1.
Proof.
  unfold in_int32, int32_min, int32_max. intros Hz.
  destruct (decide (z = 2147483647)) as [->|]; [done |].
  rewrite wrap32_id; [lia |]. unfold in_int32, int32_min, int32_max. lia.
Qed.

Lemma range_full_or_free m : range_full m \/ exists p, lowest_free m p.
Proof.
  destruct (firstFree (table m) (Z.to_nat (maxPort m + 1 - minPort m)) (minPort m))
    as [p|] eqn:Hscan.
  - right. apply firstFree_Some in Hscan as (Hbound & Hfree & Hbelow).
    exists p. split; [lia | done].
  - left. intros q Hq. apply (firstFree_None _ _ _ Hscan). lia.
Qed.

Lemma Add_in_range m svc w :
  in_int32 (maxPort m) -> in_range m -> in_range (Add m svc w).1.2.
Proof.
  intros Hmax Hinv.
  destruct (Add_table m svc w) as [-> | (p & Hfree & Hp & ->)]; [done |].
  pose proof (wrap32_succ_le _ Hmax).
  intros q v. simpl. rewrite lookup_insert. case_decide as Hq.
  - intros _. lia.
  - apply Hinv.
Qed.

Lemma Add_injective m svc w :
  (forall q, table m !! q <> Some svc) -> injective m -> injective (Add m svc w).1.2.
Proof.
  intros Hnew Hinv.
  destruct (Add_table m svc w) as [-> | (p & Hfree & Hp & ->)]; [done |].
  intros q1 q2 v. simpl. rewrite !lookup_insert.
  repeat case_decide; subst; try done.
  - intros [= <-] Hq2. by destruct (Hnew q2).
  - intros Hq1 [= <-]. by destruct (Hnew q1).
  - apply Hinv.
Qed.

Lemma fold_loadEntry_lookup l : forall t p svc,
  fold_left loadEntry l t !! p = Some svc ->
  t !! p = Some svc
  \/ exists k v port, (k, v) ∈ l /\ ParseInt k = Ok port /\ wrap32 port = p
                      /\ parseServiceNamePort v = Ok svc.
Proof.
  induction l as [|[k v] l IH]; intros t p svc; simpl; [by left |].
  intros Hp. apply IH in Hp as [Hp | (k' & v' & port & Hin & ?)].
  - unfold loadEntry in Hp. simpl in Hp.
    destruct (ParseInt k) as [port|] eqn:Hk; [| by left].
    destruct (parseServiceNamePort v) as [svc'|] eqn:Hv; [| by left].
    rewrite lookup_insert in Hp. case_decide as Hport; [| by left].
    right. exists k, v, port. injection Hp as <-. split; [left | done].
  - right. exists k', v', port. split; [by right | done].
Qed.

(** The entries that [loadState] cannot read change nothing. *)
Lemma fold_loadEntry_skips l : forall t,
  fold_left loadEntry l t = fold_left loadEntry (List.filter parseable l) t.
Proof.
  induction l as [|[k v] l IH]; intros t; simpl; [done |].
  unfold parseable at 1. simpl.
  destruct (ParseInt k) as [port|] eqn:Hk; simpl.
  - destruct (parseServiceNamePort v) as [svc|] eqn:Hv; simpl.
    + by rewrite <- IH.
    + unfold loadEntry at 2. simpl. rewrite Hk, Hv. apply IH.
  - unfold loadEntry at 2. simpl. rewrite Hk. apply IH.
Qed.

Lemma loadState_readable m w data :
  configMap w = Some data ->
  exists m', loadState m w = (Ok m', w)
             /\ minPort m' = minPort m /\ maxPort m' = maxPort m
             /\ forall p svc, table m' !! p = Some svc ->
                              table m !! p = Some svc \/ readable data p svc.
Proof.
  intros Hdata. unfold loadState. rewrite Hdata. eexists. split; [done |].
  split; [done |]. split; [done |]. simpl. intros p svc Hp.
  apply fold_loadEntry_lookup in Hp as [Hp | (k & v & port & Hin & Hk & Hport & Hv)];
    [by left |].
  right. exists k, v, port. by apply range_of_lookup in Hin.
Qed.

End InvariantFacts.

Section ControllerPortFacts.
Context `{MapRange} {Configuration : Type}.
Implicit Types c : Controller Configuration.

(** A ref that has a port keeps it: [getTCPPort] answers from the table
    and changes nothing. *)
Lemma getTCPPort_assigned c svc w q :
  table (tcpStateTable c) !! q = Some svc ->
  exists p, table (tcpStateTable c) !! p = Some svc
            /\ getTCPPort c (Name svc) (Namespace svc) (Port svc) w = (Ok p, c, w).
Proof.
  intros Hq. destruct (Find_assigned _ _ _ Hq) as (p & Hfind & Hp).
  exists p. split; [done |]. unfold getTCPPort.
  destruct svc as [ns name port]. simpl. by rewrite Hfind.
Qed.

Lemma getTCPPort_table c name ns port w :
  let svc := {| Namespace := ns; Name := name; Port := port |} in
  (exists p, Find (tcpStateTable c) svc = (p, true)
             /\ (getTCPPort c name ns port w).1.2 = c)
  \/ ((forall q, table (tcpStateTable c) !! q <> Some svc)
      /\ exists w', tcpStateTable (getTCPPort c name ns port w).1.2
                    = (Add (tcpStateTable c) svc w').1.2).
Proof.
  intros svc. unfold getTCPPort. fold svc.
  destruct (Find (tcpStateTable c) svc) as [p [|]] eqn:Hfind.
  - left. by exists p.
  - right. apply Find_false in Hfind as [_ Hnone]. split; [done |].
    cbv iota beta.
    match goal with
    | |- context [Add ?m ?s ?w0] =>
        exists w0; destruct (Add m s w0) as [[[port'|e] m'] w']; done
    end.
Qed.

Lemma getTCPPort_invariant c name ns port w :
  in_int32 (maxPort (tcpStateTable c)) ->
  PortAssignment (tcpStateTable c) ->
  PortAssignment (tcpStateTable (getTCPPort c name ns port w).1.2).
Proof.
  intros Hmax [Hrange Hinj].
  destruct (getTCPPort_table c name ns port w) as [(p & _ & ->) | (Hnone & w' & ->)];
    [done |].
  split; [by apply Add_in_range | by apply Add_injective].
Qed.

End ControllerPortFacts.

(** ** Claims about the port mapping *)

(** C1 (amended). In a state whose upper bound is below the [int32] maximum
    and that has a free port in the range, [Add] claims the lowest free port
    in the table, and returns it when the save succeeds (the error of the
    save otherwise); [Add] fails with the no-port error exactly when the
    range is full; [getTCPPort] on a ref that has a port returns a port of
    that ref and changes neither the table nor the world. *)
Theorem C1_Add_lowest_free_port `{MapRange} {Configuration : Type}
    (c : Controller Configuration) (svc : ServiceWithPort) (w : World) :
  let m := tcpStateTable c in
  in_int32 (minPort m) -> in_int32 (maxPort m) -> maxPort m < int32_max ->
  (forall q, minPort m <= q <= maxPort m -> table m !! q = None ->
     exists p, lowest_free m p
       /\ (Add m svc w).1.2 = with_table (<[ p := svc ]> (table m)) m
       /\ (Add m svc w).1.1
          = match (saveState (with_table (<[ p := svc ]> (table m)) m) w).1 with
            | None => Ok p
            | Some e => Err (ErrSaveState e)
            end)
  /\ (range_full m -> Add m svc w = (Err ErrNoPort, m, w))
  /\ ((Add m svc w).1.1 = Err ErrNoPort <-> range_full m)
  /\ (forall q, table m !! q = Some svc ->
        exists p, table m !! p = Some svc
                  /\ getTCPPort c (Name svc) (Namespace svc) (Port svc) w = (Ok p, c, w)).
Proof.
  intros m Hmin Hmax Hlt.
  assert (in_int32 (maxPort m + 1)) as Hsucc.
  { unfold in_int32, int32_min, int32_max in *. lia. }
  split; [| split; [| split]].
  - intros q Hq Hfree. destruct (lowest_free_exists m q Hq Hfree) as [p Hp].
    exists p. split; [done |]. by rewrite (Add_lowest m svc w p Hsucc Hp).
  - by apply Add_full.
  - split.
    + intros Herr. destruct (range_full_or_free m) as [Hfull | [p Hp]]; [done |].
      rewrite (Add_lowest m svc w p Hsucc Hp) in Herr. simpl in Herr.
      by destruct (saveState _ w).1.
    + intros Hfull. by rewrite Add_full.
  - intros q Hq. by apply (getTCPPort_assigned c svc w q).
Qed.

Lemma C1_witness :
  exists p, lowest_free mapping0 p
    /\ (Add mapping0 db (world0 [])).1.2 = with_table (<[ p := db ]> ∅) mapping0
    /\ (Add mapping0 db (world0 [])).1.1
       = match (saveState (with_table (<[ p := db ]> ∅) mapping0) (world0 [])).1 with
         | None => Ok p
         | Some e => Err (ErrSaveState e)
         end.
Proof.
  refine (proj1 (C1_Add_lowest_free_port controller0 db (world0 []) _ _ _) 10000 _ _);
    try (unfold in_int32, int32_min, int32_max; simpl; lia).
  reflexivity.
Defined.

(** C1 as stated fails when the save fails: the table has a free port, the
    lowest one is claimed, and [Add] returns an error instead of the port.
    It also fails when the upper bound is the largest [int32]: [maxPort+1]
    wraps around and the loop of [Add] visits no port at all. *)
Lemma C1_counterexample :
  (lowest_free mapping0 10000
   /\ (Add mapping0 db world_update_fails).1.1 = Err (ErrSaveState ErrUpdateConfigMap)
   /\ table (Add mapping0 db world_update_fails).1.2 !! 10000 = Some db)
  /\ (let m := {| table := ∅; minPort := 2147483647; maxPort := 2147483647 |} in
      lowest_free m 2147483647 /\ Add m db (world0 []) = (Err ErrNoPort, m, world0 [])).
Proof.
  split; (split; [| try split; vm_compute; reflexivity]);
    (split; [simpl; lia |]); (split; [reflexivity |]); intros q Hq; simpl in Hq; lia.
Qed.

(** C5 (amended). When [Add] claims the port [p] and the save that follows
    fails with [e], [Add] returns that error and keeps the claim: the table
    is the old one with the ref at [p], [Get] gives the ref at [p], and
    [Find] finds the ref at a port that holds it; that port is [p] itself
    when the ref had no port before, which is how [getTCPPort] calls
    [Add]. *)
Theorem C5_failed_save_keeps_claim `{MapRange} (m : TCPPortMapping)
    (svc : ServiceWithPort) (w : World) (p : Z) (e : SaveError) :
  in_int32 (maxPort m + 1) -> lowest_free m p ->
  (saveState (with_table (<[ p := svc ]> (table m)) m) w).1 = Some e ->
  (Add m svc w).1.1 = Err (ErrSaveState e)
  /\ (let m' := (Add m svc w).1.2 in
      table m' = <[ p := svc ]> (table m)
      /\ Get m' p = Some svc
      /\ (exists q, Find m' svc = (q, true) /\ Get m' q = Some svc)
      /\ ((forall q, table m !! q <> Some svc) -> Find m' svc = (p, true))).
Proof.
  intros Hmax Hlow Hsave. rewrite (Add_lowest m svc w p Hmax Hlow). simpl.
  rewrite Hsave. split; [done |]. split; [done |].
  assert (Get (with_table (<[ p := svc ]> (table m)) m) p = Some svc) as Hget.
  { unfold Get. simpl. apply lookup_insert_eq. }
  split; [done |]. split.
  - destruct (Find_assigned _ _ _ Hget) as (q & Hfind & Hq). by exists q.
  - intros Hnew. destruct (Find_assigned _ _ _ Hget) as (q & Hfind & Hq).
    rewrite Hfind. f_equal. simpl in Hq. rewrite lookup_insert in Hq.
    case_decide as Hpq; [done |]. by destruct (Hnew q).
Qed.

Lemma C5_witness :
  (Add mapping0 db world_update_fails).1.1 = Err (ErrSaveState ErrUpdateConfigMap)
  /\ Find (Add mapping0 db world_update_fails).1.2 db = (10000, true).
Proof.
  assert (lowest_free mapping0 10000) as Hlow.
  { split; [simpl; lia |]. split; [reflexivity |]. intros q Hq. simpl in Hq. lia. }
  assert (in_int32 (maxPort mapping0 + 1)) as Hmax.
  { unfold in_int32, int32_min, int32_max. simpl. lia. }
  destruct (C5_failed_save_keeps_claim mapping0 db world_update_fails 10000
              ErrUpdateConfigMap Hmax Hlow eq_refl) as (Herr & _ & _ & _ & Hfind).
  split; [exact Herr |]. apply Hfind. intros q. simpl. by rewrite lookup_empty.
Defined.

(** C5 as stated fails for a ref that has a port already: the save fails,
    the port 10001 is claimed for the ref and kept, and [Find], which
    returns the first port it meets that holds the ref, reports the old port
    10000 when the table is visited in one order and the claimed one in the
    other. *)
Lemma C5_counterexample :
  let m := with_table {[ 10000 := db ]} mapping0 in
  let r := Add m db world_update_fails in
  lowest_free m 10001
  /\ r.1.1 = Err (ErrSaveState ErrUpdateConfigMap)
  /\ Get r.1.2 10001 = Some db
  /\ Find (H := reversed_range) r.1.2 db = (10000, true)
  /\ Find (H := canonical_range) r.1.2 db = (10001, true).
Proof.
  split; [| repeat split; vm_compute; reflexivity].
  split; [simpl; lia |]. split; [vm_compute; reflexivity |].
  intros q Hq. simpl in *. assert (q = 10000) as -> by lia.
  rewrite lookup_singleton_eq. done.
Qed.

(** C3 (amended). [Add] keeps every assigned port within the bounds, and
    keeps refs under one port when the ref it is given has no port yet;
    [getTCPPort], which calls [Add] only after [Find] found nothing, keeps
    both invariants. [loadState] copies every readable entry of the ConfigMap
    into the table without a check: the table it builds from an empty one
    holds readable entries only, and satisfies the invariants when the
    readable entries do. *)
Theorem C3_port_assignment_invariants `{MapRange} {Configuration : Type} :
  (forall m svc w, in_int32 (maxPort m) -> in_range m -> in_range (Add m svc w).1.2)
  /\ (forall m svc w, (forall q, table m !! q <> Some svc) ->
        injective m -> injective (Add m svc w).1.2)
  /\ (forall (c : Controller Configuration) name ns port w,
        in_int32 (maxPort (tcpStateTable c)) ->
        PortAssignment (tcpStateTable c) ->
        PortAssignment (tcpStateTable (getTCPPort c name ns port w).1.2))
  /\ (forall w data lo hi, configMap w = Some data ->
        exists m, NewTCPPortMapping w lo hi = (Ok m, w)
          /\ minPort m = lo /\ maxPort m = hi
          /\ (forall p svc, table m !! p = Some svc -> readable data p svc)
          /\ ((forall p svc, readable data p svc -> lo <= p <= hi) ->
              (forall p q svc, readable data p svc -> readable data q svc -> p = q) ->
              PortAssignment m)).
Proof.
  split; [| split; [| split]].
  - intros m svc w. apply Add_in_range.
  - intros m svc w. apply Add_injective.
  - intros c name ns port w. apply getTCPPort_invariant.
  - intros w data lo hi Hdata. unfold NewTCPPortMapping.
    destruct (loadState_readable {| table := ∅; minPort := lo; maxPort := hi |} w data Hdata)
      as (m & Hload & Hlo & Hhi & Hentries).
    simpl in Hlo, Hhi.
    assert (forall p svc, table m !! p = Some svc -> readable data p svc) as Hread.
    { intros p svc Hp. destruct (Hentries p svc Hp) as [Hempty | ?]; [| done].
      simpl in Hempty. by rewrite lookup_empty in Hempty. }
    exists m. split; [done |]. split; [done |]. split; [done |]. split; [done |].
    intros Hrange Hinj. split.
    + intros p svc Hp. rewrite Hlo, Hhi. by apply (Hrange p svc), Hread.
    + intros p q svc Hp Hq. apply (Hinj p q svc); by apply Hread.
Qed.

(** C3 as stated fails three times over: [Add], given a ref that has a port,
    puts it under a second one; [loadState] takes a port outside the bounds
    from the ConfigMap; and it takes one ref under two ports. *)
Lemma C3_counterexample :
  (let m1 := (Add mapping0 db (world0 [])).1.2 in
   PortAssignment m1
   /\ table (Add m1 db (world0 [])).1.2 !! 10000 = Some db
   /\ table (Add m1 db (world0 [])).1.2 !! 10001 = Some db)
  /\ (exists m, (NewTCPPortMapping (world0 [("9", "default/db:5432")]) 10000 10100).1 = Ok m
                /\ table m !! 9 = Some db)
  /\ (exists m, (NewTCPPortMapping
                   (world0 [("10000", "default/db:5432"); ("10001", "default/db:5432")])
                   10000 10100).1 = Ok m
                /\ table m !! 10000 = Some db /\ table m !! 10001 = Some db).
Proof.
  split; [| split].
  - split; [| split; vm_compute; reflexivity].
    assert ((Add mapping0 db (world0 [])).1.2 = with_table {[ 10000 := db ]} mapping0) as ->
      by (vm_compute; reflexivity).
    split.
    + intros p svc. simpl. intros [<- _]%lookup_singleton_Some. lia.
    + intros p q svc. simpl.
      intros [<- _]%lookup_singleton_Some [<- _]%lookup_singleton_Some. done.
  - eexists. split; vm_compute; reflexivity.
  - eexists. split; [| split]; vm_compute; reflexivity.
Qed.

(** C9 (amended). A legacy entry [name:port] reads as the service [name] of
    the namespace [default]; an entry whose key or value does not parse
    leaves the table as it is; with a ConfigMap at hand [loadState] never
    fails, and builds the table from the readable entries alone. It logs
    nothing: the world, log included, is unchanged. *)
Theorem C9_loadState_skips_unreadable `{MapRange} (m : TCPPortMapping) (w : World)
    (data : gmap string string) :
  configMap w = Some data ->
  (forall name port,
      contains_char ":" name = false -> contains_char "/" name = false -> in_int32 port ->
      parseServiceNamePort (name +:+ ":" +:+ Itoa port)
      = Ok {| Namespace := "default"; Name := name; Port := port |})
  /\ (forall t k name port p,
        contains_char ":" name = false -> contains_char "/" name = false -> in_int32 port ->
        ParseInt k = Ok p ->
        loadEntry t (k, name +:+ ":" +:+ Itoa port)
        = <[ p := {| Namespace := "default"; Name := name; Port := port |} ]> t)
  /\ (forall t k v,
        is_ok (ParseInt k) = false \/ is_ok (parseServiceNamePort v) = false ->
        loadEntry t (k, v) = t)
  /\ (exists m', loadState m w = (Ok m', w)
        /\ table m' = fold_left loadEntry (List.filter parseable (range_of data)) (table m))
  /\ logs (loadState m w).2 = logs w.
Proof.
  intros Hdata. split; [| split; [| split; [| split]]].
  - intros name port. apply parse_legacy.
  - intros t k name port p Hname1 Hname2 Hport Hk. unfold loadEntry. simpl.
    rewrite Hk, parse_legacy by done. rewrite wrap32_id; [done |].
    by apply ParseInt_in_int32 with k.
  - intros t k v Hbad. unfold loadEntry. simpl.
    destruct (ParseInt k); [| done]. destruct (parseServiceNamePort v); [| done].
    by destruct Hbad.
  - unfold loadState. rewrite Hdata. eexists. split; [done |]. simpl.
    apply fold_loadEntry_skips.
  - unfold loadState. by rewrite Hdata.
Qed.

Lemma C9_witness :
  loadEntry ∅ ("10000", "db" +:+ ":" +:+ Itoa 5432)
  = <[ 10000 := {| Namespace := "default"; Name := "db"; Port := 5432 |} ]> ∅.
Proof.
  refine (proj1 (proj2 (C9_loadState_skips_unreadable mapping0 (world0 []) ∅ _))
            ∅ "10000" "db" 5432 10000 _ _ _ _); try reflexivity.
  unfold in_int32, int32_min, int32_max. lia.
Defined.

(** C9 as stated fails on the warning: the entry below has a key that is not
    a number; it is skipped, rehydration succeeds, and nothing is logged. *)
Lemma C9_counterexample :
  is_ok (ParseInt "ten") = false
  /\ loadState mapping0 (world0 [("ten", "default/db:5432")])
     = (Ok mapping0, world0 [("ten", "default/db:5432")])
  /\ Forall (fun e => level e <> WarnLevel)
       (logs (loadState mapping0 (world0 [("ten", "default/db:5432")])).2).
Proof.
  split; [reflexivity |]. split; [reflexivity |]. simpl. constructor.
Qed.

(** ** The ports of a mesh service *)

Section MeshPortsFacts.
Context `{MapRange} {Configuration : Type}.
Implicit Types c : Controller Configuration.

Lemma add_logs_nil w : add_logs [] w = w.
Proof. destruct w. unfold add_logs. simpl. by rewrite app_nil_r. Qed.

Lemma add_logs_logf l msg es w :
  add_logs es (logf l msg w) = add_logs ({| level := l; text := msg |} :: es) w.
Proof. unfold add_logs, logf. simpl. by rewrite <- app_assoc. Qed.

(** Outside the mode [tcp] the loop neither reads nor writes the port
    mapping; from index [id] on it emits the positional entries. *)
Lemma meshPorts_positional mode service sps : forall id acc c w,
  String.eqb mode ServiceTypeTCP = false ->
  meshPorts mode service id sps acc c w
  = (acc ++ omap (fun '(i, sp) =>
                    if isTCP sp then Some (meshPort sp (wrap32 (5000 + Z.of_nat i)))
                    else None)
                 (imap (fun i sp => (id + i, sp)%nat) sps),
     c, add_logs (unsupported_entries service sps) w).
Proof.
  intros id acc c w Hmode. revert id acc w.
  induction sps as [|sp rest IH]; intros id acc w.
  - simpl. by rewrite app_nil_r, add_logs_nil.
  - cbn [meshPorts]. rewrite Hmode.
    assert (Hcons : forall f : nat * ServicePort -> option ServicePort,
               omap f (imap (fun i sp0 => ((id + i)%nat, sp0)) (sp :: rest))
               = match f (id, sp) with
                 | Some e => e :: omap f (imap (fun i sp0 => ((S id + i)%nat, sp0)) rest)
                 | None => omap f (imap (fun i sp0 => ((S id + i)%nat, sp0)) rest)
                 end).
    { intros f. cbn [imap]. rewrite Nat.add_0_r.
      replace (imap ((fun i sp0 => ((id + i)%nat, sp0)) ∘ S) rest)
        with (imap (fun i sp0 => ((S id + i)%nat, sp0)) rest)
        by (apply imap_ext; intros i x _; simpl; f_equal; lia).
      reflexivity. }
    rewrite Hcons.
    change (unsupported_entries service (sp :: rest))
      with (match (if isTCP sp then None
                   else Some {| level := WarnLevel;
                                text := "Unsupported port type: " +:+ sp_Protocol sp
                                        +:+ ", skipping port " +:+ sp_Name sp
                                        +:+ " on service " +:+ svc_Namespace service
                                        +:+ "/" +:+ svc_Name service |}) with
            | Some e => e :: unsupported_entries service rest
            | None => unsupported_entries service rest
            end).
    pose proof (eq_refl : isTCP sp = String.eqb (sp_Protocol sp) ProtocolTCP) as HT.
    destruct (String.eqb (sp_Protocol sp) ProtocolTCP) eqn:Hproto;
      rewrite HT; cbn [negb]; rewrite IH.
    + by rewrite <- app_assoc.
    + by rewrite add_logs_logf.
Qed.

Lemma Add_Ok m svc w p m' w' :
  Add m svc w = (Ok p, m', w') ->
  table m !! p = None /\ m' = with_table (<[ p := svc ]> (table m)) m.
Proof.
  unfold Add. destruct (firstFree _ _ _) as [i|] eqn:Hscan; [| done].
  apply firstFree_Some in Hscan as (_ & Hfree & _).
  destruct (saveState _ w) as [[e|] w'']; [done |]. by intros [= <- <- <-].
Qed.

(** [getTCPPort] only ever extends the table, and a port it returns holds
    the ref in the table it leaves. *)
Lemma getTCPPort_extends c name ns port w :
  let svc := {| Namespace := ns; Name := name; Port := port |} in
  let c' := (getTCPPort c name ns port w).1.2 in
  table (tcpStateTable c) ⊆ table (tcpStateTable c')
  /\ forall p, (getTCPPort c name ns port w).1.1 = Ok p ->
               table (tcpStateTable c') !! p = Some svc.
Proof.
  intros svc c'. subst c'. unfold getTCPPort. fold svc.
  destruct (Find (tcpStateTable c) svc) as [q [|]] eqn:Hfind.
  - simpl. split; [done |]. intros p [= <-]. by apply Find_true.
  - cbv iota beta.
    match goal with
    | |- context [Add ?m ?s ?w0] =>
        pose proof (Add_table m s w0) as Htable;
        destruct (Add m s w0) as [[[p'|e] m'] w'] eqn:HAdd
    end; simpl in *.
    + apply Add_Ok in HAdd as [Hfree ->]. simpl. split.
      * by apply insert_subseteq.
      * intros p [= <-]. apply lookup_insert_eq.
    + split; [| done].
      destruct Htable as [-> | (p & Hfree & _ & ->)]; [done |].
      simpl. by apply insert_subseteq.
Qed.

End MeshPortsFacts.

Section MeshPortsTCP.
Context `{MapRange} {Configuration : Type}.
Implicit Types c : Controller Configuration.

Lemma getTCPPort_unassigned c name ns port w :
  let svc := {| Namespace := ns; Name := name; Port := port |} in
  (forall q, table (tcpStateTable c) !! q <> Some svc) ->
  exists w0, logs w0 = logs w ++ [ {| level := DebugLevel;
                                      text := "No match found for " +:+ name +:+ "/" +:+ ns
                                              +:+ " " +:+ Itoa port +:+ " - Add a new port" |} ]
    /\ (getTCPPort c name ns port w).1.1 = (Add (tcpStateTable c) svc w0).1.1
    /\ tcpStateTable (getTCPPort c name ns port w).1.2 = (Add (tcpStateTable c) svc w0).1.2.
Proof.
  intros svc Hnone. unfold getTCPPort. fold svc.
  destruct (Find (tcpStateTable c) svc) as [q [|]] eqn:Hfind.
  - apply Find_true in Hfind. by destruct (Hnone q).
  - cbv iota beta.
    match goal with
    | |- context [Add ?m ?s ?w0] =>
        exists w0; split; [done |];
        destruct (Add m s w0) as [[[port'|e] m'] w']; done
    end.
Qed.





(** In the mode [tcp]: what the loop emits is, in order, part of the TCP
    ports of the service, each with a target port that the table it leaves
    assigns to the ref of that port; the table only grows. *)
Lemma meshPorts_tcp mode service sps : forall id acc c w,
  String.eqb mode ServiceTypeTCP = true ->
  let built := meshPorts mode service id sps acc c w in
  exists emitted,
    built.1.1 = acc ++ emitted
    /\ table (tcpStateTable c) ⊆ table (tcpStateTable built.1.2)
    /\ Forall (fun e => exists sp, sp ∈ sps /\ isTCP sp = true
                                   /\ e = meshPort sp (sp_TargetPort e)
                                   /\ table (tcpStateTable built.1.2) !! sp_TargetPort e
                                      = Some (ref_of service sp)) emitted
    /\ (port_key <$> emitted) `sublist_of` (port_key <$> List.filter isTCP sps).
Proof.
  intros id acc c w Hmode. revert id acc c w.
  induction sps as [|sp rest IH]; intros id acc c w built; subst built.
  - exists []. simpl. rewrite app_nil_r. by repeat split.
  - cbn [meshPorts List.filter]. rewrite Hmode.
    pose proof (eq_refl : isTCP sp = String.eqb (sp_Protocol sp) ProtocolTCP) as HT.
    destruct (String.eqb (sp_Protocol sp) ProtocolTCP) eqn:Hproto; rewrite HT; cbn [negb].
    + pose proof (getTCPPort_extends c (svc_Name service) (svc_Namespace service)
                    (sp_Port sp) w) as [Hsub Hport].
      destruct (getTCPPort c (svc_Name service) (svc_Namespace service) (sp_Port sp) w)
        as [[[port|e] c1] w1]; simpl in Hsub, Hport.
      * match goal with
        | |- context [meshPorts ?a ?b ?i ?l ?ac ?cc ?ww] =>
            destruct (IH i ac cc ww) as (emitted & Heq & Hsub' & Hall & Hsl)
        end.
        exists (meshPort sp port :: emitted). split; [| split; [| split]].
        -- rewrite Heq, <- app_assoc. done.
        -- by etrans.
        -- constructor.
           ++ exists sp. split; [left |]. split; [done |]. split; [done |].
              simpl. eapply lookup_weaken; [by apply Hport | done].
           ++ eapply Forall_impl; [exact Hall |]. intros e (sp' & ? & ? & ? & ?).
              exists sp'. split; [by right | done].
        -- rewrite !fmap_cons. by apply sublist_skip.
      * match goal with
        | |- context [meshPorts ?a ?b ?i ?l ?ac ?cc ?ww] =>
            destruct (IH i ac cc ww) as (emitted & Heq & Hsub' & Hall & Hsl)
        end.
        exists emitted. split; [done |]. split; [by etrans |]. split.
        -- eapply Forall_impl; [exact Hall |]. intros e' (sp' & ? & ? & ? & ?).
           exists sp'. split; [by right | done].
        -- rewrite fmap_cons. by apply sublist_cons.
    + match goal with
      | |- context [meshPorts ?a ?b ?i ?l ?ac ?cc ?ww] =>
          destruct (IH i ac cc ww) as (emitted & Heq & Hsub' & Hall & Hsl)
      end.
      exists emitted. split; [done |]. split; [done |]. split; [| done].
      eapply Forall_impl; [exact Hall |]. intros e' (sp' & ? & ? & ? & ?).
      exists sp'. split; [by right | done].
Qed.

End MeshPortsTCP.

Section MeshServiceFacts.
Context `{MapRange} {Configuration : Type}.
Implicit Types c : Controller Configuration.

Lemma meshPorts_positional_0 mode service sps c w :
  String.eqb mode ServiceTypeTCP = false ->
  Z.of_nat (length sps) <= 2147478648 ->
  meshPorts mode service 0 sps [] c w
  = (positional_ports sps, c, add_logs (unsupported_entries service sps) w).
Proof.
  intros Hmode Hlen. rewrite meshPorts_positional by done. simpl.
  f_equal. f_equal. unfold positional_ports.
  apply list_omap_ext, Forall_Forall2_diag, Forall_forall.
  intros [i sp] (j & sp' & [= -> ->] & Hj%lookup_lt_Some)%elem_of_lookup_imap_1.
  destruct (isTCP sp'); [| done]. rewrite wrap32_id; [done |].
  unfold in_int32, int32_min, int32_max. lia.
Qed.

End MeshServiceFacts.




(** ** Goroutines *)

Section SchedulerFacts.
Context {A : Type}.
Implicit Types (running : list (list A)) (todo : list (A * list A)).

Lemma step_spec k running a running' :
  step k running = Some (a, running') ->
  exists before g behind,
    running = before ++ (a :: g) :: behind /\ running' = before ++ g :: behind.
Proof.
  revert k running'. induction running as [|g0 others IH]; intros k running'; simpl; [done |].
  destruct k as [|k].
  - destruct g0 as [|a0 g']; [done |]. intros [= <- <-]. by exists [], g', others.
  - destruct (step k others) as [[a1 others']|] eqn:Hstep; [| done]. intros [= <- <-].
    destruct (IH _ _ Hstep) as (before & g & behind & -> & ->).
    by exists (g0 :: before), g, behind.
Qed.

(** Whatever the schedule, every effect of the loop and of the goroutines
    takes place, once. *)
Lemma interleave_perm schedule : forall todo running,
  interleave schedule todo running
  ≡ₚ concat running ++ flat_map (fun '(a, g) => a :: g) todo.
Proof.
  induction schedule as [|k schedule IH]; intros todo running; [done |].
  destruct k as [|k]; simpl.
  - destruct todo as [|[a g] todo]; [apply IH |].
    rewrite IH, concat_app. simpl. rewrite app_nil_r, <- app_assoc.
    apply Permutation_middle.
  - destruct (step k running) as [[a running']|] eqn:Hstep; [| apply IH].
    destruct (step_spec _ _ _ _ Hstep) as (before & g & behind & -> & ->).
    rewrite IH, !concat_app, !concat_cons, <- !app_assoc. simpl.
    apply Permutation_middle.
Qed.

Lemma sublist_concat_elem (l : list (list A)) :
  Forall (fun g => g `sublist_of` concat l) l.
Proof.
  induction l as [|g l IH]; constructor; simpl.
  - by apply sublist_inserts_r.
  - eapply Forall_impl; [exact IH |]. intros g' Hg'. by apply sublist_inserts_l.
Qed.

(** Whatever the schedule, the effects of each goroutine take place in
    their order, each goroutine after the effect that the loop has before
    it starts it, and the effects of the loop in the order of the loop. *)
Lemma interleave_sublist schedule : forall todo running,
  Forall (fun g => g `sublist_of` interleave schedule todo running) running
  /\ Forall (fun ag => (ag.1 :: ag.2) `sublist_of` interleave schedule todo running) todo
  /\ (fst <$> todo) `sublist_of` interleave schedule todo running.
Proof.
  induction schedule as [|k schedule IH]; intros todo running.
  - simpl. split; [| split].
    + eapply Forall_impl; [apply sublist_concat_elem |]. intros g Hg.
      by apply sublist_inserts_r.
    + apply Forall_forall. intros ag Hag. apply sublist_inserts_l.
      induction todo as [|[a g] todo IHt]; [by apply elem_of_nil in Hag |].
      apply elem_of_cons in Hag as [-> | Hag]; simpl.
      * apply sublist_skip. by apply sublist_inserts_r.
      * apply sublist_cons. apply sublist_inserts_l. by apply IHt.
    + apply sublist_inserts_l. induction todo as [|[a g] todo IHt]; [done |].
      simpl. apply sublist_skip. by apply sublist_inserts_l.
  - destruct k as [|k]; simpl.
    + destruct todo as [|[a g] todo]; [apply IH |].
      destruct (IH todo (running ++ [g])) as (Hrun & Htodo & Hloop).
      apply Forall_app in Hrun as [Hrun Hg]. rewrite Forall_singleton in Hg.
      split; [| split].
      * eapply Forall_impl; [exact Hrun |]. intros g' Hg'. by apply sublist_cons.
      * constructor; [simpl; by apply sublist_skip |].
        eapply Forall_impl; [exact Htodo |]. intros ag Hag. by apply sublist_cons.
      * by apply sublist_skip.
    + destruct (step k running) as [[a running']|] eqn:Hstep; [| apply IH].
      destruct (step_spec _ _ _ _ Hstep) as (before & g & behind & -> & ->).
      destruct (IH todo (before ++ g :: behind)) as (Hrun & Htodo & Hloop).
      apply Forall_app in Hrun as [Hbefore Hrest].
      apply Forall_cons in Hrest as [Hg Hbehind].
      split; [| split].
      * apply Forall_app. split; [| constructor].
        -- eapply Forall_impl; [exact Hbefore |]. intros g' Hg'. by apply sublist_cons.
        -- by apply sublist_skip.
        -- eapply Forall_impl; [exact Hbehind |]. intros g' Hg'. by apply sublist_cons.
      * eapply Forall_impl; [exact Htodo |]. intros ag Hag. by apply sublist_cons.
      * by apply sublist_cons.
Qed.

Lemma elem_of_concat (x : A) (ls : list (list A)) :
  x ∈ concat ls <-> exists l, x ∈ l /\ l ∈ ls.
Proof.
  induction ls as [|l0 ls IH]; simpl.
  - split; [by intros ?%elem_of_nil | by intros (l & _ & ?%elem_of_nil)].
  - rewrite elem_of_app, IH. split.
    + intros [Hx | (l & Hx & Hl)]; [exists l0; split; [done | by left] |].
      exists l. split; [done | by right].
    + intros (l & Hx & [-> | Hl]%elem_of_cons); [by left |]. right. by exists l.
Qed.

Lemma omap_cons {B : Type} (f : A -> option B) (x : A) (l : list A) :
  omap f (x :: l) = match f x with Some y => y :: omap f l | None => omap f l end.
Proof. reflexivity. Qed.

Lemma sublist_omap {B : Type} (f : A -> option B) (l1 l2 : list A) :
  l1 `sublist_of` l2 -> omap f l1 `sublist_of` omap f l2.
Proof.
  induction 1 as [|x l1 l2 _ IH|x l1 l2 _ IH]; [done | |].
  - change (omap f (x :: l1)) with (match f x with Some y => y :: omap f l1 | None => omap f l1 end).
    change (omap f (x :: l2)) with (match f x with Some y => y :: omap f l2 | None => omap f l2 end).
    destruct (f x); [by apply sublist_skip | done].
  - change (omap f (x :: l2)) with (match f x with Some y => y :: omap f l2 | None => omap f l2 end).
    destruct (f x); [by apply sublist_cons | done].
Qed.

End SchedulerFacts.

(** ** The fan-out *)

Section AttemptFacts.
Context `{URL} {Configuration : Type} `{JSON (option Configuration)}.
Implicit Types (conf : option Configuration) (pod : Pod).

Lemma upto_accepted_cons a l :
  upto_accepted (a :: l) = a :: if accepted a then [] else upto_accepted l.
Proof.
  unfold upto_accepted. cbn [list_find]. destruct (accepted a) eqn:Ha.
  - case_decide; [done | congruence].
  - case_decide; [congruence |].
    destruct (list_find (fun a0 => accepted a0 = true) l) as [[i x]|]; done.
Qed.

(** One attempt on a pod to which a push can be made. *)
Lemma deployToPod_pushable conf pod req a :
  push_request conf pod = Some req ->
  (deployToPod (pod_Name pod) (pod_PodIP pod) conf a).1 = attempt_effects pod req a
  /\ no_error (deployToPod (pod_Name pod) (pod_PodIP pod) conf a).2 = accepted a.
Proof.
  unfold push_request, deployToPod, NewRequest, attempt_effects, record_of, accepted,
    message_of, StatusOK.
  destruct (_ || _); [done |]. destruct (Marshal conf) as [b|e]; [| done].
  destruct (url_Parse _) as [e|]; [done |]. intros [= <-].
  destruct a as [[[code [be|]]|] [e|]]; simpl; try done;
    destruct (code =? 200); done.
Qed.

(** One attempt on a pod to which no push can be made: nothing happens,
    and an error is returned. *)
Lemma deployToPod_unpushable conf pod a :
  push_request conf pod = None ->
  exists e, deployToPod (pod_Name pod) (pod_PodIP pod) conf a = ([], Some e).
Proof.
  unfold push_request, deployToPod, NewRequest.
  destruct (_ || _); [by eexists |]. destruct (Marshal conf) as [b|e]; [| by eexists].
  destruct (url_Parse _) as [e|]; [by eexists | done].
Qed.

Lemma Retry_pushable conf pod req (ans : nat -> Exchange) retries : forall n,
  push_request conf pod = Some req ->
  let ran := Retry (fun k => deployToPod (pod_Name pod) (pod_PodIP pod) conf (ans k))
               n retries in
  ran.1 = flat_map (attempt_effects pod req) (upto_accepted (ans <$> seq n (S retries)))
  /\ no_error ran.2 = existsb accepted (ans <$> seq n (S retries)).
Proof.
  induction retries as [|retries IH]; intros n Hreq ran; subst ran.
  - cbn [Retry seq fmap list_fmap]. rewrite upto_accepted_cons.
    destruct (deployToPod_pushable conf pod req (ans n) Hreq) as [Heff Hok].
    destruct (deployToPod _ _ conf (ans n)) as [effects [e|]]; simpl in Heff, Hok;
      subst effects; revert Hok; unfold attempt_effects; simpl;
      destruct (accepted (ans n)); intros Hok; try done; by rewrite ?app_nil_r.
  - change (seq n (S (S retries))) with (n :: seq (S n) (S retries)).
    cbn [fmap list_fmap]. rewrite upto_accepted_cons. cbn [existsb].
    destruct (deployToPod_pushable conf pod req (ans n) Hreq) as [Heff Hok].
    destruct (IH (S n) Hreq) as [IHeff IHok].
    change (Retry (fun k => deployToPod (pod_Name pod) (pod_PodIP pod) conf (ans k))
              n (S retries))
      with (let m := deployToPod (pod_Name pod) (pod_PodIP pod) conf (ans n) in
            let k := match m.2 with
                     | None => mret None
                     | Some _ =>
                         Retry (fun k => deployToPod (pod_Name pod) (pod_PodIP pod) conf (ans k))
                           (S n) retries
                     end in
            (m.1 ++ k.1, k.2)).
    destruct (deployToPod _ _ conf (ans n)) as [effects [e|]]; simpl in Heff, Hok;
      subst effects; revert Hok; unfold attempt_effects; simpl;
      destruct (accepted (ans n)); intros Hok; try done;
      simpl; rewrite ?IHeff, ?IHok, ?app_nil_r; done.
Qed.

Lemma Retry_unpushable conf pod (ans : nat -> Exchange) retries : forall n,
  push_request conf pod = None ->
  exists e, Retry (fun k => deployToPod (pod_Name pod) (pod_PodIP pod) conf (ans k))
              n retries = ([], Some e).
Proof.
  induction retries as [|retries IH]; intros n Hreq.
  - destruct (deployToPod_unpushable conf pod (ans n) Hreq) as [e He].
    exists e. cbn [Retry]. rewrite He. done.
  - destruct (deployToPod_unpushable conf pod (ans n) Hreq) as [e He].
    destruct (IH (S n) Hreq) as [e' He']. exists e'.
    change (Retry (fun k => deployToPod (pod_Name pod) (pod_PodIP pod) conf (ans k))
              n (S retries))
      with (let m := deployToPod (pod_Name pod) (pod_PodIP pod) conf (ans n) in
            let k := match m.2 with
                     | None => mret None
                     | Some _ =>
                         Retry (fun k => deployToPod (pod_Name pod) (pod_PodIP pod) conf (ans k))
                           (S n) retries
                     end in
            (m.1 ++ k.1, k.2)).
    rewrite He. simpl. rewrite He'. done.
Qed.

(** The goroutine of a pod: the effects of the attempts made, then its
    error, which is none exactly when the pod took the configuration. *)
Lemma goroutine_effects conf env pod :
  exists err,
    no_error err = delivered conf env pod
    /\ goroutine pod conf env
       = match push_request conf pod with
         | Some req => flat_map (attempt_effects pod req) (attempts env pod)
         | None => []
         end ++ [Finished err].
Proof.
  unfold goroutine, delivered, attempts, allowed.
  destruct (push_request conf pod) as [req|] eqn:Hreq.
  - destruct (Retry_pushable conf pod req (answers env pod) (retries env pod) 0 Hreq)
      as [Heff Hok].
    destruct (Retry _ 0 (retries env pod)) as [effects err]. simpl in *.
    exists err. by rewrite Heff, Hok.
  - destruct (Retry_unpushable conf pod (answers env pod) (retries env pod) 0 Hreq)
      as [e ->].
    by exists (Some e).
Qed.

Lemma attempts_sent pod req l :
  omap sent_of (flat_map (attempt_effects pod req) l) = (fun _ => req) <$> l.
Proof.
  induction l as [|a l IH]; [done |]. cbn [flat_map]. rewrite omap_app, IH.
  unfold attempt_effects. by destruct (accepted a).
Qed.

Lemma attempts_recorded pod req l :
  omap recorded_of (flat_map (attempt_effects pod req) l) = record_of pod <$> l.
Proof.
  induction l as [|a l IH]; [done |]. cbn [flat_map]. rewrite omap_app, IH.
  unfold attempt_effects. by destruct (accepted a).
Qed.

Lemma attempts_failure pod req l :
  omap failure_of (flat_map (attempt_effects pod req) l) = [].
Proof.
  induction l as [|a l IH]; [done |]. cbn [flat_map]. rewrite omap_app, IH.
  unfold attempt_effects. by destruct (accepted a).
Qed.

(** The attempts made hold an accepted answer, the last one, exactly when
    the attempts allowed do. *)
Lemma attempts_logged pod req l :
  omap logged_of (flat_map (attempt_effects pod req) (upto_accepted l))
  = if existsb accepted l then [deployed_entry pod] else [].
Proof.
  induction l as [|a l IH]; [done |]. rewrite upto_accepted_cons.
  cbn [flat_map existsb]. rewrite omap_app. unfold attempt_effects at 1.
  destruct (accepted a); simpl; [done | exact IH].
Qed.

(** What the goroutine of a pod sends, records, logs and returns. *)
Lemma goroutine_sent conf env pod :
  omap sent_of (goroutine pod conf env) = pushes conf env pod.
Proof.
  destruct (goroutine_effects conf env pod) as (err & _ & ->). unfold pushes.
  rewrite omap_app. simpl. rewrite app_nil_r.
  destruct (push_request conf pod) as [req|]; [apply attempts_sent | done].
Qed.

Lemma goroutine_recorded conf env pod :
  omap recorded_of (goroutine pod conf env) = records_of conf env pod.
Proof.
  destruct (goroutine_effects conf env pod) as (err & _ & ->). unfold records_of.
  rewrite omap_app. simpl. rewrite app_nil_r.
  destruct (push_request conf pod) as [req|]; [apply attempts_recorded | done].
Qed.

Lemma goroutine_logged conf env pod :
  omap logged_of (goroutine pod conf env)
  = if delivered conf env pod then [deployed_entry pod] else [].
Proof.
  destruct (goroutine_effects conf env pod) as (err & _ & ->). unfold delivered, attempts.
  rewrite omap_app. simpl. rewrite app_nil_r.
  destruct (push_request conf pod) as [req|]; [apply attempts_logged | done].
Qed.

Lemma goroutine_failure conf env pod :
  omap failure_of (goroutine pod conf env) = [] <-> delivered conf env pod = true.
Proof.
  destruct (goroutine_effects conf env pod) as (err & Herr & ->).
  rewrite omap_app, <- Herr.
  assert (omap failure_of match push_request conf pod with
                          | Some req => flat_map (attempt_effects pod req) (attempts env pod)
                          | None => []
                          end = []) as ->.
  { destruct (push_request conf pod) as [req|]; [apply attempts_failure | done]. }
  by destruct err.
Qed.

End AttemptFacts.

Section WorldFacts.

Lemma same_cluster_refl w : same_cluster w w.
Proof. by repeat split. Qed.

Lemma same_cluster_trans w1 w2 w3 :
  same_cluster w1 w2 -> same_cluster w2 w3 -> same_cluster w1 w3.
Proof.
  intros (? & ? & ? & ? & ? & ?) (? & ? & ? & ? & ? & ?). repeat split; congruence.
Qed.


Lemma same_cluster_logf_r l msg w w' : same_cluster w w' -> same_cluster w (logf l msg w').
Proof. by intros (? & ? & ? & ? & ? & ?). Qed.

End WorldFacts.

Section DeployFacts.
Context `{MapRange} `{URL} {Configuration : Type} `{EqDecision Configuration}
  `{JSON (option Configuration)}.
Implicit Types (c : Controller Configuration) (conf : option Configuration).

Lemma same_but_deployLog_refl c : same_but_deployLog c c.
Proof. by repeat split. Qed.

Lemma same_but_deployLog_trans c1 c2 c3 :
  same_but_deployLog c1 c2 -> same_but_deployLog c2 c3 -> same_but_deployLog c1 c3.
Proof.
  intros (? & ? & ? & ? & ? & ?) (? & ? & ? & ? & ? & ?). repeat split; congruence.
Qed.

(** The state after the effects of a trace took place. *)
Lemma perform_all trace : forall err c w,
  let st := fold_left perform trace (err, c, w) in
  same_but_deployLog c st.1.2 /\ same_cluster w st.2
  /\ deployLog st.1.2 = fold_left (LogDeploy 1000) (omap recorded_of trace) (deployLog c)
  /\ requests st.2 = requests w ++ omap sent_of trace
  /\ logs st.2 = logs w ++ omap logged_of trace
  /\ st.1.1 = match err with Some _ => err | None => head (omap failure_of trace) end.
Proof.
  induction trace as [|e trace IH]; intros err c w st; subst st.
  - simpl. rewrite !app_nil_r. repeat split; try done. by destruct err.
  - cbn [fold_left]. rewrite !omap_cons.
    destruct e as [[l msg]|req|r|err'];
      cbn [perform sent_of recorded_of logged_of failure_of level text].
    + destruct (IH err c (logf l msg w)) as (Hc & Hw & Hrec & Hsent & Hlogs & Herr).
      split; [done |]. split.
      { eapply same_cluster_trans; [| exact Hw]. apply same_cluster_logf_r, same_cluster_refl. }
      split; [done |]. split; [done |]. split; [| done].
      rewrite Hlogs. simpl. by rewrite <- app_assoc.
    + destruct (IH err c (with_requests (requests w ++ [req]) w))
        as (Hc & Hw & Hrec & Hsent & Hlogs & Herr).
      split; [done |]. split.
      { eapply same_cluster_trans; [| exact Hw]. by repeat split. }
      split; [done |]. split; [| done]. rewrite Hsent. simpl. by rewrite <- app_assoc.
    + destruct (IH err (with_deployLog (LogDeploy 1000 (deployLog c) r) c) w)
        as (Hc & Hw & Hrec & Hsent & Hlogs & Herr).
      split; [| done]. eapply same_but_deployLog_trans; [| exact Hc]. by repeat split.
    + destruct (IH (match err with Some _ => err | None => err' end) c w)
        as (Hc & Hw & Hrec & Hsent & Hlogs & Herr).
      split; [done |]. split; [done |]. split; [by destruct err' |].
      split; [by destruct err' |]. split; [by destruct err' |].
      rewrite Herr. by destruct err, err'.
Qed.

(** The effects of a fan-out, whatever the schedule. *)
Lemma started_omap {B : Type} (f : Effect -> option B) conf env pods :
  omap f (flat_map (fun '(a, g) => a :: g)
            ((fun pod => (Logged (deploying_entry pod), goroutine pod conf env)) <$> pods))
  = concat ((fun pod => omap f (Logged (deploying_entry pod) :: goroutine pod conf env))
              <$> pods).
Proof.
  induction pods as [|pod pods IH]; [done |].
  cbn [fmap list_fmap flat_map concat]. rewrite <- IH.
  change (omap f ((Logged (deploying_entry pod) :: goroutine pod conf env) ++ ?l))
    with (omap f ((Logged (deploying_entry pod) :: goroutine pod conf env) ++ l)).
  by rewrite <- omap_app.
Qed.

Lemma fan_out_trace conf env pods :
  let trace :=
    interleave (schedule env)
      ((fun pod => (Logged (deploying_entry pod), goroutine pod conf env)) <$> pods) [] in
  (omap recorded_of trace ≡ₚ concat (records_of conf env <$> pods)
   /\ Forall (fun pod => records_of conf env pod `sublist_of` omap recorded_of trace) pods)
  /\ omap sent_of trace ≡ₚ concat (pushes conf env <$> pods)
  /\ (omap logged_of trace ≡ₚ concat (entries_of conf env <$> pods)
      /\ (deploying_entry <$> pods) `sublist_of` omap logged_of trace)
  /\ (omap failure_of trace = [] <-> forallb (delivered conf env) pods = true).
Proof.
  intros trace.
  pose proof (interleave_perm (schedule env)
                ((fun pod => (Logged (deploying_entry pod), goroutine pod conf env)) <$> pods)
                []) as Hperm.
  fold trace in Hperm. simpl in Hperm.
  destruct (interleave_sublist (schedule env)
              ((fun pod => (Logged (deploying_entry pod), goroutine pod conf env)) <$> pods)
              []) as (_ & Heach & Hloop).
  fold trace in Heach, Hloop.
  split; [split |]; [| | split; [| split; [split |]]].
  - rewrite Hperm, started_omap.
    rewrite (list_fmap_ext _ (records_of conf env) pods); [done |]. intros _ pod _.
    rewrite omap_cons. apply goroutine_recorded.
  - apply Forall_forall. intros pod Hpod. rewrite Forall_fmap, Forall_forall in Heach.
    specialize (Heach pod Hpod). simpl in Heach.
    apply (sublist_omap recorded_of) in Heach. rewrite omap_cons in Heach.
    simpl in Heach. by rewrite goroutine_recorded in Heach.
  - rewrite Hperm, started_omap.
    rewrite (list_fmap_ext _ (pushes conf env) pods); [done |]. intros _ pod _.
    rewrite omap_cons. apply goroutine_sent.
  - rewrite Hperm, started_omap.
    rewrite (list_fmap_ext _ (entries_of conf env) pods); [done |]. intros _ pod _.
    rewrite omap_cons. simpl. unfold entries_of. by rewrite goroutine_logged.
  - apply (sublist_omap logged_of) in Hloop.
    replace (omap logged_of
               (((fun pod => (Logged (deploying_entry pod), goroutine pod conf env)) <$> pods).*1))
      with (deploying_entry <$> pods) in Hloop; [done |].
    clear. induction pods as [|pod pods IH]; [done |].
    cbn [fmap list_fmap]. rewrite omap_cons. cbn [fst logged_of]. by f_equal.
  - assert (omap failure_of trace = []
            <-> omap failure_of
                  (flat_map (fun '(a, g) => a :: g)
                     ((fun pod => (Logged (deploying_entry pod), goroutine pod conf env))
                        <$> pods)) = []) as ->.
    { split; intros Hnil; apply Permutation_nil_r.
      - by rewrite <- Hperm, Hnil.
      - by rewrite Hperm, Hnil. }
    rewrite started_omap. clear. induction pods as [|pod pods IH]; [done |].
    cbn [fmap list_fmap concat forallb].
    rewrite andb_true_iff, <- IH, <- goroutine_failure, omap_cons. cbn [failure_of]. split.
    + by intros [? ?]%app_eq_nil.
    + by intros [-> ->].
Qed.

(** What [deployToPods] does, whatever the schedule and the answers. *)
Lemma deployToPods_spec c pods conf env w :
  let r := deployToPods c pods conf env w in
  fanned_out conf env pods c w r.1.2 r.2
  /\ no_error r.1.1 = forallb (delivered conf env) pods.
Proof.
  intros r. subst r. unfold deployToPods.
  change (fun pod : Pod =>
            (Logged {| level := DebugLevel;
                       text := "Deploying to pod " +:+ pod_Name pod +:+ " with IP "
                               +:+ pod_PodIP pod |}, goroutine pod conf env))
    with (fun pod : Pod => (Logged (deploying_entry pod), goroutine pod conf env)).
  destruct (fan_out_trace conf env pods)
    as ((Hrec & Hrecs) & Hsent & (Hlogs & Hloop) & Hfail).
  set (trace := interleave _ _ _) in *.
  destruct (perform_all trace None c w) as (Hc & Hw & Hdl & Hreq & Hlog & Herr).
  destruct (fold_left perform trace (None, c, w)) as [[err c'] w']. simpl in *.
  split.
  - split; [done |]. split; [done |]. split; [| split].
    + by exists (omap recorded_of trace).
    + by exists (omap sent_of trace).
    + by exists (omap logged_of trace).
  - subst err. destruct (forallb (delivered conf env) pods) eqn:Hall.
    + rewrite (proj2 Hfail eq_refl). reflexivity.
    + destruct (omap failure_of trace) as [|e l] eqn:Hnil; [| reflexivity].
      by pose proof (proj1 Hfail eq_refl).
Qed.

Lemma fanned_out_nil conf env c w : fanned_out conf env [] c w c w.
Proof.
  split; [apply same_but_deployLog_refl |]. split; [apply same_cluster_refl |].
  split; [| split].
  - exists []. by repeat split.
  - exists []. by rewrite app_nil_r.
  - exists []. by rewrite app_nil_r.
Qed.

Lemma deployConfiguration_spec c conf podList env w :
  let r := deployConfiguration c conf podList env w in
  fanned_out conf env (pods_of podList) c w r.1.2 r.2
  /\ no_error r.1.1 = fan_out_ok conf env podList.
Proof.
  intros r. subst r. unfold deployConfiguration, fan_out_ok.
  destruct podList as [[|pod pods]|e]; simpl; try (split; [apply fanned_out_nil | done]).
  destruct (deployToPods_spec c (pod :: pods) conf env w) as [Hout Hok].
  destruct (deployToPods c (pod :: pods) conf env w) as [[[e|] c'] w']; done.
Qed.

Lemma deployConfigurationToUnreadyNodes_spec c conf podList env w :
  let r := deployConfigurationToUnreadyNodes c conf podList env w in
  fanned_out conf env (laggards podList) c w r.1.2 r.2
  /\ no_error r.1.1 = laggards_ok conf env podList.
Proof.
  intros r. subst r. unfold deployConfigurationToUnreadyNodes, laggards_ok, laggards.
  destruct podList as [[|pod pods]|e]; try (split; [apply fanned_out_nil | done]).
  cbn [pods_of].
  destruct (deployToPods_spec c (List.filter unready (pod :: pods)) conf env w) as [Hout Hok].
  destruct (deployToPods c (List.filter unready (pod :: pods)) conf env w)
    as [[[e|] c'] w']; done.
Qed.

Lemma fanned_out_frame conf env pods c w c' w' :
  fanned_out conf env pods c w c' w' -> same_but_deployLog c c' /\ same_cluster w w'.
Proof. by intros (? & ? & _). Qed.

Lemma DeepEqual_true (last : Interface Configuration) conf :
  DeepEqual last conf = true <-> last = ConfigurationPtr conf.
Proof.
  unfold DeepEqual. destruct last as [|p]; [done |].
  rewrite bool_decide_eq_true. split; congruence.
Qed.

(** What a turn that deploys does. *)
Lemma turn_refresh c w message conf podList env :
  deploys c message conf = true ->
  let stored := with_lastConfiguration (ConfigurationPtr conf) c in
  let r := deployConfiguration stored conf podList env w in
  fanned_out conf env (pods_of podList) stored w r.1.2 r.2
  /\ turn c w (Refresh message (Ok conf) podList env)
     = inl (if fan_out_ok conf env podList then EnableReadiness r.1.2 else r.1.2, r.2).
Proof.
  intros Hgo stored r. subst r. unfold deploys in Hgo. simpl. rewrite Hgo. fold stored.
  destruct (deployConfiguration_spec stored conf podList env w) as [Hout Hok].
  split; [done |]. rewrite <- Hok.
  by destruct (deployConfiguration stored conf podList env w) as [[[e|] c'] w'].
Qed.

Lemma turn_tick c w conf podList env :
  lastConfiguration c = ConfigurationPtr conf ->
  let w0 := logf DebugLevel "Deploying configuration to unready nodes" w in
  let r := deployConfigurationToUnreadyNodes c conf podList env w0 in
  fanned_out conf env (laggards podList) c w0 r.1.2 r.2
  /\ turn c w (Tick podList env)
     = inl (if laggards_ok conf env podList then EnableReadiness r.1.2 else r.1.2, r.2).
Proof.
  intros Hlast w0 r. subst r. simpl. rewrite Hlast. fold w0.
  destruct (deployConfigurationToUnreadyNodes_spec c conf podList env w0) as [Hout Hok].
  split; [done |]. rewrite <- Hok.
  by destruct (deployConfigurationToUnreadyNodes c conf podList env w0) as [[[e|] c'] w'].
Qed.

(** A turn after which the loop goes on leaves readiness as it was, or
    sets it because its deploy call returned no error. *)
Lemma turn_readiness c w ev c' w' :
  turn c w ev = inl (c', w') ->
  readiness c' = readiness c || deploy_succeeds c ev.
Proof.
  destruct ev as [|message [conf|e] podList env|podList env]; try done.
  - destruct (deploys c message conf) eqn:Hgo.
    + destruct (turn_refresh c w message conf podList env Hgo) as [Hout ->].
      apply fanned_out_frame in Hout as [(Hr & _) _]. simpl in Hr.
      unfold deploy_succeeds. rewrite Hgo. simpl.
      destruct (fan_out_ok conf env podList); intros [= <- <-]; simpl;
        rewrite ?Hr; by destruct (readiness c).
    + unfold deploy_succeeds. rewrite Hgo. unfold deploys in Hgo. simpl. rewrite Hgo.
      intros [= <- <-]. by destruct (readiness c).
  - unfold deploy_succeeds. destruct (lastConfiguration c) as [|conf] eqn:Hlast.
    { simpl. by rewrite Hlast. }
    destruct (turn_tick c w conf podList env Hlast) as [Hout ->].
    apply fanned_out_frame in Hout as [(Hr & _) _].
    destruct (laggards_ok conf env podList); intros [= <- <-]; simpl;
      rewrite ?Hr; by destruct (readiness c).
Qed.

Lemma loop_readiness events : forall c w,
  readiness (loop c w events).1.2 = true ->
  readiness c = true
  \/ exists before ev rest c1 w1,
       events = before ++ ev :: rest /\ after c w before = Some (c1, w1)
       /\ deploy_succeeds c1 ev = true.
Proof.
  induction events as [|ev rest IH]; intros c w; simpl; [by left |].
  destruct (turn c w ev) as [[c' w']|[[out c'] w']] eqn:Hturn.
  - intros Hready. pose proof (turn_readiness _ _ _ _ _ Hturn) as Hstep.
    destruct (IH c' w' Hready) as [Hc' | (before & ev' & rest' & c1 & w1 & -> & Hafter & Hok)].
    + rewrite Hc' in Hstep. symmetry in Hstep. apply orb_true_iff in Hstep as [? | Hok];
        [by left |].
      right. exists [], ev, rest, c, w. done.
    + right. exists (ev :: before), ev', rest', c1, w1. simpl. by rewrite Hturn.
  - simpl. intros Hready. left.
    destruct ev as [|message [conf|e] podList env|podList env]; simpl in Hturn.
    + by injection Hturn as _ <- _.
    + destruct (_ || _); [| done].
      by destruct (deployConfiguration _ conf podList env w) as [[[e|] c1] w1].
    + by injection Hturn as _ <- _.
    + destruct (lastConfiguration c) as [|p]; [by injection Hturn as _ <- _ |].
      by destruct (deployConfigurationToUnreadyNodes c p podList env _) as [[[e|] c1] w1].
Qed.

End DeployFacts.

(** ** The loop of [Run] *)

Section BootstrapFacts.
Context `{MapRange} `{URL} {Configuration : Type} `{EqDecision Configuration}
  `{JSON (option Configuration)}.
Implicit Types c : Controller Configuration.

Lemma same_but_table_refl c : same_but_table c c.
Proof. by repeat split. Qed.

Lemma same_but_table_trans c1 c2 c3 :
  same_but_table c1 c2 -> same_but_table c2 c3 -> same_but_table c1 c3.
Proof.
  unfold same_but_table. intros (? & ? & ? & ? & ? & ?) (? & ? & ? & ? & ? & ?).
  repeat split; congruence.
Qed.

Lemma getTCPPort_same c name ns port w :
  same_but_table c (getTCPPort c name ns port w).1.2.
Proof.
  unfold getTCPPort. destruct (Find _ _) as [p [|]]; [apply same_but_table_refl |].
  cbv iota beta.
  match goal with
  | |- context [Add ?m ?s ?w0] => destruct (Add m s w0) as [[[port'|e] m'] w']
  end; by repeat split.
Qed.

Lemma meshPorts_same mode service sps : forall id acc c w,
  same_but_table c (meshPorts mode service id sps acc c w).1.2.
Proof.
  induction sps as [|sp rest IH]; intros id acc c w; [apply same_but_table_refl |].
  cbn [meshPorts]. destruct (negb _); [apply IH |].
  destruct (String.eqb mode ServiceTypeTCP); [| apply IH].
  pose proof (getTCPPort_same c (svc_Name service) (svc_Namespace service) (sp_Port sp) w)
    as Hget.
  destruct (getTCPPort c _ _ _ w) as [[[port|e] c1] w1]; simpl in Hget;
    (eapply same_but_table_trans; [exact Hget | apply IH]).
Qed.

Lemma createMeshService_same c service w :
  same_but_table c (createMeshService c service w).1.2.
Proof.
  unfold createMeshService. destruct (GetService _ _) as [[|]|];
    try apply same_but_table_refl.
  match goal with
  | |- context [meshPorts ?a ?b ?i ?l ?ac ?cc ?ww] =>
      pose proof (meshPorts_same a b l i ac cc ww) as Hports;
      destruct (meshPorts a b i l ac cc ww) as [[ports c'] w']
  end.
  by destruct (CreateService _ w').
Qed.

Lemma createEach_same svcs : forall c w,
  same_but_table c (createEach c svcs w).1.2.
Proof.
  induction svcs as [|service rest IH]; intros c w; [apply same_but_table_refl |].
  cbn [createEach]. destruct (IsIgnored (ignored c) service); [apply IH |].
  destruct (GetService _ _) as [[|]|]; [| apply same_but_table_refl | apply IH].
  match goal with
  | |- context [createMeshService ?cc ?s ?ww] =>
      pose proof (createMeshService_same cc s ww) as Hone;
      destruct (createMeshService cc s ww) as [[[e|] c1] w1]
  end; simpl in Hone; [done |].
  eapply same_but_table_trans; [exact Hone | apply IH].
Qed.

Lemma createMeshServices_same c listed w :
  same_but_table c (createMeshServices c listed w).1.2.
Proof.
  unfold createMeshServices. destruct (LabelSelector _); [apply same_but_table_refl |].
  destruct listed; [apply createEach_same | apply same_but_table_refl].
Qed.

(** With a ConfigMap to read, [Run] reaches its loop whatever
    [createMeshServices] returns, in a state that differs from the one it
    was given by the port mapping only; an error of [createMeshServices] is
    logged. *)
Lemma Run_reaches_loop c w listed events data :
  configMap w = Some data ->
  exists c1 w1,
    let r := createMeshServices c1 listed w1 in
    Run c w listed events
    = loop r.1.2
        (if no_error r.1.1 then r.2
         else logf ErrorLevel "could not create mesh services" r.2) events
    /\ same_but_table c r.1.2.
Proof.
  intros Hdata. unfold Run, NewTCPPortMapping, loadState. simpl. rewrite Hdata.
  match goal with
  | |- context [createMeshServices ?cc ?s ?ww] =>
      exists cc, ww; pose proof (createMeshServices_same cc s ww) as Hsame;
      destruct (createMeshServices cc s ww) as [[[e|] c1] w1]
  end; done.
Qed.

Lemma Run_without_ConfigMap c w listed events :
  configMap w = None ->
  (Run c w listed events).1 = (Returned (Some (ErrNewTCPPortMapping ErrLoadState)), c).
Proof.
  intros Hdata. unfold Run, NewTCPPortMapping, loadState. simpl. by rewrite Hdata.
Qed.

End BootstrapFacts.

Section FanOutFacts.
Context `{URL} {Configuration : Type} `{JSON (option Configuration)}.
Implicit Types (conf : option Configuration) (pod : Pod).

Lemma upto_accepted_Forall (P : Exchange -> Prop) l :
  Forall P l -> Forall P (upto_accepted l).
Proof.
  unfold upto_accepted. destruct (list_find _ l) as [[i x]|]; [| done]. apply Forall_take.
Qed.

Lemma attempts_nonempty env pod : attempts env pod <> [].
Proof.
  unfold attempts, allowed. change (seq 0 (S (retries env pod)))
    with (0%nat :: seq 1 (retries env pod)).
  cbn [fmap list_fmap]. by rewrite upto_accepted_cons.
Qed.

(** A request is among those of the fan-out to [pods] exactly when it is
    the request of a push to one of them. *)
Lemma pushes_request conf env pods req :
  req ∈ concat (pushes conf env <$> pods)
  <-> exists pod, pod ∈ pods /\ push_request conf pod = Some req.
Proof.
  rewrite elem_of_concat. split.
  - intros (l & Hreq & (pod & -> & Hpod)%list_elem_of_fmap). exists pod. split; [done |].
    unfold pushes in Hreq. destruct (push_request conf pod) as [req'|]; [| by apply elem_of_nil in Hreq].
    by apply list_elem_of_fmap in Hreq as (a & -> & _).
  - intros (pod & Hpod & Hreq). exists (pushes conf env pod).
    split; [| apply list_elem_of_fmap; by exists pod].
    unfold pushes. rewrite Hreq. pose proof (attempts_nonempty env pod) as Hne.
    destruct (attempts env pod) as [|a l]; [done |]. left.
Qed.

Lemma push_request_spec conf pod req :
  push_request conf pod = Some req ->
  pod_Name pod <> "" /\ pod_PodIP pod <> ""
  /\ req_Method req = "PUT"
  /\ req_URL req = "http://" +:+ pod_PodIP pod +:+ ":8080/api/providers/rest"
  /\ Marshal conf = Ok (req_Body req).
Proof.
  unfold push_request.
  destruct (String.eqb_spec (pod_Name pod) ""), (String.eqb_spec (pod_PodIP pod) "");
    try done.
  simpl. destruct (Marshal conf) as [b|e]; [| done].
  destruct (url_Parse _); [done |]. by intros [= <-].
Qed.

(** The records of a pod that did not take the configuration are
    failures. *)
Lemma records_of_failed conf env pod :
  delivered conf env pod = false ->
  Forall (fun r => dr_Success r = false) (records_of conf env pod).
Proof.
  unfold delivered, records_of, attempts.
  destruct (push_request conf pod) as [req|]; [| by constructor].
  intros Hnone. apply Forall_fmap. apply upto_accepted_Forall.
  apply Forall_forall. intros a Ha. simpl.
  destruct (accepted a) eqn:Hacc; [| done].
  assert (existsb accepted (allowed env pod) = true) as Hsome; [| congruence].
  apply existsb_exists. exists a. split; [by apply list_elem_of_In | done].
Qed.

Lemma entries_of_debug conf env pods :
  Forall (fun e => level e = DebugLevel) (concat (entries_of conf env <$> pods)).
Proof.
  apply Forall_concat, Forall_fmap, Forall_forall. intros pod _. unfold entries_of. simpl.
  constructor; [done |]. destruct (delivered conf env pod); by repeat constructor.
Qed.

End FanOutFacts.

Section LoopFacts.
Context `{MapRange} `{URL} {Configuration : Type} `{EqDecision Configuration}
  `{JSON (option Configuration)}.
Implicit Types (c : Controller Configuration) (conf : option Configuration).

Lemma fanned_out_no_pods conf env c w c' w' :
  fanned_out conf env [] c w c' w' ->
  deployLog c' = deployLog c /\ requests w' = requests w /\ logs w' = logs w.
Proof.
  intros (_ & _ & (records & -> & ->%Permutation_nil_r & _) & (sent & -> & ->%Permutation_nil_r)
          & (entries & -> & ->%Permutation_nil_r & _)).
  by rewrite !app_nil_r.
Qed.

(** The fan-out adds debug entries only to the log. *)
Lemma fanned_out_logs conf env pods c w c' w' :
  fanned_out conf env pods c w c' w' ->
  Forall (fun e => level e = DebugLevel) (drop (length (logs w)) (logs w')).
Proof.
  intros (_ & _ & _ & _ & (entries & -> & Hperm & _)).
  rewrite drop_app_length, Hperm. apply entries_of_debug.
Qed.

Lemma turn_keeps_refl c w : turn_keeps c w c w.
Proof. repeat split; done. Qed.

Lemma turn_keeps_trans c1 w1 c2 w2 c3 w3 :
  turn_keeps c1 w1 c2 w2 -> turn_keeps c2 w2 c3 w3 -> turn_keeps c1 w1 c3 w3.
Proof.
  intros (Ht & Hw & Hr & Hl) (Ht' & Hw' & Hr' & Hl').
  split; [congruence |]. split; [by eapply same_cluster_trans |]. split; auto.
Qed.

Lemma turn_keeps_state c w ev :
  match turn c w ev with
  | inl (c', w') => turn_keeps c w c' w'
  | inr (_, c', w') => turn_keeps c w c' w'
  end.
Proof.
  destruct ev as [|message [conf|e] podList env|podList env].
  - simpl. repeat split; done.
  - destruct (deploys c message conf) eqn:Hgo.
    + destruct (turn_refresh c w message conf podList env Hgo) as [Hout ->].
      apply fanned_out_frame in Hout as [(Hr & Hl & Ht & _) Hw]. simpl in Hr, Hl, Ht.
      destruct (fan_out_ok conf env podList); unfold turn_keeps; simpl; rewrite ?Hl, ?Ht;
        repeat split; intros; try done; try congruence; apply Hw.
    + unfold deploys in Hgo. simpl. rewrite Hgo. apply turn_keeps_refl.
  - apply turn_keeps_refl.
  - destruct (lastConfiguration c) as [|conf] eqn:Hlast.
    { simpl. rewrite Hlast. repeat split; done. }
    destruct (turn_tick c w conf podList env Hlast) as [Hout ->].
    apply fanned_out_frame in Hout as [(Hr & Hl & Ht & _) Hw].
    assert (same_cluster w (deployConfigurationToUnreadyNodes c conf podList env
                              (logf DebugLevel "Deploying configuration to unready nodes" w)).2)
      as Hw'.
    { eapply same_cluster_trans; [| exact Hw]. apply same_cluster_logf_r, same_cluster_refl. }
    destruct (laggards_ok conf env podList); unfold turn_keeps; simpl; rewrite ?Hl, ?Ht;
      repeat split; intros; try done; try congruence; apply Hw'.
Qed.

Lemma loop_keeps_state events : forall c w,
  turn_keeps c w (loop c w events).1.2 (loop c w events).2.
Proof.
  induction events as [|ev rest IH]; intros c w; simpl; [apply turn_keeps_refl |].
  pose proof (turn_keeps_state c w ev) as Hturn.
  destruct (turn c w ev) as [[c' w']|[[out c'] w']]; [| done].
  eapply turn_keeps_trans; [exact Hturn | apply IH].
Qed.

(** How a turn ends when it does not leave the loop running. *)
Lemma turn_leaves c w ev out c' w' :
  turn c w ev = inr (out, c', w') ->
  (ev = Stop /\ out = Returned None)
  \/ (exists message e podList env,
        ev = Refresh message (Err e) podList env /\ out = Returned (Some (ErrBuild e)))
  \/ (exists podList env,
        ev = Tick podList env /\ lastConfiguration c = NilInterface /\ out = Panicked).
Proof.
  destruct ev as [|message [conf|e] podList env|podList env]; simpl.
  - intros [= <- _ _]. by left.
  - destruct (_ || _); [| done].
    by destruct (deployConfiguration _ conf podList env w) as [[[e|] c1] w1].
  - intros [= <- _ _]. right. left. by exists message, e, podList, env.
  - destruct (lastConfiguration c) as [|conf]; [intros [= <- _ _] |].
    + right. right. by exists podList, env.
    + by destruct (deployConfigurationToUnreadyNodes c conf podList env _) as [[[e|] c1] w1].
Qed.

Lemma loop_no_panic events : forall c w,
  lastConfiguration c <> NilInterface -> (loop c w events).1.1 <> Panicked.
Proof.
  induction events as [|ev rest IH]; intros c w Hlast; simpl; [done |].
  pose proof (turn_keeps_state c w ev) as Hturn.
  destruct (turn c w ev) as [[c' w']|[[out c'] w']] eqn:Hev.
  - apply IH. by apply Hturn.
  - simpl. apply turn_leaves in Hev
      as [[_ ->] | [(? & ? & ? & ? & _ & ->) | (? & ? & _ & ? & _)]]; done.
Qed.

End LoopFacts.

(** ** Claims about the loop of [Run] *)

(** C2. On a refresh whose build gave [conf]: when the tag is not [force]
    and [conf] deep-equals what is stored, the turn changes nothing (no
    deploy, the stored configuration as it was). Otherwise [conf] is stored
    and fanned out to the pods that the lister returns: every pod that has
    a name and an address is sent the JSON form of [conf] with PUT, at
    [http://<ip>:8080/api/providers/rest], as many times as attempts are
    made on it; nothing else is sent; the deploy log takes one record for
    each attempt and the log its debug entries; and readiness is set
    exactly when pods are listed and each of them took the configuration. *)
Theorem C2_refresh_deploys_on_change `{MapRange} `{URL} {Configuration : Type}
    `{EqDecision Configuration} `{JSON (option Configuration)}
    (c : Controller Configuration) (w : World)
    (message : string) (conf : option Configuration)
    (podList : result unit (list Pod)) (env : Environment) :
  let ev := Refresh message (Ok conf) podList env in
  let stored := with_lastConfiguration (ConfigurationPtr conf) c in
  (DeepEqual (lastConfiguration c) conf = true <-> lastConfiguration c = ConfigurationPtr conf)
  /\ (message <> ConfigMessageChanForce /\ lastConfiguration c = ConfigurationPtr conf ->
      turn c w ev = inl (c, w))
  /\ (message = ConfigMessageChanForce \/ lastConfiguration c <> ConfigurationPtr conf ->
      let r := deployConfiguration stored conf podList env w in
      turn c w ev = inl (if no_error r.1.1 then EnableReadiness r.1.2 else r.1.2, r.2)
      /\ no_error r.1.1 = fan_out_ok conf env podList
      /\ lastConfiguration r.1.2 = ConfigurationPtr conf
      /\ fanned_out conf env (pods_of podList) stored w r.1.2 r.2
      /\ exists sent,
           requests r.2 = requests w ++ sent
           /\ (forall pod req,
                 pod ∈ pods_of podList -> push_request conf pod = Some req -> req ∈ sent)
           /\ (forall req, req ∈ sent ->
                 req_Method req = "PUT" /\ Marshal conf = Ok (req_Body req)
                 /\ exists pod, pod ∈ pods_of podList /\ pod_Name pod <> ""
                      /\ req_URL req
                         = "http://" +:+ pod_PodIP pod +:+ ":8080/api/providers/rest")).
Proof.
  intros ev stored. split; [apply DeepEqual_true |]. split.
  - intros [Hmsg Hsame]. simpl.
    destruct (String.eqb_spec message ConfigMessageChanForce) as [|_]; [done |].
    apply DeepEqual_true in Hsame. by rewrite Hsame.
  - intros Hgo.
    assert (deploys c message conf = true) as Hdeploys.
    { unfold deploys. destruct Hgo as [-> | Hdiff]; [done |]. apply orb_true_iff. right.
      destruct (DeepEqual (lastConfiguration c) conf) eqn:Heq; [| done].
      by apply DeepEqual_true in Heq. }
    intros r.
    destruct (turn_refresh c w message conf podList env Hdeploys) as [Hout Hturn].
    destruct (deployConfiguration_spec stored conf podList env w) as [_ Hres].
    fold stored in Hout, Hturn. fold r in Hout, Hturn, Hres.
    pose proof Hout as (Hc & _ & _ & (sent & Hreq & Hsent) & _).
    split; [by rewrite Hres |]. split; [done |]. split.
    { destruct Hc as (_ & -> & _). done. }
    split; [done |]. exists sent. split; [done |]. split.
    + intros pod req Hpod Hpush. rewrite Hsent. apply pushes_request. by exists pod.
    + intros req Hin. rewrite Hsent in Hin.
      apply pushes_request in Hin as (pod & Hpod & Hpush).
      apply push_request_spec in Hpush as (? & ? & ? & ? & ?).
      split; [done |]. split; [done |]. by exists pod.
Qed.

(** Scenario "force refresh": the computed configuration is the stored one,
    the tag is [force], and the fan-out runs all the same. *)
Example force_refresh :
  let c := with_lastConfiguration (ConfigurationPtr (Some tt)) controller0 in
  match turn c (world0 []) (Refresh "force" (Ok (Some tt)) (Ok [podA]) all_accept) with
  | inl (c', w') =>
      readiness c' = true
      /\ deployLog c'
         = [ {| dr_Name := "maesh-mesh-a"; dr_IP := "10.0.0.1"; dr_Success := true;
                dr_Message := "" |} ]
      /\ requests w'
         = [ {| req_Method := "PUT"; req_URL := "http://10.0.0.1:8080/api/providers/rest";
                req_Body := "{}" |} ]
  | inr _ => False
  end.
Proof. vm_compute. done. Qed.

(** C6 (amended). A refresh or a tick whose fan-out fails leaves the loop
    running on the events that follow, with readiness as it was. The error
    of the deploy call is dropped: what the turn adds to the log is debug
    entries, the attempts made on the pods are in the deploy log, and a
    fan-out that fails because no pod is listed, or because the lister
    fails, leaves no trace at all (after the debug entry that opens every
    tick). A refresh whose build fails ends [Run]:
    the error is returned and the events that follow are never received. At
    start, [Run] returns an error when the ConfigMap of the port mapping
    cannot be read; with a ConfigMap it reaches its loop whatever
    [createMeshServices] returns, an error of which is logged. *)
Theorem C6_cycle_failures `{MapRange} `{URL} {Configuration : Type}
    `{EqDecision Configuration} `{JSON (option Configuration)}
    (c : Controller Configuration) (w : World) :
  (forall message conf podList env rest,
      deploys c message conf = true -> fan_out_ok conf env podList = false ->
      let stored := with_lastConfiguration (ConfigurationPtr conf) c in
      let r := deployConfiguration stored conf podList env w in
      loop c w (Refresh message (Ok conf) podList env :: rest) = loop r.1.2 r.2 rest
      /\ r.1.1 <> None
      /\ readiness r.1.2 = readiness c
      /\ fanned_out conf env (pods_of podList) stored w r.1.2 r.2
      /\ Forall (fun e => level e = DebugLevel) (drop (length (logs w)) (logs r.2))
      /\ (pods_of podList = [] -> r.1.2 = stored /\ r.2 = w))
  /\ (forall conf podList env rest,
      lastConfiguration c = ConfigurationPtr conf -> laggards_ok conf env podList = false ->
      let w0 := logf DebugLevel "Deploying configuration to unready nodes" w in
      let r := deployConfigurationToUnreadyNodes c conf podList env w0 in
      loop c w (Tick podList env :: rest) = loop r.1.2 r.2 rest
      /\ r.1.1 <> None
      /\ readiness r.1.2 = readiness c
      /\ fanned_out conf env (laggards podList) c w0 r.1.2 r.2
      /\ Forall (fun e => level e = DebugLevel) (drop (length (logs w)) (logs r.2))
      /\ (pods_of podList = [] -> r.1.2 = c /\ r.2 = w0))
  /\ (forall message e podList env rest,
        loop c w (Refresh message (Err e) podList env :: rest)
        = (Returned (Some (ErrBuild e)), c, w))
  /\ (forall listed events, configMap w = None ->
        (Run c w listed events).1
        = (Returned (Some (ErrNewTCPPortMapping ErrLoadState)), c))
  /\ (forall listed events data, configMap w = Some data ->
        let m := {| table := fold_left loadEntry (range_of data) ∅;
                    minPort := 10000; maxPort := 10100 |} in
        let w1 := logf InfoLevel "Creating initial mesh services"
                    (logf DebugLevel "Starting Informers"
                       (logf DebugLevel "Initializing Mesh controller" w)) in
        let r := createMeshServices (with_tcpStateTable m c) listed w1 in
        Run c w listed events
        = loop r.1.2
            (if no_error r.1.1 then r.2
             else logf ErrorLevel "could not create mesh services" r.2) events
        /\ readiness r.1.2 = readiness c
        /\ lastConfiguration r.1.2 = lastConfiguration c).
Proof.
  split; [| split; [| split; [done |]; split]].
  - intros message conf podList env rest Hgo Hfail stored r.
    destruct (turn_refresh c w message conf podList env Hgo) as [Hout Hturn].
    destruct (deployConfiguration_spec stored conf podList env w) as [_ Hres].
    fold stored in Hout, Hturn. fold r in Hout, Hturn, Hres.
    rewrite Hfail in Hturn, Hres. cbn [loop]. rewrite Hturn.
    split; [done |]. split; [by destruct r.1.1 |]. split; [| split; [done |]; split].
    + by apply fanned_out_frame in Hout as [(-> & _) _].
    + by apply fanned_out_logs in Hout.
    + intros Hnone. subst r. unfold deployConfiguration.
      by destruct podList as [[|pod pods]|e].
  - intros conf podList env rest Hlast Hfail w0 r.
    destruct (turn_tick c w conf podList env Hlast) as [Hout Hturn].
    destruct (deployConfigurationToUnreadyNodes_spec c conf podList env w0) as [_ Hres].
    fold w0 in Hout, Hturn. fold r in Hout, Hturn, Hres.
    rewrite Hfail in Hturn, Hres. cbn [loop]. rewrite Hturn.
    split; [done |]. split; [by destruct r.1.1 |]. split; [| split; [done |]; split].
    + by apply fanned_out_frame in Hout as [(-> & _) _].
    + destruct Hout as (_ & _ & _ & _ & (entries & Heq & Hperm & _)).
      rewrite Heq. simpl. rewrite <- app_assoc, drop_app_length.
      constructor; [done |]. rewrite Hperm. apply entries_of_debug.
    + intros Hnone. subst r. unfold deployConfigurationToUnreadyNodes.
      by destruct podList as [[|pod pods]|e].
  - intros listed events. apply Run_without_ConfigMap.
  - intros listed events data Hdata m w1 r.
    pose proof (createMeshServices_same (with_tcpStateTable m c) listed w1)
      as (Hr & Hl & _).
    fold r in Hr, Hl. split; [| done].
    unfold Run, NewTCPPortMapping, loadState. simpl. rewrite Hdata.
    change (createMeshServices _ listed _) with r.
    by destruct r as [[[e|] c2] w2].
Qed.

(** C6 as stated fails on a failed build: [Run] returns the error of the
    build, and the refresh that follows, which would have deployed and set
    readiness, is never received. And a fan-out that fails for want of pods
    leaves the loop running but is recorded nowhere, neither in the log nor
    in the deploy log. *)
Lemma C6_counterexample :
  let fresh : Controller unit := NewMeshController "http" "maesh" nothing_ignored in
  let later : Event unit := Refresh "force" (Ok (Some tt)) (Ok [podA]) all_accept in
  let ran :=
    Run fresh (world0 [])
      (Ok []) [ Refresh "normal" (Err ErrBuildConfig) (Ok [podA]) all_accept; later ] in
  let failed :=
    loop fresh (world0 []) [ Refresh "normal" (Ok (Some tt)) (Ok []) all_accept ] in
  (ran.1.1 = Returned (Some (ErrBuild ErrBuildConfig))
   /\ readiness ran.1.2 = false /\ deployLog ran.1.2 = []
   /\ readiness (loop fresh (world0 []) [later]).1.2 = true)
  /\ (failed.1.1 = Selecting /\ logs failed.2 = [] /\ deployLog failed.1.2 = []).
Proof. vm_compute. done. Qed.

(** C10. Started on a controller fresh from [NewMeshController], with a
    ConfigMap to read, [Run] panics when the first thing the loop receives
    is a tick: nothing is stored in [lastConfiguration] yet, and the type
    assertion of the tick branch is made on a nil interface. *)
Theorem C10_first_tick_panics `{MapRange} `{URL} {Configuration : Type}
    `{EqDecision Configuration} `{JSON (option Configuration)}
    (mode ns : string) (ign : IgnoreWrapper)
    (data : gmap string string) (errs : list bool) (names failing : gset string)
    (cerrs : list bool) (made : list Service) (sent : list Request)
    (entries : list LogEntry) (listed : result unit (list Service))
    (podList : result unit (list Pod)) (env : Environment)
    (rest : list (Event Configuration)) :
  let w := {| configMap := Some data; updateErrs := errs; meshServices := names;
              getErrs := failing; createErrs := cerrs; created := made;
              requests := sent; logs := entries |} in
  (Run (NewMeshController mode ns ign) w listed (Tick podList env :: rest)).1.1 = Panicked.
Proof.
  intros w.
  destruct (Run_reaches_loop (NewMeshController mode ns ign) w listed
              (Tick podList env :: rest) data eq_refl) as (c1 & w1 & -> & Hsame).
  destruct Hsame as (_ & Hlast & _). simpl in *. by rewrite Hlast.
Qed.

(** C7, where the code departs from it. A refresh whose pushes all fail
    leaves readiness as it was; at the tick that follows, the pods having
    no unready container, nothing is pushed, the deploy call returns no
    error and readiness is set: it is on although every record that the two
    turns left in the deploy log is a failure. *)
Theorem C7_readiness_without_deploy `{MapRange} `{URL} {Configuration : Type}
    `{EqDecision Configuration} `{JSON (option Configuration)}
    (c : Controller Configuration) (w : World) (message : string)
    (conf : option Configuration) (pods : list Pod) (env env' : Environment) :
  deploys c message conf = true ->
  pods <> [] ->
  Forall (fun pod => unready pod = false /\ delivered conf env pod = false) pods ->
  let refreshed := loop c w [ Refresh message (Ok conf) (Ok pods) env ] in
  let ran := loop c w [ Refresh message (Ok conf) (Ok pods) env; Tick (Ok pods) env' ] in
  readiness refreshed.1.2 = readiness c
  /\ ran.1.1 = Selecting
  /\ readiness ran.1.2 = true
  /\ requests ran.2 = requests refreshed.2
  /\ exists records,
       deployLog ran.1.2 = fold_left (LogDeploy 1000) records (deployLog c)
       /\ records ≡ₚ concat (records_of conf env <$> pods)
       /\ Forall (fun r => dr_Success r = false) records.
Proof.
  intros Hgo Hpods Hall refreshed ran. subst refreshed ran.
  assert (fan_out_ok conf env (Ok pods) = false) as Hfail.
  { destruct pods as [|pod pods]; [done |]. unfold fan_out_ok. cbn [forallb].
    apply Forall_cons in Hall as [[_ ->] _]. done. }
  assert (List.filter unready pods = []) as Hready.
  { clear -Hall. induction Hall as [|pod pods [Hpod _] _ IH]; [done |].
    cbn [List.filter]. by rewrite Hpod. }
  assert (laggards_ok conf env' (Ok pods) = true) as Hlag.
  { destruct pods as [|pod pods]; [done |]. unfold laggards_ok. by rewrite Hready. }
  destruct (turn_refresh c w message conf (Ok pods) env Hgo) as [Hout Hturn].
  rewrite Hfail in Hturn. cbn [loop]. rewrite Hturn.
  set (r := deployConfiguration (with_lastConfiguration (ConfigurationPtr conf) c) conf
              (Ok pods) env w) in *.
  pose proof Hout as ((Hr & Hl & _) & _ & (records & Hlog & Hperm & _) & _).
  simpl in Hr, Hl.
  destruct (turn_tick r.1.2 r.2 conf (Ok pods) env' Hl) as [Hout' Hturn'].
  rewrite Hlag in Hturn'. rewrite Hturn'. cbn [fst snd].
  unfold laggards in Hout'. cbn [pods_of] in Hout'. rewrite Hready in Hout'.
  pose proof (fanned_out_no_pods _ _ _ _ _ _ Hout') as (Hlog' & Hreq' & _).
  split; [done |]. split; [done |]. split; [done |]. split; [done |].
  exists records. split; [| split; [done |]].
  - unfold EnableReadiness. cbn [deployLog]. by rewrite Hlog', Hlog.
  - rewrite Hperm. apply Forall_concat, Forall_fmap, Forall_forall.
    intros pod Hpod. rewrite Forall_forall in Hall. destruct (Hall pod Hpod) as [_ Hnot].
    by apply records_of_failed.
Qed.

Lemma C7_witness :
  let fresh : Controller unit := NewMeshController "http" "maesh" nothing_ignored in
  let refresh : Event unit := Refresh "normal" (Ok (Some tt)) (Ok [podA]) unreachable in
  let ran := loop fresh (world0 []) [ refresh; Tick (Ok [podA]) unreachable ] in
  readiness (loop fresh (world0 []) [ refresh ]).1.2 = false
  /\ ran.1.1 = Selecting
  /\ readiness ran.1.2 = true
  /\ requests ran.2 = requests (loop fresh (world0 []) [ refresh ]).2
  /\ exists records,
       deployLog ran.1.2 = fold_left (LogDeploy 1000) records []
       /\ records ≡ₚ concat (records_of (Some tt) unreachable <$> [podA])
       /\ Forall (fun r => dr_Success r = false) records.
Proof.
  apply (C7_readiness_without_deploy (NewMeshController "http" "maesh" nothing_ignored)
           (world0 []) "normal" (Some tt) [podA] unreachable unreachable).
  - reflexivity.
  - discriminate.
  - repeat constructor.
Defined.

(** The scenario of C7 from the start of [Run]: the eight attempts that the
    back-off allows on the pod are refused, and the tick sets readiness. *)
Example readiness_unconfigured :
  let ran :=
    Run (NewMeshController (Configuration := unit) "http" "maesh" nothing_ignored)
      (world0 []) (Ok [])
      [ Refresh "normal" (Ok (Some tt)) (Ok [podA]) unreachable;
        Tick (Ok [podA]) unreachable ] in
  ran.1.1 = Selecting
  /\ readiness ran.1.2 = true
  /\ deployLog ran.1.2
     = replicate 8
         {| dr_Name := "maesh-mesh-a"; dr_IP := "10.0.0.1"; dr_Success := false;
            dr_Message := "unable to deploy configuration: connection refused" |}
  /\ length (requests ran.2) = 8%nat.
Proof. vm_compute. done. Qed.

(** The tick of C10 on concrete values. *)
Example first_tick :
  (Run (NewMeshController (Configuration := unit) "http" "maesh" nothing_ignored)
       (world0 []) (Ok []) [ Tick (Ok [podA]) all_accept ]).1.1
  = Panicked.
Proof. vm_compute. done. Qed.

(** * Further properties of the port mapping *)

Section SaveFacts.
Context `{MapRange}.

Lemma Itoa_inj z1 z2 : Itoa z1 = Itoa z2 -> z1 = z2.
Proof.
  destruct (Itoa_spec z1) as (ds1 & _ & Hall1 & Hval1 & ->).
  destruct (Itoa_spec z2) as (ds2 & _ & Hall2 & Hval2 & ->).
  destruct (Z.ltb_spec z1 0), (Z.ltb_spec z2 0); intros Heq.
  - injection Heq as ->. rewrite Hval1 in Hval2. injection Hval2. lia.
  - subst ds2. by simpl in Hall2.
  - subst ds1. by simpl in Hall1.
  - subst ds2. rewrite Hval1 in Hval2. injection Hval2. lia.
Qed.

(** Writing the entries of [l] over [data], one after the other. *)
Lemma upsert_fold_other (l : list (Z * ServiceWithPort)) :
  forall (data : gmap string string) s,
  (forall kv, kv ∈ l -> Itoa kv.1 <> s) ->
  fold_left
    (fun cpy kv =>
       <[ Itoa (fst kv) :=
            formatServiceNamePort (Name (snd kv)) (Namespace (snd kv)) (Port (snd kv)) ]> cpy)
    l data !! s = data !! s.
Proof.
  induction l as [|kv l IH]; intros data s Hl; [done |]. simpl.
  rewrite IH by (intros kv' Hin; apply Hl; by right).
  apply lookup_insert_ne, Hl. by left.
Qed.

Lemma upsert_fold_entry (l : list (Z * ServiceWithPort)) :
  forall (data : gmap string string) s x,
  (forall kv, kv ∈ l -> Itoa kv.1 = s ->
     formatServiceNamePort (Name kv.2) (Namespace kv.2) (Port kv.2) = x) ->
  data !! s = Some x \/ (exists kv, kv ∈ l /\ Itoa kv.1 = s) ->
  fold_left
    (fun cpy kv =>
       <[ Itoa (fst kv) :=
            formatServiceNamePort (Name (snd kv)) (Namespace (snd kv)) (Port (snd kv)) ]> cpy)
    l data !! s = Some x.
Proof.
  induction l as [|kv l IH]; intros data s x Hval Hsome.
  - destruct Hsome as [? | (kv & Hin & _)]; [done |]. by apply elem_of_nil in Hin.
  - simpl. apply IH; [intros kv' Hin; apply Hval; by right |].
    destruct (decide (Itoa kv.1 = s)) as [Hkey | Hkey].
    + left. rewrite <- Hkey at 1. rewrite lookup_insert_eq. f_equal. apply Hval; [by left | done].
    + rewrite lookup_insert_ne by done.
      destruct Hsome as [? | (kv' & [-> | Hin]%elem_of_cons & Hs)]; [by left | done |].
      right. by exists kv'.
Qed.

(** After [upsert] the data holds every entry of the table, written with
    [Itoa] and [formatServiceNamePort], and what it held under other keys. *)
Lemma upsert_lookup t data :
  (forall p svc, t !! p = Some svc ->
     upsert t data !! Itoa p
     = Some (formatServiceNamePort (Name svc) (Namespace svc) (Port svc)))
  /\ (forall s, (forall p, is_Some (t !! p) -> Itoa p <> s) -> upsert t data !! s = data !! s).
Proof.
  split.
  - intros p svc Hp. unfold upsert. apply upsert_fold_entry.
    + intros [q v] Hin%range_of_lookup Hq. simpl in *. apply Itoa_inj in Hq as ->.
      congruence.
    + right. exists (p, svc). split; [by apply range_of_lookup | done].
  - intros s Hs. unfold upsert. apply upsert_fold_other.
    intros [q v] Hin%range_of_lookup. simpl. apply Hs. by exists v.
Qed.

Lemma upsert_source t data s x :
  upsert t data !! s = Some x ->
  data !! s = Some x
  \/ exists p svc, t !! p = Some svc /\ s = Itoa p
                   /\ x = formatServiceNamePort (Name svc) (Namespace svc) (Port svc).
Proof.
  intros Hs. destruct (decide (Exists (fun kv => Itoa kv.1 = s) (range_of t)))
    as [([p svc] & Hin%range_of_lookup & Hkey)%Exists_exists | Hnone].
  - right. exists p, svc. simpl in Hkey. subst s.
    rewrite (proj1 (upsert_lookup t data) p svc Hin) in Hs. by injection Hs as <-.
  - left. rewrite <- Hs. symmetry. apply upsert_lookup.
    intros p [svc Hp] Hkey. apply Hnone, Exists_exists. exists (p, svc).
    split; [by apply range_of_lookup | done].
Qed.

Lemma saveState_ok m w data :
  configMap w = Some data -> (saveState m w).1 = None ->
  configMap (saveState m w).2 = Some (upsert (table m) data).
Proof.
  unfold saveState. intros ->. by destruct (updateErrs w) as [|[|] rest].
Qed.

End SaveFacts.

Section LoadFacts.
Context `{MapRange}.

Lemma fold_loadEntry_entry l : forall t p svc,
  (forall kv port svc', kv ∈ l -> ParseInt kv.1 = Ok port -> wrap32 port = p ->
     parseServiceNamePort kv.2 = Ok svc' -> svc' = svc) ->
  t !! p = Some svc
  \/ (exists kv port, kv ∈ l /\ ParseInt kv.1 = Ok port /\ wrap32 port = p
                      /\ parseServiceNamePort kv.2 = Ok svc) ->
  fold_left loadEntry l t !! p = Some svc.
Proof.
  induction l as [|kv l IH]; intros t p svc Hval Hsome.
  - destruct Hsome as [? | (kv & port & Hin & _)]; [done |]. by apply elem_of_nil in Hin.
  - simpl. apply IH; [intros kv' port svc' Hin; apply Hval; by right |].
    unfold loadEntry.
    destruct (ParseInt kv.1) as [port|e] eqn:Hk.
    + destruct (parseServiceNamePort kv.2) as [svc'|e] eqn:Hv.
      * destruct (decide (wrap32 port = p)) as [Hp | Hp].
        -- left. rewrite Hp, lookup_insert_eq. f_equal.
           apply (Hval kv port svc'); [by left | done..].
        -- rewrite lookup_insert_ne by done.
           destruct Hsome as [? | (kv' & port' & [-> | Hin]%elem_of_cons & Hk' & Hp' & Hv')];
             [by left | congruence |].
           right. by exists kv', port'.
      * destruct Hsome as [? | (kv' & port' & [-> | Hin]%elem_of_cons & Hk' & Hp' & Hv')];
          [by left | congruence |].
        right. by exists kv', port'.
    + destruct Hsome as [? | (kv' & port' & [-> | Hin]%elem_of_cons & Hk' & Hp' & Hv')];
        [by left | congruence |].
      right. by exists kv', port'.
Qed.

Lemma parse_format svc :
  valid_ref svc ->
  parseServiceNamePort (formatServiceNamePort (Name svc) (Namespace svc) (Port svc)) = Ok svc.
Proof.
  intros (? & ? & ? & ? & ?). destruct svc as [ns name port]. simpl in *.
  unfold formatServiceNamePort. by apply parse_with_namespace.
Qed.

End LoadFacts.

Lemma Find_found_if_assigned `{MapRange} (m : TCPPortMapping) (svc : ServiceWithPort) :
  (exists p, table m !! p = Some svc) -> (Find m svc).2 = true.
Proof. intros [p Hp]. by destruct (Find_assigned m svc p Hp) as (q & -> & _). Qed.

(** X1. [Find] reports a ref as found exactly when some port of the table
    holds it, and the port it returns is one that holds it; when the ref is
    not found the port returned is 0. *)
Theorem Find_agrees_with_Get `{MapRange} (m : TCPPortMapping) (svc : ServiceWithPort) :
  (forall p, Find m svc = (p, true) -> Get m p = Some svc)
  /\ ((Find m svc).2 = true <-> exists p, Get m p = Some svc)
  /\ ((Find m svc).2 = false -> Find m svc = (0, false)).
Proof.
  split; [intros p; apply Find_true |]. split; [split |].
  - destruct (Find m svc) as [p [|]] eqn:Hfind; [| done]. intros _. exists p.
    by apply Find_true.
  - intros [p Hp]. destruct (Find_assigned m svc p Hp) as (q & -> & _). done.
  - destruct (Find m svc) as [p [|]] eqn:Hfind; [done |]. intros _.
    by apply Find_false in Hfind as [-> _].
Qed.

(** X2. A port that [Add] returns is the lowest port of the range that the
    table did not hold, and the table holds the ref there afterwards. *)
Theorem Add_returns_lowest_free `{MapRange} (m m' : TCPPortMapping) (svc : ServiceWithPort)
    (w w' : World) (p : Z) :
  in_int32 (maxPort m) ->
  Add m svc w = (Ok p, m', w') ->
  lowest_free m p /\ Get m' p = Some svc /\ configMap w' <> None.
Proof.
  intros Hmax HAdd. pose proof (wrap32_succ_le _ Hmax) as Hwrap.
  unfold Add in HAdd. destruct (firstFree _ _ _) as [i|] eqn:Hscan; [| done].
  apply firstFree_Some in Hscan as (Hbound & Hfree & Hbelow).
  unfold saveState in HAdd. destruct (configMap w) as [data|] eqn:Hdata; [| done].
  destruct (updateErrs w) as [|[|] rest]; try done;
    injection HAdd as <- <- <-; (split; [split; [lia | done] |]);
    (split; [apply lookup_insert_eq | done]).
Qed.

Lemma Add_returns_lowest_free_witness :
  lowest_free mapping0 10000
  /\ Get (with_table (<[ 10000 := db ]> ∅) mapping0) 10000 = Some db
  /\ configMap (Add mapping0 db (world0 [])).2 <> None.
Proof.
  refine (Add_returns_lowest_free mapping0 _ db (world0 []) _ 10000 _ _).
  - unfold in_int32, int32_min, int32_max. simpl. lia.
  - vm_compute. reflexivity.
Defined.

(** X3. [Add] never changes or removes an assignment: the table it leaves
    extends the one it was given by one entry at most, the bounds are the
    same, and nothing is logged. *)
Theorem Add_only_extends `{MapRange} (m : TCPPortMapping) (svc : ServiceWithPort) (w : World) :
  let m' := (Add m svc w).1.2 in
  table m ⊆ table m' /\ minPort m' = minPort m /\ maxPort m' = maxPort m
  /\ (size (table m') <= S (size (table m)))%nat
  /\ logs (Add m svc w).2 = logs w.
Proof.
  intros m'. subst m'. split; [| split; [| split; [| split]]].
  - destruct (Add_table m svc w) as [-> | (p & Hfree & _ & ->)]; [done |].
    by apply insert_subseteq.
  - by destruct (Add_table m svc w) as [-> | (p & Hfree & _ & ->)].
  - by destruct (Add_table m svc w) as [-> | (p & Hfree & _ & ->)].
  - destruct (Add_table m svc w) as [-> | (p & Hfree & _ & ->)]; [lia |].
    simpl. rewrite map_size_insert_None by done. lia.
  - unfold Add. destruct (firstFree _ _ _) as [i|]; [| done].
    match goal with
    | |- context [saveState ?a ?b] =>
        pose proof (saveState_logs a b) as Hlogs; destruct (saveState a b) as [[e|] w']
    end; done.
Qed.

(** X4. A save that fails leaves the data of the ConfigMap as it was. One
    that succeeds writes every entry of the table under the decimal form of
    its port, in the form [namespace/name:port], and keeps what the
    ConfigMap held under every other key: nothing is ever removed. *)
Theorem saveState_upserts `{MapRange} (m : TCPPortMapping) (w : World) :
  (forall e, (saveState m w).1 = Some e -> configMap (saveState m w).2 = configMap w)
  /\ ((saveState m w).1 = None ->
      exists data data',
        configMap w = Some data /\ configMap (saveState m w).2 = Some data'
        /\ (forall p svc, table m !! p = Some svc ->
              data' !! Itoa p
              = Some (formatServiceNamePort (Name svc) (Namespace svc) (Port svc)))
        /\ (forall k, (forall p, is_Some (table m !! p) -> Itoa p <> k) ->
              data' !! k = data !! k)
        /\ dom data ⊆ dom data').
Proof.
  unfold saveState. destruct (configMap w) as [data|] eqn:Hdata; [| done].
  destruct (upsert_lookup (table m) data) as [Hentries Hothers].
  assert (dom data ⊆ dom (upsert (table m) data)) as Hdom.
  { intros k [v Hk]%elem_of_dom. apply elem_of_dom.
    destruct (decide (Exists (fun kv => Itoa kv.1 = k) (range_of (table m))))
      as [([p svc] & Hin%range_of_lookup & Hkey)%Exists_exists | Hnone].
    - simpl in Hkey. subst k. rewrite (Hentries p svc Hin). done.
    - rewrite Hothers; [done |]. intros p [svc Hp] Hkey. apply Hnone, Exists_exists.
      exists (p, svc). split; [by apply range_of_lookup | done]. }
  destruct (updateErrs w) as [|[|] rest]; simpl.
  - split; [done |]. intros _. by exists data, (upsert (table m) data).
  - split; [done |]. done.
  - split; [done |]. intros _. by exists data, (upsert (table m) data).
Qed.

(** X5. Restart: when the table holds ports of type [int32] and refs that
    the format can carry, and the ConfigMap has canonical keys, a save that
    succeeds followed by [NewTCPPortMapping] gives a table that holds every
    assignment of the saved one, so [Find] finds every ref again; from an
    empty ConfigMap the table read back is the table saved. *)
Theorem restart_keeps_assignments `{MapRange} (m : TCPPortMapping) (w : World)
    (data : gmap string string) (lo hi : Z) :
  configMap w = Some data -> canonical_keys data ->
  (forall p svc, table m !! p = Some svc -> in_int32 p /\ valid_ref svc) ->
  (saveState m w).1 = None ->
  exists m', (NewTCPPortMapping (saveState m w).2 lo hi).1 = Ok m'
    /\ (forall p svc, table m !! p = Some svc ->
          table m' !! p = Some svc /\ (Find m' svc).2 = true)
    /\ (data = ∅ -> table m' = table m).
Proof.
  intros Hdata Hcanon Hvalid Hsave.
  pose proof (saveState_ok m w data Hdata Hsave) as Hdata'.
  destruct (upsert_lookup (table m) data) as [Hentries Hothers].
  set (data' := upsert (table m) data) in *.
  unfold NewTCPPortMapping, loadState. rewrite Hdata'. simpl. eexists. split; [done |].
  simpl.
  assert (Hkeys : forall k v port, data' !! k = Some v -> ParseInt k = Ok port ->
                    is_Some (table m !! port) -> k = Itoa port).
  { intros k v port Hk Hparse Hport.
    destruct (decide (Exists (fun kv => Itoa kv.1 = k) (range_of (table m))))
      as [([q svc] & Hin%range_of_lookup & Hkey)%Exists_exists | Hnone].
    - simpl in Hkey. subst k. destruct (Hvalid q svc Hin) as [Hq _].
      rewrite ParseInt_Itoa in Hparse by done. by injection Hparse as ->.
    - rewrite Hothers in Hk.
      + by apply (Hcanon k v port).
      + intros q [svc Hq] Hkey. apply Hnone, Exists_exists. exists (q, svc).
        split; [by apply range_of_lookup | done]. }
  assert (Hin : forall p svc, table m !! p = Some svc ->
                  fold_left loadEntry (range_of data') ∅ !! p = Some svc).
  { intros p svc Hp. destruct (Hvalid p svc Hp) as [Hint Hsvc].
    apply fold_loadEntry_entry.
    - intros [k v] port svc' Hkv%range_of_lookup Hparse Hwrap Hv. simpl in *.
      rewrite wrap32_id in Hwrap by (by apply ParseInt_in_int32 with k). subst port.
      rewrite (Hkeys k v p Hkv Hparse) in Hkv by done.
      rewrite (Hentries p svc Hp) in Hkv. injection Hkv as <-.
      rewrite parse_format in Hv by done. by injection Hv.
    - right. exists (Itoa p, formatServiceNamePort (Name svc) (Namespace svc) (Port svc)), p.
      split; [apply range_of_lookup, Hentries, Hp |]. simpl.
      rewrite ParseInt_Itoa, wrap32_id, parse_format by done. done. }
  split.
  - intros p svc Hp. split; [by apply Hin |].
    apply Find_found_if_assigned. exists p. by apply Hin.
  - intros ->. apply map_eq. intros p.
    destruct (table m !! p) as [svc|] eqn:Hp; [by apply Hin |].
    destruct (fold_left loadEntry (range_of data') ∅ !! p) as [svc|] eqn:Hload; [| done].
    apply fold_loadEntry_lookup in Hload as [Hempty | (k & v & port & Hkv & Hparse & Hwrap & Hv)].
    { by rewrite lookup_empty in Hempty. }
    apply range_of_lookup in Hkv.
    destruct (upsert_source (table m) ∅ k v Hkv) as [Hempty | (q & svc' & Hq & -> & ->)].
    { by rewrite lookup_empty in Hempty. }
    destruct (Hvalid q svc' Hq) as [Hint _].
    rewrite ParseInt_Itoa in Hparse by done. injection Hparse as <-.
    rewrite wrap32_id in Hwrap by done. congruence.
Qed.

Lemma restart_keeps_assignments_witness :
  let m := with_table {[ 10000 := db ]} mapping0 in
  exists m', (NewTCPPortMapping (saveState m (world0 [])).2 10000 10100).1 = Ok m'
    /\ (forall p svc, table m !! p = Some svc ->
          table m' !! p = Some svc /\ (Find m' svc).2 = true)
    /\ ((∅ : gmap string string) = ∅ -> table m' = table m).
Proof.
  apply (restart_keeps_assignments (with_table {[ 10000 := db ]} mapping0) (world0 []) ∅
           10000 10100).
  - reflexivity.
  - intros k v port Hk. by rewrite lookup_empty in Hk.
  - intros p svc Hp. simpl in Hp. apply lookup_singleton_Some in Hp as [<- <-].
    repeat split; try reflexivity; unfold in_int32, int32_min, int32_max; simpl; lia.
  - reflexivity.
Defined.

(** X6. For a ref without a port, when the table has a free port: the first
    [getTCPPort] claims the lowest free port, and returns it or, when the
    save fails, an error; either way every later [getTCPPort] for the ref
    returns that port and touches neither the table nor the world. So a
    port whose save failed is handed out by the next call although the
    ConfigMap does not hold it. *)
Theorem getTCPPort_converges `{MapRange} {Configuration : Type}
    (c : Controller Configuration) (name ns : string) (port p : Z) (w : World) :
  let svc := {| Namespace := ns; Name := name; Port := port |} in
  let first := getTCPPort c name ns port w in
  in_int32 (maxPort (tcpStateTable c) + 1) ->
  (forall q, table (tcpStateTable c) !! q <> Some svc) ->
  lowest_free (tcpStateTable c) p ->
  table (tcpStateTable first.1.2) = <[ p := svc ]> (table (tcpStateTable c))
  /\ (first.1.1 = Ok p \/ exists e, first.1.1 = Err (ErrSaveState e))
  /\ (forall w2, getTCPPort first.1.2 name ns port w2 = (Ok p, first.1.2, w2)).
Proof.
  intros svc first Hmax Hnew Hlow.
  destruct (getTCPPort_unassigned c name ns port w Hnew) as (w0 & _ & Hres & Htable).
  fold first in Hres, Htable. fold svc in Hres, Htable.
  rewrite (Add_lowest _ svc w0 p Hmax Hlow) in Hres, Htable. simpl in Hres, Htable.
  assert (table (tcpStateTable first.1.2) = <[ p := svc ]> (table (tcpStateTable c))) as Ht
    by (by rewrite Htable).
  split; [done |]. split.
  - rewrite Hres. destruct (saveState _ w0).1 as [e|]; [right; by exists e | by left].
  - intros w2. unfold getTCPPort. fold svc.
    assert (table (tcpStateTable first.1.2) !! p = Some svc) as Hp
      by (rewrite Ht; apply lookup_insert_eq).
    destruct (Find_assigned _ _ _ Hp) as (q & Hfind & Hq). rewrite Hfind.
    rewrite Ht, lookup_insert in Hq. case_decide as Hpq; [by subst q |].
    by destruct (Hnew q).
Qed.

Lemma getTCPPort_converges_witness :
  let first := getTCPPort controller0 "db" "default" 5432 world_update_fails in
  (exists e, first.1.1 = Err (ErrSaveState e))
  /\ getTCPPort first.1.2 "db" "default" 5432 (world0 []) = (Ok 10000, first.1.2, world0 []).
Proof.
  intros first.
  destruct (getTCPPort_converges controller0 "db" "default" 5432 10000 world_update_fails)
    as (_ & _ & Hnext).
  - unfold in_int32, int32_min, int32_max. simpl. lia.
  - intros q. simpl. by rewrite lookup_empty.
  - split; [simpl; lia |]. split; [reflexivity |]. intros q Hq. simpl in Hq. lia.
  - split; [| apply Hnext]. exists ErrUpdateConfigMap. vm_compute. reflexivity.
Defined.

(** * Further properties of the mesh services *)

Section ClusterFacts.
Context `{MapRange} {Configuration : Type}.
Implicit Types c : Controller Configuration.






End ClusterFacts.

(** The order in which the runtime visits the table. *)
Section OrderFacts.
Context (o1 o2 : MapRange) {Configuration : Type}.
Implicit Types c : Controller Configuration.







End OrderFacts.



(** Without that condition the order matters: the ref of the port is under
    the ports 10000 and 10001, and the update targets the one or the other
    according to the order in which [Find] visits the table. *)
Example update_order_matters :
  let web := {| svc_Name := "db"; svc_Namespace := "default"; svc_Labels := ∅;
                svc_Annotations := {[ AnnotationServiceType := "tcp" ]};
                svc_Ports := [ {| sp_Name := "pg"; sp_Protocol := "TCP"; sp_Port := 5432;
                                  sp_TargetPort := 5432 |} ];
                svc_Selector := ∅ |} in
  let c := with_tcpStateTable (with_table {[ 10000 := db; 10001 := db ]} mapping0)
             controller0 in
  sp_TargetPort <$> (updatePorts (H := canonical_range) "tcp" web 0 (svc_Ports web) [] c
                       (world0 [])).1.1 = [10001]
  /\ sp_TargetPort <$> (updatePorts (H := reversed_range) "tcp" web 0 (svc_Ports web) [] c
                          (world0 [])).1.1 = [10000].
Proof. split; vm_compute; reflexivity. Qed.

Section ServiceFacts.
Context `{MapRange} {Configuration : Type}.
Implicit Types c : Controller Configuration.

Lemma keeps_services_refl w : keeps_services w w.
Proof. by repeat split. Qed.

Lemma keeps_services_trans w1 w2 w3 :
  keeps_services w1 w2 -> keeps_services w2 w3 -> keeps_services w1 w3.
Proof. intros (? & ? & ? & ?) (? & ? & ? & ?). repeat split; congruence. Qed.

Lemma keeps_services_logf l msg w : keeps_services w (logf l msg w).
Proof. by repeat split. Qed.

Lemma saveState_keeps m w : keeps_services w (saveState m w).2.
Proof.
  unfold saveState. destruct (configMap w); [| by repeat split].
  destruct (updateErrs w) as [|[|] rest]; by repeat split.
Qed.

Lemma Add_keeps m svc w : keeps_services w (Add m svc w).2.
Proof.
  unfold Add. destruct (firstFree _ _ _) as [i|]; [| by repeat split].
  match goal with
  | |- context [saveState ?a w] =>
      pose proof (saveState_keeps a w) as Hkeep; destruct (saveState a w) as [[e|] w1]
  end; done.
Qed.

Lemma getTCPPort_keeps c name ns port w :
  keeps_services w (getTCPPort c name ns port w).2.
Proof.
  unfold getTCPPort. destruct (Find _ _) as [p [|]]; [by repeat split |].
  cbv iota beta.
  match goal with
  | |- context [Add ?m ?s ?w0] =>
      pose proof (Add_keeps m s w0) as Hkeep;
      destruct (Add m s w0) as [[[q|e] m1] w1]
  end; simpl in *; destruct Hkeep as (? & ? & ? & ?); by repeat split.
Qed.

Lemma meshPorts_keeps mode service sps : forall id acc c w,
  keeps_services w (meshPorts mode service id sps acc c w).2.
Proof.
  induction sps as [|sp rest IH]; intros id acc c w; [by repeat split |].
  cbn [meshPorts]. destruct (negb _).
  { eapply keeps_services_trans; [apply keeps_services_logf | apply IH]. }
  destruct (String.eqb mode ServiceTypeTCP); [| apply IH].
  pose proof (getTCPPort_keeps c (svc_Name service) (svc_Namespace service) (sp_Port sp) w)
    as Hget.
  destruct (getTCPPort c _ _ _ w) as [[[q|e] c1] w1]; simpl in Hget.
  - eapply keeps_services_trans; [exact Hget | apply IH].
  - eapply keeps_services_trans; [exact Hget |].
    eapply keeps_services_trans; [apply keeps_services_logf | apply IH].
Qed.

Lemma updatePorts_keeps mode service sps : forall id acc c w,
  keeps_services w (updatePorts mode service id sps acc c w).2.
Proof.
  induction sps as [|sp rest IH]; intros id acc c w; [by repeat split |].
  cbn [updatePorts]. destruct (negb _).
  { eapply keeps_services_trans; [apply keeps_services_logf | apply IH]. }
  destruct (String.eqb mode ServiceTypeTCP); [| apply IH].
  pose proof (getTCPPort_keeps c (svc_Name service) (svc_Namespace service) (sp_Port sp) w)
    as Hget.
  destruct (getTCPPort c _ _ _ w) as [[[q|e] c1] w1]; simpl in Hget.
  - eapply keeps_services_trans; [exact Hget | apply IH].
  - eapply keeps_services_trans; [exact Hget |].
    eapply keeps_services_trans; [apply keeps_services_logf | apply IH].
Qed.

Lemma updateAttempts_S steps c name current new outcomes w :
  updateAttempts (S steps) c name current new outcomes w
  = if decide (name ∈ meshServices w) then
      let '(ports, c, w) :=
        updatePorts (serviceModeOf c new) new 0 (svc_Ports new) [] c w in
      match outcomes with
      | UpdateConflict :: later => updateAttempts steps c name current new later w
      | UpdateFailed :: _ => (Err ErrUpdateService, c, w)
      | _ => (Ok (with_Ports ports current), c, w)
      end
    else (Err ErrGetService, c, w).
Proof.
  cbn [updateAttempts]. unfold GetService.
  destruct (decide (name ∈ meshServices w)); [done |]. by destruct (decide _).
Qed.

Lemma updateAttempts_conflict n : forall c name current new outcomes w,
  name ∈ meshServices w ->
  (updateAttempts (S n) c name current new outcomes w).1.1 = Err ErrConflict
  <-> take (S n) outcomes = replicate (S n) UpdateConflict.
Proof.
  induction n as [|n IH]; intros c name current new outcomes w Hin;
    rewrite updateAttempts_S; (destruct (decide _) as [_ | Hno]; [| by destruct Hno]);
    pose proof (updatePorts_keeps (serviceModeOf c new) new (svc_Ports new) 0 [] c w)
      as (Hmesh & _ & _ & _);
    destruct (updatePorts _ new 0 _ [] c w) as [[ports c1] w1]; simpl in Hmesh.
  - destruct outcomes as [|[| |] later]; simpl; try (split; done).
  - destruct outcomes as [|[| |] later]; try (split; done).
    rewrite IH by (by rewrite Hmesh). cbn [take replicate]. split; [by intros -> |].
    by intros [= ->].
Qed.

Lemma updateAttempts_found n : forall c name current new outcomes w,
  name ∈ meshServices w ->
  (updateAttempts n c name current new outcomes w).1.1 <> Err ErrGetService.
Proof.
  induction n as [|n IH]; intros c name current new outcomes w Hin;
    [done | rewrite updateAttempts_S].
  destruct (decide _) as [_ | Hno]; [| by destruct Hno].
  pose proof (updatePorts_keeps (serviceModeOf c new) new (svc_Ports new) 0 [] c w)
    as (Hmesh & _ & _ & _).
  destruct (updatePorts _ new 0 _ [] c w) as [[ports c1] w1].
  simpl in Hmesh. destruct outcomes as [|[| |] later]; try done.
  apply IH. by rewrite Hmesh.
Qed.

End ServiceFacts.

(** X8. [updateMeshService] fails on the lookup, without allocating or
    logging anything, when the lister does not hold the mesh service. When
    it does, the conflict error is returned exactly when the first five
    [UpdateService] calls all end in a conflict: the update is attempted
    five times at most. *)
Theorem updateMeshService_errors `{MapRange} {Configuration : Type}
    (c : Controller Configuration) (current oldUserService newUserService : Service)
    (outcomes : list UpdateOutcome) (w : World) :
  let name :=
    userServiceToMeshServiceName c (svc_Name oldUserService) (svc_Namespace oldUserService) in
  let updated := updateMeshService c current oldUserService newUserService outcomes w in
  (name ∉ meshServices w -> updated = (Err ErrGetService, c, w))
  /\ (name ∈ meshServices w ->
      (updated.1.1 = Err ErrConflict <-> take 5 outcomes = replicate 5 UpdateConflict)
      /\ updated.1.1 <> Err ErrGetService).
Proof.
  intros name updated. subst updated. unfold updateMeshService. fold name. split.
  - intros Hno. rewrite updateAttempts_S. by destruct (decide _).
  - intros Hin.
    pose proof (updateAttempts_conflict 4 c name current newUserService outcomes w Hin)
      as Hconflict.
    pose proof (updateAttempts_found 5 c name current newUserService outcomes w Hin) as Hget.
    destruct (updateAttempts 5 c name current newUserService outcomes w) as [[[svc|e] c1] w1];
      simpl in *; [| done].
    split; [| done]. rewrite <- Hconflict. done.
Qed.

Section CreateFacts.
Context `{MapRange} {Configuration : Type}.
Implicit Types c : Controller Configuration.

Lemma wanted_same c c' w w' u :
  same_but_table c c' -> meshServices w' = meshServices w ->
  wanted c' w' u = wanted c w u.
Proof.
  intros (_ & _ & _ & _ & Hns & Hign) Hmesh. unfold wanted, userServiceToMeshServiceName.
  by rewrite Hns, Hign, Hmesh.
Qed.

Lemma mesh_service_of_same c c' u s :
  same_but_table c c' -> mesh_service_of c u s -> mesh_service_of c' u s.
Proof.
  intros (_ & _ & _ & _ & Hns & _). unfold mesh_service_of, userServiceToMeshServiceName.
  by rewrite Hns.
Qed.

Lemma name_same c c' name ns :
  same_but_table c c' ->
  userServiceToMeshServiceName c' name ns = userServiceToMeshServiceName c name ns.
Proof. intros (_ & _ & _ & _ & Hns & _). unfold userServiceToMeshServiceName. by rewrite Hns. Qed.

(** What one [createMeshService] does to the services. *)
Lemma createMeshService_effect c u w :
  let name := userServiceToMeshServiceName c (svc_Name u) (svc_Namespace u) in
  let r := createMeshService c u w in
  meshServices r.2 = meshServices w /\ getErrs r.2 = getErrs w
  /\ (name ∈ meshServices w ->
      r.1.1 = None /\ created r.2 = created w /\ createErrs r.2 = createErrs w)
  /\ (name ∉ meshServices w -> name ∈ getErrs w ->
      r.1.1 = Some ErrGetMeshService /\ created r.2 = created w
      /\ createErrs r.2 = createErrs w)
  /\ (name ∉ meshServices w -> name ∉ getErrs w ->
      match createErrs w with
      | true :: rest =>
          r.1.1 = Some ErrCreateService /\ created r.2 = created w /\ createErrs r.2 = rest
      | _ =>
          r.1.1 = None /\ createErrs r.2 = tail (createErrs w)
          /\ exists s, created r.2 = created w ++ [s] /\ mesh_service_of r.1.2 u s
      end).
Proof.
  intros name r. subst r. unfold createMeshService, GetService. fold name.
  destruct (decide (name ∈ meshServices (logf DebugLevel _ w))) as [Hin | Hno].
  { repeat split; try done; intros Hno; by destruct Hno. }
  destruct (decide (name ∈ getErrs (logf DebugLevel _ w))) as [Hget | Hfound].
  { repeat split; try done; intros; by destruct Hno || (try by destruct H1). }
  match goal with
  | |- context [meshPorts ?a ?b ?i ?l ?ac ?cc ?ww] =>
      pose proof (meshPorts_keeps a b l i ac cc ww) as (Hmesh & Herrs & Hcreated & Hgets);
      pose proof (meshPorts_same a b l i ac cc ww) as Hsame;
      destruct (meshPorts a b i l ac cc ww) as [[ports c'] w']
  end.
  simpl in Hmesh, Herrs, Hcreated, Hgets, Hsame. unfold CreateService. rewrite Herrs.
  destruct Hsame as (_ & _ & _ & _ & Hns & _).
  destruct (createErrs w) as [|[|] rest] eqn:Hcreate; simpl;
    (split; [done |]); (split; [done |]); (split; [intros Hin; by destruct Hno |]);
    (split; [intros _ Hin; by destruct Hfound |]); intros _ _;
    repeat split; try done; rewrite Hcreated; eexists; (split; [done |]);
    unfold mesh_service_of, name, userServiceToMeshServiceName; simpl;
    by rewrite Hns.
Qed.

Lemma createEach_effect svcs : forall c w,
  let r := createEach c svcs w in
  exists users news,
    created r.2 = created w ++ news /\ meshServices r.2 = meshServices w
    /\ users `prefix_of` List.filter (wanted c w) svcs
    /\ Forall2 (mesh_service_of c) users news
    /\ (r.1.1 = None -> users = List.filter (wanted c w) svcs)
    /\ ((forall b, b ∈ createErrs w -> b = false) ->
        (forall u, u ∈ svcs -> wanted c w u = true ->
           userServiceToMeshServiceName c (svc_Name u) (svc_Namespace u) ∉ getErrs w) ->
        r.1.1 = None).
Proof.
  induction svcs as [|u rest IH]; intros c w r; subst r.
  { exists [], []. simpl. rewrite app_nil_r. by repeat split. }
  cbn [createEach List.filter].
  destruct (IsIgnored (ignored c) u) eqn:Hign.
  { assert (wanted c w u = false) as Hwant by (unfold wanted; by rewrite Hign).
    rewrite Hwant.
    destruct (IH c w) as (users & news & ? & ? & ? & ? & ? & Hok).
    exists users, news. repeat (split; [done |]). intros Hfalse Hget. apply Hok; [done |].
    intros x Hx. apply Hget. by right. }
  set (w1 := logf DebugLevel _ w).
  set (name := userServiceToMeshServiceName c (svc_Name u) (svc_Namespace u)).
  unfold GetService.
  destruct (decide (name ∈ meshServices w1)) as [Hin | Hno].
  { assert (wanted c w u = false) as ->.
    { unfold wanted. fold name. change (meshServices w) with (meshServices w1).
      rewrite bool_decide_eq_true_2 by done. apply andb_false_r. }
    destruct (IH c w1) as (users & news & ? & ? & Hpre & ? & Hnone & Hok).
    exists users, news. rewrite (List.filter_ext (wanted c w) (wanted c w1)) by done.
    repeat (split; [done |]). intros Hfalse Hget. apply Hok; [done |].
    intros x Hx. apply Hget. by right. }
  assert (wanted c w u = true) as Hwant.
  { unfold wanted. fold name. change (meshServices w) with (meshServices w1).
    rewrite bool_decide_eq_false_2 by done. by rewrite Hign. }
  rewrite Hwant.
  destruct (decide (name ∈ getErrs w1)) as [Hget | Hfound].
  { exists [], []. rewrite app_nil_r. split; [done |]. split; [done |].
    split; [apply prefix_nil |]. split; [constructor |]. split; [done |].
    intros _ Hgets. destruct (Hgets u); [by left | done | done]. }
  set (w2 := logf InfoLevel _ w1).
  destruct (createMeshService_effect c u w2) as (Hmesh & Hgets & _ & _ & Hnew).
  pose proof (createMeshService_same c u w2) as Hsame.
  specialize (Hnew Hno Hfound). change (createErrs w2) with (createErrs w) in Hnew.
  change (created w2) with (created w) in Hnew.
  destruct (createMeshService c u w2) as [[err c1] w3]. simpl in Hmesh, Hgets, Hnew, Hsame.
  assert (forall x, wanted c1 w3 x = wanted c w x) as Hwanted
    by (intros x; by apply wanted_same).
  assert (createErrs w <> true :: tail (createErrs w) ->
          err = None /\ createErrs w3 = tail (createErrs w)
          /\ exists s, created w3 = created w ++ [s] /\ mesh_service_of c1 u s) as Hmade.
  { intros Hfirst. destruct (createErrs w) as [|[|] errs]; done. }
  destruct (createErrs w) as [|[|] errs] eqn:Herrs.
  2: { destruct Hnew as (-> & Hcreated & _). exists [], [].
       rewrite app_nil_r. split; [done |]. split; [done |].
       split; [apply prefix_nil |]. split; [constructor |]. split; [done |].
       intros Hfalse. specialize (Hfalse true). discriminate Hfalse. by left. }
  all: destruct Hmade as (-> & Htail & s & Hcreated & Hs); [done |];
    destruct (IH c1 w3) as (users & news & Hnews & Hmesh' & Hpre & Hall & Hnone & Hok);
    rewrite (List.filter_ext _ _ Hwanted) in Hpre, Hnone;
    exists (u :: users), (s :: news);
    (split; [by rewrite Hnews, Hcreated, <- app_assoc |]);
    (split; [congruence |]); (split; [by apply prefix_cons |]);
    (split;
      [constructor;
        [revert Hs; apply mesh_service_of_same;
         destruct Hsame as (? & ? & ? & ? & ? & ?); by repeat split
        | eapply Forall2_impl; [exact Hall |]; intros x y; apply mesh_service_of_same;
          destruct Hsame as (? & ? & ? & ? & ? & ?); by repeat split] |]);
    (split; [intros Hr; by rewrite (Hnone Hr) |]);
    intros Hfalse Hget; apply Hok;
    [ rewrite Htail; simpl; intros b Hb;
      first [by apply elem_of_nil in Hb | apply Hfalse; by right]
    | intros x Hx Hwx; rewrite (name_same c c1) by done; rewrite Hgets;
      apply Hget; [by right | by rewrite <- Hwanted] ].
Qed.

End CreateFacts.

(** X9. [createMeshServices] creates mesh services for user services that
    are wanted only (not ignored, no mesh service in the lister), in the
    order of the list and up to the first call that fails; each has the
    derived name, the mesh namespace, the label [app=maesh] and the
    selector [component=maesh-mesh]. When the label selector of the ignore
    list cannot be built, or the services cannot be listed, it returns that
    error and creates nothing. *)
Theorem createMeshServices_creates_wanted `{MapRange} {Configuration : Type}
    (c : Controller Configuration) (svcs : list Service) (w : World) :
  let r := createMeshServices c (Ok svcs) w in
  (exists users news,
    created r.2 = created w ++ news
    /\ meshServices r.2 = meshServices w
    /\ users `prefix_of` List.filter (wanted c w) svcs
    /\ Forall2 (mesh_service_of c) users news
    /\ (r.1.1 = None -> users = List.filter (wanted c w) svcs))
  /\ (LabelSelector (ignored c) <> None -> r = (Some ErrLabelSelector, c, w))
  /\ (LabelSelector (ignored c) = None ->
      createMeshServices c (Err tt) w = (Some ErrListServices, c, w)).
Proof.
  intros r. subst r. unfold createMeshServices.
  destruct (LabelSelector (ignored c)) as [e|].
  { split; [| done]. exists [], []. simpl. rewrite app_nil_r.
    split; [done |]. split; [done |]. split; [apply prefix_nil |]. by split. }
  split; [| done].
  destruct (createEach_effect svcs c w) as (users & news & ? & ? & ? & ? & ? & _).
  by exists users, news.
Qed.

(** X10. When the label selector of the ignore list is built, the services
    are listed, the lister fails on the mesh service of a wanted service
    with not-found only, and no [CreateService] call fails,
    [createMeshServices] returns no error and creates the mesh service of
    every wanted user service of the list, whatever happens to the ports: a
    failed allocation or a failed save never stops it. *)
Theorem createMeshServices_complete `{MapRange} {Configuration : Type}
    (c : Controller Configuration) (svcs : list Service) (w : World) :
  LabelSelector (ignored c) = None ->
  (forall u, u ∈ svcs -> wanted c w u = true ->
     userServiceToMeshServiceName c (svc_Name u) (svc_Namespace u) ∉ getErrs w) ->
  (forall b, b ∈ createErrs w -> b = false) ->
  let r := createMeshServices c (Ok svcs) w in
  r.1.1 = None
  /\ exists news, created r.2 = created w ++ news
                  /\ Forall2 (mesh_service_of c) (List.filter (wanted c w) svcs) news.
Proof.
  intros Hsel Hget Hok r. subst r. unfold createMeshServices. rewrite Hsel.
  destruct (createEach_effect svcs c w)
    as (users & news & Hnews & _ & _ & Hall & Hnone & Hres).
  specialize (Hres Hok Hget). split; [done |].
  exists news. rewrite <- (Hnone Hres). done.
Qed.

Lemma createMeshServices_complete_witness :
  let db := {| svc_Name := "db"; svc_Namespace := "default"; svc_Labels := ∅;
               svc_Annotations := {[ AnnotationServiceType := "tcp" ]};
               svc_Ports := [ {| sp_Name := "pg"; sp_Protocol := "TCP"; sp_Port := 5432;
                                 sp_TargetPort := 5432 |} ];
               svc_Selector := ∅ |} in
  let web := {| svc_Name := "web"; svc_Namespace := "default"; svc_Labels := ∅;
                svc_Annotations := ∅;
                svc_Ports := [ {| sp_Name := "http"; sp_Protocol := "TCP"; sp_Port := 80;
                                  sp_TargetPort := 8080 |} ];
                svc_Selector := ∅ |} in
  let r := createMeshServices controller0 (Ok [db; web]) world_update_fails in
  r.1.1 = None
  /\ exists news, created r.2 = created world_update_fails ++ news
       /\ Forall2 (mesh_service_of controller0)
            (List.filter (wanted controller0 world_update_fails) [db; web]) news.
Proof.
  intros db web.
  refine (createMeshServices_complete controller0 [db; web] world_update_fails _ _ _).
  - reflexivity.
  - intros u _ _. simpl. apply not_elem_of_empty.
  - intros b Hb. simpl in Hb. by apply elem_of_nil in Hb.
Defined.

(** * Further properties of the loop of [Run] *)

(** X11. Whatever the events, the loop of [Run] never writes the port
    mapping nor the cluster (ConfigMap, services: it only logs and sends
    requests to the pods), never turns readiness off, and never drops a
    stored configuration. *)
Theorem loop_keeps `{MapRange} `{URL} {Configuration : Type} `{EqDecision Configuration}
    `{JSON (option Configuration)}
    (c : Controller Configuration) (w : World) (events : list (Event Configuration)) :
  let ran := loop c w events in
  tcpStateTable ran.1.2 = tcpStateTable c
  /\ same_cluster w ran.2
  /\ (readiness c = true -> readiness ran.1.2 = true)
  /\ (lastConfiguration c <> NilInterface -> lastConfiguration ran.1.2 <> NilInterface).
Proof. intros ran. apply loop_keeps_state. Qed.

(** X12. The loop of [Run] panics exactly when nothing is stored in
    [lastConfiguration] and the first event it receives is a tick: a
    refresh whose build succeeded stores a configuration whatever its tag,
    and no tick panics after that. *)
Theorem loop_panics_iff `{MapRange} `{URL} {Configuration : Type}
    `{EqDecision Configuration} `{JSON (option Configuration)}
    (c : Controller Configuration) (w : World) (events : list (Event Configuration)) :
  (loop c w events).1.1 = Panicked
  <-> lastConfiguration c = NilInterface
      /\ exists podList env rest, events = Tick podList env :: rest.
Proof.
  split.
  - intros Hpanic. destruct (lastConfiguration c) as [|p] eqn:Hlast.
    + split; [done |]. destruct events as [|ev rest]; [done |].
      destruct ev as [|message [conf|e] podList env|podList env];
        [done | | done | by exists podList, env, rest].
      assert (deploys c message conf = true) as Hgo.
      { unfold deploys. rewrite Hlast. simpl. apply orb_true_r. }
      destruct (turn_refresh c w message conf podList env Hgo) as [Hout Hturn].
      apply fanned_out_frame in Hout as [(_ & Hl & _) _]. simpl in Hl.
      cbn [loop] in Hpanic. rewrite Hturn in Hpanic.
      apply loop_no_panic in Hpanic; [done |].
      destruct (fan_out_ok conf env podList); simpl; by rewrite Hl.
    + apply loop_no_panic in Hpanic; [done | by rewrite Hlast].
  - intros [Hlast (podList & env & rest & ->)]. simpl. by rewrite Hlast.
Qed.

(** X13. The loop of [Run] returns an error only for a refresh whose build
    failed, and that error is the one of the build; it returns without
    error only on a stop signal; a failed deploy never ends it. *)
Theorem loop_returns `{MapRange} `{URL} {Configuration : Type}
    `{EqDecision Configuration} `{JSON (option Configuration)}
    (c : Controller Configuration) (w : World) (events : list (Event Configuration)) :
  (forall e, (loop c w events).1.1 = Returned (Some e) ->
     exists e' message podList env,
       e = ErrBuild e' /\ Refresh message (Err e') podList env ∈ events)
  /\ ((loop c w events).1.1 = Returned None -> Stop ∈ events)
  /\ (lastConfiguration c <> NilInterface ->
      Forall (fun ev => match ev with
                        | Stop | Refresh _ (Err _) _ _ => False
                        | _ => True
                        end) events ->
      (loop c w events).1.1 = Selecting).
Proof.
  revert c w. induction events as [|ev rest IH]; intros c w.
  { split; [done |]. split; done. }
  cbn [loop]. pose proof (turn_keeps_state c w ev) as Hkeep.
  destruct (turn c w ev) as [[c' w']|[[out c'] w']] eqn:Hturn.
  - destruct (IH c' w') as (Herr & Hstop & Hsel). split; [| split].
    + intros e He. destruct (Herr e He) as (e' & message & podList & env & -> & Hin).
      exists e', message, podList, env. split; [done | by right].
    + intros Hnone. right. by apply Hstop.
    + intros Hlast Hall. apply Hsel; [by apply Hkeep | by inversion Hall].
  - simpl. apply turn_leaves in Hturn
      as [[-> ->] | [(message & e0 & podList & env & -> & ->)
                    | (podList & env & -> & Hlast & ->)]].
    + split; [done |]. split; [intros _; by left |].
      intros _ Hall. by inversion Hall.
    + split; [| split].
      * intros e [= <-]. exists e0, message, podList, env. split; [done | by left].
      * done.
      * intros _ Hall. by inversion Hall.
    + split; [done |]. split; [done |]. by intros Hne.
Qed.

(** * Further properties of the deploy functions and of the names *)

Section NameFacts.

Lemma append_inj_length a : forall b x y,
  String.length a = String.length b -> a +:+ x = b +:+ y -> a = b /\ x = y.
Proof.
  induction a as [|ch a IH]; intros [|ch' b] x y Hlen Heq; try done.
  change (String ch (a +:+ x) = String ch' (b +:+ y)) in Heq.
  injection Heq as -> Heq. simpl in Hlen.
  destruct (IH b x y) as [-> ->]; [lia | done | done].
Qed.

Lemma length_append a b : String.length (a +:+ b) = (String.length a + String.length b)%nat.
Proof.
  induction a as [|ch a IH]; [done |].
  change (S (String.length (a +:+ b)) = S (String.length a + String.length b)).
  by rewrite IH.
Qed.

Lemma Split_present sep s :
  contains_char sep s = true -> exists a b pieces, Split sep s = a :: b :: pieces.
Proof.
  induction s as [|ch s IH]; [done |]. cbn [contains_char Split].
  destruct (Ascii.eqb ch sep).
  - intros _. pose proof (Split_nonempty sep s). destruct (Split sep s) as [|b pieces]; [done |].
    by exists "", b, pieces.
  - intros Hs. destruct (IH Hs) as (a & b & pieces & ->). by exists (String ch a), b, pieces.
Qed.

End NameFacts.

(** The attempts on one pod: failures, but possibly the last. *)
Lemma upto_accepted_shape l :
  l <> [] ->
  (0 < length (upto_accepted l) <= length l)%nat
  /\ Forall (fun a => accepted a = false)
       (take (length (upto_accepted l) - 1) (upto_accepted l))
  /\ (existsb accepted l = true
      <-> exists a, last (upto_accepted l) = Some a /\ accepted a = true).
Proof.
  induction l as [|a l IH]; [done |]. intros _. rewrite upto_accepted_cons.
  destruct (accepted a) eqn:Ha.
  { simpl. rewrite Ha. split; [lia |]. split; [constructor |]. split; [| done].
    intros _. by exists a. }
  destruct l as [|b l].
  { simpl. rewrite Ha. split; [lia |]. split; [constructor |]. split; [done |].
    intros (a0 & [= <-] & Ha0). congruence. }
  destruct IH as (Hlen & Hfailed & Hlast); [done |].
  set (u := upto_accepted (b :: l)) in *. cbn [existsb length]. rewrite Ha, orb_false_l.
  split; [simpl in Hlen; lia |]. split.
  - replace (S (length u) - 1)%nat with (S (length u - 1)) by lia.
    cbn [take]. by constructor.
  - rewrite Hlast. destruct u as [|x u]; [simpl in Hlen; lia | done].
Qed.

Lemma attempts_shape env pod :
  (0 < length (attempts env pod) <= S (retries env pod))%nat
  /\ Forall (fun a => accepted a = false)
       (take (length (attempts env pod) - 1) (attempts env pod))
  /\ (existsb accepted (allowed env pod) = true
      <-> exists a, last (attempts env pod) = Some a /\ accepted a = true).
Proof.
  unfold attempts.
  destruct (upto_accepted_shape (allowed env pod)) as (Hlen & Hfailed & Hlast).
  { unfold allowed. change (seq 0 (S (retries env pod)))
      with (0%nat :: seq 1 (retries env pod)). done. }
  split; [| done].
  assert (length (allowed env pod) = S (retries env pod)) as Hall
    by (unfold allowed; by rewrite length_fmap, length_seq).
  lia.
Qed.

Section UnreadyFacts.
Context `{URL} {Configuration : Type} `{JSON (option Configuration)}.
Implicit Types (c : Controller Configuration) (conf : option Configuration).


End UnreadyFacts.

(** X14. [deployToPods] is attempted on every pod of the list, whatever
    happens to the others and in whatever order the goroutines run. Each
    pod that has a name and an address, for a configuration that can be
    marshalled, is sent one PUT request for each attempt, up to the first
    that it accepts or to the last that the back-off allows, and each
    attempt leaves one record in the deploy log, the records of one pod in
    the order of its attempts; the other pods are sent nothing and leave no
    record. One debug entry is logged when a pod is started, in the order
    of the list, and one when it has accepted the configuration. The
    controller changes by its deploy log only and the cluster not at all.
    An error is returned exactly when some pod did not accept the
    configuration. *)
Theorem deployToPods_all `{URL} {Configuration : Type} `{JSON (option Configuration)}
    (c : Controller Configuration) (pods : list Pod) (conf : option Configuration)
    (env : Environment) (w : World) :
  let r := deployToPods c pods conf env w in
  fanned_out conf env pods c w r.1.2 r.2
  /\ no_error r.1.1 = forallb (delivered conf env) pods
  /\ Forall (fun pod =>
       match push_request conf pod with
       | Some req =>
           pushes conf env pod = replicate (length (attempts env pod)) req
           /\ records_of conf env pod = record_of pod <$> attempts env pod
           /\ (0 < length (attempts env pod) <= S (retries env pod))%nat
           /\ Forall (fun a => accepted a = false)
                (take (length (attempts env pod) - 1) (attempts env pod))
           /\ (delivered conf env pod = true
               <-> exists a, last (attempts env pod) = Some a /\ accepted a = true)
       | None =>
           pushes conf env pod = [] /\ records_of conf env pod = []
           /\ delivered conf env pod = false
       end) pods.
Proof.
  intros r. destruct (deployToPods_spec c pods conf env w) as [Hout Hres].
  split; [done |]. split; [done |]. apply Forall_forall. intros pod _.
  unfold pushes, records_of, delivered.
  destruct (push_request conf pod) as [req|]; [| done].
  pose proof (attempts_shape env pod) as (Hlen & Hfailed & Hlast).
  split; [| done]. revert Hlen. generalize (attempts env pod). intros l _.
  induction l as [|a l IH]; [done |]. simpl. f_equal. exact IH.
Qed.


(** X16. Two user services whose names have the same length, or whose
    namespaces have, get the same mesh service name only if they are the
    same service. *)
Theorem mesh_service_name_inj {Configuration : Type}
    (c : Controller Configuration) (n1 ns1 n2 ns2 : string) :
  String.length n1 = String.length n2 \/ String.length ns1 = String.length ns2 ->
  userServiceToMeshServiceName c n1 ns1 = userServiceToMeshServiceName c n2 ns2 ->
  n1 = n2 /\ ns1 = ns2.
Proof.
  unfold userServiceToMeshServiceName. intros Hlen Heq.
  apply append_inj_length in Heq as [_ Heq]; [| done].
  apply (append_inj_length "-" "-") in Heq as [_ Heq]; [| done].
  assert (String.length n1 = String.length n2) as Hn.
  { destruct Hlen as [? | Hns]; [done |].
    apply (f_equal String.length) in Heq. rewrite !length_append in Heq. simpl in Heq. lia. }
  apply append_inj_length in Heq as [-> Heq]; [| done].
  apply (append_inj_length "-6d61657368-" "-6d61657368-") in Heq as [_ ->]; done.
Qed.

Lemma mesh_service_name_inj_witness :
  "web" = "web" /\ "default" = "default".
Proof.
  apply (mesh_service_name_inj controller0 "web" "default" "web" "default");
    [by left | reflexivity].
Defined.

(** X17. [parseServiceNamePort] fails with its own error exactly when the
    value has no colon; a value with a colon fails only with the error of
    [ParseInt] on what stands between the first colon and the next; what it
    accepts has a port of type [int32]. *)
Theorem parseServiceNamePort_errors (value : string) :
  (parseServiceNamePort value = Err ErrNameAndPort <-> contains_char ":" value = false)
  /\ (forall e, parseServiceNamePort value = Err (ErrPort e) ->
        exists s0 s1 pieces, Split ":" value = s0 :: s1 :: pieces /\ ParseInt s1 = Err e)
  /\ (forall svc, parseServiceNamePort value = Ok svc -> in_int32 (Port svc)).
Proof.
  unfold parseServiceNamePort.
  destruct (contains_char ":" value) eqn:Hcolon.
  - destruct (Split_present _ _ Hcolon) as (s0 & s1 & pieces & ->).
    pose proof (Split_nonempty "/" s0) as Hs0.
    destruct (ParseInt s1) as [port|e] eqn:Hport.
    + pose proof (ParseInt_in_int32 _ _ Hport) as Hint.
      destruct (Split "/" s0) as [|sub0 [|sub1 subs]]; [done | |];
        (split; [split; done |]); (split; [done |]);
        intros svc [= <-]; simpl; by rewrite wrap32_id.
    + split; [split; done |]. split; [| done].
      intros e' [= <-]. by exists s0, s1, pieces.
  - rewrite Split_absent by done. split; [done |]. split; done.
Qed.

Section CapacityFacts.
Context `{MapRange}.

(** A table within its bounds is full exactly when it holds as many ports
    as the range has. *)
Lemma range_full_size m :
  in_range m ->
  range_full m <-> size (table m) = Z.to_nat (maxPort m - minPort m + 1).
Proof.
  intros Hrange.
  set (ports := list_to_set (seqZ (minPort m) (maxPort m - minPort m + 1)) : gset Z).
  assert (size ports = Z.to_nat (maxPort m - minPort m + 1)) as Hsize.
  { unfold ports. rewrite size_list_to_set by apply NoDup_seqZ. apply length_seqZ. }
  assert (forall q, q ∈ ports <-> minPort m <= q <= maxPort m) as Hports.
  { intros q. unfold ports. rewrite elem_of_list_to_set, elem_of_seqZ. lia. }
  assert (dom (table m) ⊆ ports) as Hsub.
  { intros q [svc Hq]%elem_of_dom. apply Hports. by apply (Hrange q svc). }
  rewrite <- Hsize, <- (size_dom (D := gset Z)). split.
  - intros Hfull. f_equal. apply set_eq. intros q. split; [apply Hsub |].
    intros Hq%Hports. by apply elem_of_dom, Hfull.
  - intros Heq q Hq. apply elem_of_dom.
    assert (dom (table m) = ports) as -> by (apply set_subseteq_size_eq; [done | lia]).
    by apply Hports.
Qed.

End CapacityFacts.

(** X18. The range [[minPort, maxPort]] is the capacity of the port
    mapping: on a table within its bounds, whose upper bound is below the
    [int32] maximum, [Add] fails for want of a port exactly when the table
    holds [maxPort - minPort + 1] ports. *)
Theorem Add_capacity `{MapRange} (m : TCPPortMapping) (svc : ServiceWithPort) (w : World) :
  in_int32 (minPort m) -> in_int32 (maxPort m) -> maxPort m < int32_max ->
  in_range m ->
  (Add m svc w).1.1 = Err ErrNoPort
  <-> size (table m) = Z.to_nat (maxPort m - minPort m + 1).
Proof.
  intros Hmin Hmax Hlt Hrange. rewrite <- (range_full_size m Hrange). split.
  - intros Herr. destruct (range_full_or_free m) as [Hfull | [p Hp]]; [done |].
    rewrite (Add_lowest m svc w p) in Herr; [| | done].
    + simpl in Herr. by destruct (saveState _ w).1.
    + unfold in_int32, int32_min, int32_max in *. lia.
  - intros Hfull. by rewrite Add_full.
Qed.

Lemma Add_capacity_witness :
  let m := {| table := {[ 10000 := db ]}; minPort := 10000; maxPort := 10000 |} in
  (Add m db (world0 [])).1.1 = Err ErrNoPort <-> size (table m) = Z.to_nat (10000 - 10000 + 1).
Proof.
  apply (Add_capacity {| table := {[ 10000 := db ]}; minPort := 10000; maxPort := 10000 |}
           db (world0 []));
    try (unfold in_int32, int32_min, int32_max; simpl; lia).
  intros p svc Hp. simpl in Hp. apply lookup_singleton_Some in Hp as [<- _]. simpl. lia.
Defined.

Section TargetFacts.
Context `{MapRange} {Configuration : Type}.
Implicit Types c : Controller Configuration.

Lemma positional_from_distinct sps : forall id,
  let l := omap (fun '(i, sp) =>
                   if isTCP sp then Some (meshPort sp (5000 + Z.of_nat i)) else None)
                (imap (fun i sp => ((id + i)%nat, sp)) sps) in
  Forall (fun e => 5000 + Z.of_nat id <= sp_TargetPort e) l
  /\ NoDup (sp_TargetPort <$> l).
Proof.
  induction sps as [|sp rest IH]; intros id l; subst l.
  { split; constructor. }
  cbn [imap]. rewrite Nat.add_0_r.
  replace (imap ((fun i sp0 => ((id + i)%nat, sp0)) ∘ S) rest)
    with (imap (fun i sp0 => ((S id + i)%nat, sp0)) rest)
    by (apply imap_ext; intros i x _; simpl; f_equal; lia).
  destruct (IH (S id)) as [Hge Hnodup].
  match goal with
  | |- context [omap ?f ((id, sp) :: ?l)] =>
      change (omap f ((id, sp) :: l))
        with (match f (id, sp) with Some e => e :: omap f l | None => omap f l end);
      set (tail := omap f l) in *
  end.
  cbv beta iota.
  assert (Forall (fun e => 5000 + Z.of_nat id <= sp_TargetPort e) tail) as Hge'.
  { eapply Forall_impl; [exact Hge |]. intros e He. simpl in He. lia. }
  destruct (isTCP sp); [| done]. split.
  - constructor; [simpl; lia | done].
  - rewrite fmap_cons. constructor; [| done]. simpl.
    intros (e & Heq & Hin)%list_elem_of_fmap.
    rewrite Forall_forall in Hge. specialize (Hge e Hin). simpl in Hge. lia.
Qed.

Lemma positional_ports_distinct sps : NoDup (sp_TargetPort <$> positional_ports sps).
Proof.
  unfold positional_ports.
  replace (imap pair sps) with (imap (fun i sp => ((0 + i)%nat, sp)) sps)
    by (by apply imap_ext).
  apply (positional_from_distinct sps 0).
Qed.

End TargetFacts.

(** X19. The ports of one mesh service never share a target: outside the
    mode [tcp] the targets [5000 + id] are pairwise distinct, and in the
    mode [tcp] two entries for different service ports have different
    targets. *)
Theorem mesh_target_ports_distinct `{MapRange} {Configuration : Type}
    (c : Controller Configuration) (service : Service) (mode : string) (w : World) :
  Z.of_nat (length (svc_Ports service)) <= 2147478648 ->
  let ports := (meshPorts mode service 0 (svc_Ports service) [] c w).1.1 in
  (mode <> ServiceTypeTCP -> NoDup (sp_TargetPort <$> ports))
  /\ (mode = ServiceTypeTCP ->
      forall e1 e2, e1 ∈ ports -> e2 ∈ ports ->
        sp_Port e1 <> sp_Port e2 -> sp_TargetPort e1 <> sp_TargetPort e2).
Proof.
  intros Hlen ports. subst ports. split.
  - intros Hmode. rewrite meshPorts_positional_0; [| | done].
    + apply positional_ports_distinct.
    + by destruct (String.eqb_spec mode ServiceTypeTCP).
  - intros -> e1 e2 Hin1 Hin2 Hports Htargets.
    destruct (meshPorts_tcp ServiceTypeTCP service (svc_Ports service) 0 [] c w eq_refl)
      as (emitted & Heq & _ & Hall & _).
    simpl in Heq. rewrite Heq in Hin1, Hin2. rewrite Forall_forall in Hall.
    destruct (Hall e1 Hin1) as (sp1 & _ & _ & He1 & Ht1).
    destruct (Hall e2 Hin2) as (sp2 & _ & _ & He2 & Ht2).
    rewrite Htargets, Ht2 in Ht1. injection Ht1 as Hsp.
    apply Hports. rewrite He1, He2. simpl. done.
Qed.

Lemma mesh_target_ports_distinct_witness :
  let web := {| svc_Name := "web"; svc_Namespace := "default"; svc_Labels := ∅;
                svc_Annotations := ∅;
                svc_Ports := [ {| sp_Name := "http"; sp_Protocol := "TCP"; sp_Port := 80;
                                  sp_TargetPort := 8080 |};
                               {| sp_Name := "https"; sp_Protocol := "TCP"; sp_Port := 443;
                                  sp_TargetPort := 8443 |} ];
                svc_Selector := ∅ |} in
  NoDup (sp_TargetPort <$> (meshPorts "http" web 0 (svc_Ports web) [] controller0
                              (world0 [])).1.1).
Proof.
  intros web.
  refine (proj1 (mesh_target_ports_distinct controller0 web "http" (world0 []) _) _).
  - simpl. lia.
  - discriminate.
Defined.
